(** * KarpelesLab/ini: the INI reader and writer, embedded and verified

    The package stores a document as [map[string]map[string]string]
    ([Ini]).  [ReadFrom] parses a byte stream line by line and merges it
    into the document, [WriteTo] serialises the document, and [Get], [Set],
    [Unset], [HasSection] read and update it.

    A Go [string] is a sequence of bytes: it is modelled as [list ascii].
    A [for _, c := range s] loop decodes UTF-8 and yields runes (Go's
    [int32], here [Z]); [strings.Builder.WriteRune] encodes a rune back.
    The pieces of the Go standard library the package calls ([unicode/utf8],
    [unicode], [strings], [bufio.Scanner]) are modelled first, then the
    package itself. *)

From Stdlib Require Import ZArith List Ascii String Bool Lia.
From stdpp Require Import base list gmap strings.

Local Open Scope Z_scope.

(** ** Bytes and strings *)

Abbreviation gostring := (list ascii).

(** A string literal as the bytes it denotes. *)
Definition go (s : string) : gostring := list_ascii_of_string s.

(** The numeric value of a byte, and Go's [byte(x)] conversion. *)
Definition byte_val (c : ascii) : Z := Z.of_N (N_of_ascii c).
Definition byte_of (z : Z) : ascii := ascii_of_N (Z.to_N (z mod 256)).

Definition TAB : ascii := "009"%char.
Definition LF : ascii := "010"%char.
Definition VT : ascii := "011"%char.
Definition FF : ascii := "012"%char.
Definition CR : ascii := "013"%char.
Definition SP : ascii := " "%char.
Definition DQUOTE : ascii := "034"%char.
Definition HASH : ascii := "#"%char.
Definition SQUOTE : ascii := "'"%char.
Definition SEMI : ascii := ";"%char.
Definition EQUALS : ascii := "="%char.
Definition LBRACKET : ascii := "["%char.
Definition BACKSLASH : ascii := "\"%char.
Definition RBRACKET : ascii := "]"%char.

(** [s[n]] for an index in range; Go panics out of range, and every use
    below is guarded by a length test as in the source. *)
Definition byte_at (s : gostring) (n : nat) : ascii := nth n s "000"%char.

(** ** unicode/utf8 *)

Module go_utf8.

Definition RuneError : Z := 0xFFFD.
Definition RuneSelf : Z := 0x80.
Definition MaxRune : Z := 0x10FFFF.
Definition UTFMax : Z := 4.
Definition surrogateMin : Z := 0xD800.
Definition surrogateMax : Z := 0xDFFF.
Definition rune1Max : Z := 0x7F.
Definition rune2Max : Z := 0x7FF.
Definition rune3Max : Z := 0xFFFF.
Definition t2 : Z := 0xC0.
Definition t3 : Z := 0xE0.
Definition t4 : Z := 0xF0.
Definition tx : Z := 0x80.
Definition maskx : Z := 0x3F.
Definition mask2 : Z := 0x1F.
Definition mask3 : Z := 0x0F.
Definition mask4 : Z := 0x07.
Definition locb : Z := 0x80.
Definition hicb : Z := 0xBF.

(** The table [first]: what the first byte of a sequence announces.  [as_]
    is an ASCII byte, [xx] an illegal first byte, [lead sz lo hi] the first
    byte of a sequence of [sz] bytes whose second byte lies in [lo..hi]
    (the table [acceptRanges]). *)
Inductive firstInfo : Type :=
| as_
| xx
| lead (sz : nat) (lo hi : Z).

Definition first (b : Z) : firstInfo :=
  if b <? 0x80 then as_
  else if b <? 0xC2 then xx
  else if b <? 0xE0 then lead 2 locb hicb
  else if b =? 0xE0 then lead 3 0xA0 hicb
  else if b <? 0xED then lead 3 locb hicb
  else if b =? 0xED then lead 3 locb 0x9F
  else if b <? 0xF0 then lead 3 locb hicb
  else if b =? 0xF0 then lead 4 0x90 hicb
  else if b <? 0xF4 then lead 4 locb hicb
  else if b =? 0xF4 then lead 4 locb 0x8F
  else xx.

(** [utf8.DecodeRuneInString]: the first rune of [s] and its width in
    bytes; [(RuneError, 1)] on an invalid or truncated sequence and
    [(RuneError, 0)] on the empty string. *)
Definition DecodeRuneInString (s : gostring) : Z * nat :=
  match s with
  | [] => (RuneError, 0%nat)
  | c0 :: _ =>
    let s0 := byte_val c0 in
    match first s0 with
    | as_ => (s0, 1%nat)
    | xx => (RuneError, 1%nat)
    | lead sz lo hi =>
      if (length s <? sz)%nat then (RuneError, 1%nat)
      else
        let s1 := byte_val (byte_at s 1) in
        if (s1 <? lo) || (hi <? s1) then (RuneError, 1%nat)
        else if (sz <=? 2)%nat then
          (Z.lor (Z.shiftl (Z.land s0 mask2) 6) (Z.land s1 maskx), 2%nat)
        else
          let s2 := byte_val (byte_at s 2) in
          if (s2 <? locb) || (hicb <? s2) then (RuneError, 1%nat)
          else if (sz <=? 3)%nat then
            (Z.lor (Z.lor (Z.shiftl (Z.land s0 mask3) 12)
                          (Z.shiftl (Z.land s1 maskx) 6))
                   (Z.land s2 maskx), 3%nat)
          else
            let s3 := byte_val (byte_at s 3) in
            if (s3 <? locb) || (hicb <? s3) then (RuneError, 1%nat)
            else
              (Z.lor (Z.lor (Z.lor (Z.shiftl (Z.land s0 mask4) 18)
                                   (Z.shiftl (Z.land s1 maskx) 12))
                            (Z.shiftl (Z.land s2 maskx) 6))
                     (Z.land s3 maskx), 4%nat)
    end
  end.

(** [utf8.RuneStart]: the byte is not a continuation byte. *)
Definition RuneStart (b : ascii) : bool :=
  negb (Z.land (byte_val b) 0xC0 =? 0x80).

(** The backward loop of [DecodeLastRuneInString]:
    [for start--; start >= lim; start-- { if RuneStart(s[start]) { break } }],
    entered after the decrement. *)
Fixpoint lastStart (fuel : nat) (s : gostring) (lim start : Z) : Z :=
  match fuel with
  | O => start
  | S fuel' =>
    if start <? lim then start
    else if RuneStart (byte_at s (Z.to_nat start)) then start
    else lastStart fuel' s lim (start - 1)
  end.

(** [utf8.DecodeLastRuneInString]: the last rune of [s] and its width. *)
Definition DecodeLastRuneInString (s : gostring) : Z * nat :=
  let end_ := Z.of_nat (length s) in
  if end_ =? 0 then (RuneError, 0%nat)
  else
    let start := end_ - 1 in
    let r := byte_val (byte_at s (Z.to_nat start)) in
    if r <? RuneSelf then (r, 1%nat)
    else
      let lim := Z.max 0 (end_ - UTFMax) in
      let start := lastStart 4 s lim (start - 1) in
      let start := Z.max 0 start in
      let '(r, size) := DecodeRuneInString (drop (Z.to_nat start) s) in
      if negb (start + Z.of_nat size =? end_) then (RuneError, 1%nat)
      else (r, size).

(** Go's [uint32(r)] of an [int32], and [byte(x)] as a number. *)
Definition uint32 (r : Z) : Z := r mod 2 ^ 32.
Definition u8 (x : Z) : Z := x mod 256.

(** [utf8.AppendRune] on an empty buffer: the UTF-8 encoding of [r]; a
    rune out of range or a surrogate is encoded as [RuneError]. *)
Definition AppendRune (r : Z) : gostring :=
  let i := uint32 r in
  if i <=? rune1Max then [byte_of r]
  else if i <=? rune2Max then
    [byte_of (Z.lor t2 (u8 (Z.shiftr r 6)));
     byte_of (Z.lor tx (Z.land (u8 r) maskx))]
  else
    let r := if (MaxRune <? i) || ((surrogateMin <=? i) && (i <=? surrogateMax))
             then RuneError else r in
    if (uint32 r) <=? rune3Max then
      [byte_of (Z.lor t3 (u8 (Z.shiftr r 12)));
       byte_of (Z.lor tx (Z.land (u8 (Z.shiftr r 6)) maskx));
       byte_of (Z.lor tx (Z.land (u8 r) maskx))]
    else
      [byte_of (Z.lor t4 (u8 (Z.shiftr r 18)));
       byte_of (Z.lor tx (Z.land (u8 (Z.shiftr r 12)) maskx));
       byte_of (Z.lor tx (Z.land (u8 (Z.shiftr r 6)) maskx));
       byte_of (Z.lor tx (Z.land (u8 r) maskx))].

(** The runes a [for _, c := range s] loop yields, in order.  [skip] counts
    the bytes of the current rune still to step over. *)
Fixpoint range_from (skip : nat) (s : gostring) : list Z :=
  match s with
  | [] => []
  | _ :: t =>
    match skip with
    | S k => range_from k t
    | O => let '(r, size) := DecodeRuneInString s in
           r :: range_from (size - 1) t
    end
  end.

Definition range (s : gostring) : list Z := range_from 0 s.

(** A sequence of [WriteRune] calls on an empty builder. *)
Definition WriteRunes (rs : list Z) : gostring := flat_map AppendRune rs.

(** [utf8.ValidString], through what a range loop followed by [WriteRune]
    does to the string: it is valid exactly when that copy is lossless. *)
Definition lossless (s : gostring) : bool :=
  bool_decide (WriteRunes (range s) = s).

(** The runes UTF-8 can encode: what [DecodeRuneInString] returns. *)
Definition validRune (r : Z) : Prop :=
  0 <= r < surrogateMin \/ surrogateMax < r <= MaxRune.

End go_utf8.

(** ** unicode *)

Module go_unicode.

Definition MaxASCII : Z := 0x7F.
Definition MaxLatin1 : Z := 0xFF.

(** The range table [White_Space] above Latin-1. *)
Definition White_Space (r : Z) : bool :=
  (r =? 0x1680) || ((0x2000 <=? r) && (r <=? 0x200a))
  || (r =? 0x2028) || (r =? 0x2029) || (r =? 0x202f)
  || (r =? 0x205f) || (r =? 0x3000).

(** [unicode.IsSpace]. *)
Definition IsSpace (r : Z) : bool :=
  if go_utf8.uint32 r <=? MaxLatin1 then
    (r =? 0x09) || (r =? 0x0A) || (r =? 0x0B) || (r =? 0x0C) || (r =? 0x0D)
    || (r =? 0x20) || (r =? 0x85) || (r =? 0xA0)
  else White_Space r.

(** [unicode.ToLower].  Above ASCII the result comes from Unicode's case
    tables [CaseRanges], which are data of the Go distribution: they are the
    parameter [lowerCase] (the function [To(LowerCase, r)]). *)
Definition ToLower (lowerCase : Z -> Z) (r : Z) : Z :=
  if r <=? MaxASCII then
    if (0x41 <=? r) && (r <=? 0x5A) then r + (0x61 - 0x41) else r
  else lowerCase r.

End go_unicode.

(** ** strings *)

Module go_strings.

(** [strings.IndexByte]: the index of the first [c] in [s], or -1. *)
Fixpoint IndexByte (s : gostring) (c : ascii) : Z :=
  match s with
  | [] => -1
  | b :: t =>
    if Ascii.eqb b c then 0
    else let i := IndexByte t c in if i <? 0 then -1 else i + 1
  end.

(** [strings.ContainsRune] for a rune below [RuneSelf], the only use in
    the package: a search for that byte. *)
Definition ContainsRune (s : gostring) (r : ascii) : bool :=
  0 <=? IndexByte s r.

(** [strings.ContainsAny] for a set [chars] of ASCII characters, the only
    use in the package.  A byte below [RuneSelf] is always a rune of its
    own, so the search over runes is a search over bytes. *)
Definition ContainsAny (s chars : gostring) : bool :=
  existsb (fun b => existsb (Ascii.eqb b) chars) s.

(** [strings.TrimLeftFunc s f]: drop leading runes while [f] holds. *)
Fixpoint TrimLeft_from (f : Z -> bool) (skip : nat) (s : gostring) : gostring :=
  match s with
  | [] => []
  | _ :: t =>
    match skip with
    | S k => TrimLeft_from f k t
    | O => let '(r, size) := go_utf8.DecodeRuneInString s in
           if f r then TrimLeft_from f (size - 1) t else s
    end
  end.

Definition TrimLeftFunc (s : gostring) (f : Z -> bool) : gostring :=
  TrimLeft_from f 0 s.

(** [strings.TrimRightFunc s f]: drop trailing runes, as
    [DecodeLastRuneInString] sees them, while [f] holds.  [fuel] bounds the
    number of runes and is the length of the string. *)
Fixpoint TrimRight_loop (f : Z -> bool) (fuel : nat) (s : gostring) : gostring :=
  match fuel with
  | O => s
  | S fuel' =>
    let '(r, size) := go_utf8.DecodeLastRuneInString s in
    match size with
    | O => s
    | _ => if f r then TrimRight_loop f fuel' (take (length s - size) s) else s
    end
  end.

Definition TrimRightFunc (s : gostring) (f : Z -> bool) : gostring :=
  TrimRight_loop f (length s) s.

(** [strings.TrimSpace]: leading and trailing white space removed, as
    defined by Unicode; that is [TrimFunc(s, unicode.IsSpace)], of which the
    library's ASCII fast path is an optimisation. *)
Definition TrimSpace (s : gostring) : gostring :=
  TrimRightFunc (TrimLeftFunc s go_unicode.IsSpace) go_unicode.IsSpace.

(** [strings.Map]: every rune of [s] replaced by its image, a negative
    image dropped; an invalid byte counts as [RuneError]. *)
Definition Map (mapping : Z -> Z) (s : gostring) : gostring :=
  flat_map (fun c => let r := mapping c in
                     if 0 <=? r then go_utf8.AppendRune r else [])
           (go_utf8.range s).

Definition lowerByte (c : ascii) : ascii :=
  let b := byte_val c in
  if (0x41 <=? b) && (b <=? 0x5A) then byte_of (b + (0x61 - 0x41)) else c.

(** [strings.ToLower]: a string of ASCII bytes is lower-cased byte by
    byte, any other string rune by rune with [unicode.ToLower]. *)
Definition ToLower (lowerCase : Z -> Z) (s : gostring) : gostring :=
  if forallb (fun c => byte_val c <? go_utf8.RuneSelf) s
  then map lowerByte s
  else Map (go_unicode.ToLower lowerCase) s.

End go_strings.

(** ** bufio.Scanner with the split function ScanLines *)

Module go_bufio.

Inductive scanError : Type := ErrTooLong.

(** [dropCR]: a final carriage return is removed. *)
Definition dropCR (data : gostring) : gostring :=
  match reverse data with
  | c :: r => if Ascii.eqb c CR then reverse r else data
  | [] => data
  end.

(** The input cut at every line feed; a last line without line feed
    counts when it is not empty. *)
Fixpoint splitLines (s : gostring) : list gostring :=
  match s with
  | [] => []
  | c :: t =>
    if Ascii.eqb c LF then [] :: splitLines t
    else match splitLines t with
         | [] => [[c]]
         | l :: ls => (c :: l) :: ls
         end
  end.

(** What the successive calls of [Scan] deliver: the lines, each through
    [dropCR], up to the first one that does not fit with its line feed in a
    buffer of [maxTokenSize] bytes; there the scanner stops with
    [ErrTooLong]. *)
Fixpoint deliver (maxTokenSize : Z) (raw : list gostring)
  : list gostring * option scanError :=
  match raw with
  | [] => ([], None)
  | l :: ls =>
    if Z.of_nat (length l) <? maxTokenSize then
      let '(ts, e) := deliver maxTokenSize ls in (dropCR l :: ts, e)
    else ([], Some ErrTooLong)
  end.

Definition Scan (maxTokenSize : Z) (source : gostring)
  : list gostring * option scanError :=
  deliver maxTokenSize (splitLines source).

End go_bufio.

Arguments go_utf8.DecodeRuneInString : simpl never.
Arguments go_utf8.DecodeLastRuneInString : simpl never.
Arguments go_utf8.AppendRune : simpl never.

(** ** The package: type Ini and its methods *)

(** [type Ini map[string]map[string]string].  The inner maps are the ones
    [Set] and [ReadFrom] make, so none is nil. *)
Abbreviation Section_ := (gmap gostring gostring).
Abbreviation Ini := (gmap gostring (gmap gostring gostring)).

(** [New]. *)
Definition New : Ini := ∅.

(** Go's [int64(x)]. *)
Definition int64 (z : Z) : Z := (z + 2 ^ 63) mod 2 ^ 64 - 2 ^ 63.

(** [len(s)] as a Go [int]. *)
Definition len (s : gostring) : Z := Z.of_nat (length s).

(** [s[a:b]]. *)
Definition slice (s : gostring) (a b : Z) : gostring :=
  drop (Z.to_nat a) (take (Z.to_nat b) s).

(** The errors [ReadFrom] returns, with the line number they print:
    ["line %d: empty section name"], ["line %d: invalid format, missing '='"],
    ["line %d: empty key name"] and ["scanner error: %w"]. *)
Inductive error : Type :=
| EmptySectionName (lineNum : Z)
| MissingDelimiter (lineNum : Z)
| EmptyKeyName (lineNum : Z)
| ScannerError (e : go_bufio.scanError).

Definition root : gostring := go "root".

(** A fragment of Unicode's lower-case table, enough to run examples:
    the Latin-1 capital letters. *)
Definition latin1Lower (r : Z) : Z :=
  if (0xC0 <=? r) && (r <=? 0xDE) && negb (r =? 0xD7) then r + 32 else r.

Section Package.

(** Unicode's lower-case table, see [go_unicode.ToLower]. *)
Variable lowerCase : Z -> Z.

Definition ToLower (s : gostring) : gostring := go_strings.ToLower lowerCase s.

(** *** ReadFrom *)

(** The variables of [ReadFrom] that live across loop iterations.  Go maps
    are references: [sectionMap], when not nil, is the very map stored in
    the document under some section name, and a write through it is a write
    into the document.  The alias is represented by that section name. *)
Record parser : Type := mkParser {
  doc : Ini;
  section : gostring;
  sectionMap : option gostring;
  lineNum : Z;
  bytesRead : Z
}.

(** The switch on the character after a backslash (lines 94-114): the
    runes written to the builder. *)
Definition unescape (quote : ascii) (c : Z) : list Z :=
  if c =? 0x6E then [0x0A]
  else if c =? 0x72 then [0x0D]
  else if c =? 0x74 then [0x09]
  else if c =? 0x5C then [0x5C]
  else if (c =? 0x22) || (c =? 0x27) then
    if Ascii.eqb (byte_of c) quote then [c] else [0x5C; c]
  else [0x5C; c].

(** One iteration of [for _, c := range v] (lines 92-121) on the builder
    [b] and the flag [escape]. *)
Definition escapeStep (quote : ascii) (st : gostring * bool) (c : Z)
  : gostring * bool :=
  let '(b, escape) := st in
  if escape then (b ++ go_utf8.WriteRunes (unescape quote c), false)
  else if c =? 0x5C then (b, true)
  else (b ++ go_utf8.AppendRune c, false).

(** Lines 88-128: the escape sequences of [v] processed. *)
Definition processEscapes (quote : ascii) (v : gostring) : gostring :=
  let '(b, escape) := fold_left (escapeStep quote) (go_utf8.range v) ([], false) in
  if escape then b ++ go_utf8.AppendRune 0x5C else b.

(** Lines 80-131: quotes and escape sequences of the trimmed value. *)
Definition unquote (v : gostring) : gostring :=
  if 2 <=? len v then
    if (Ascii.eqb (byte_at v 0) DQUOTE
        && Ascii.eqb (byte_at v (length v - 1)) DQUOTE)
       || (Ascii.eqb (byte_at v 0) SQUOTE
           && Ascii.eqb (byte_at v (length v - 1)) SQUOTE)
    then
      let quote := byte_at v 0 in
      let v := slice v 1 (len v - 1) in
      if go_strings.ContainsRune v BACKSLASH then processEscapes quote v else v
    else v
  else v.

(** Lines 133-142: the current section's map is fetched or made if
    [sectionMap] is nil, then [sectionMap[k] = v]. *)
Definition assign (st : parser) (k v : gostring) : parser :=
  let '(i, sm) :=
    match sectionMap st with
    | Some sm => (doc st, sm)
    | None =>
      match doc st !! section st with
      | Some _ => (doc st, section st)
      | None => (<[section st := ∅]> (doc st), section st)
      end
    end in
  mkParser (alter (insert k v) sm i) (section st) (Some sm)
           (lineNum st) (bytesRead st).

(** Lines 43-45: the line is counted. *)
Definition advance (st : parser) (line : gostring) : parser :=
  mkParser (doc st) (section st) (sectionMap st)
           (lineNum st + 1)
           (int64 (bytesRead st + int64 (len line + 1))).

(** Line 53: the trimmed line is a comment. *)
Definition isComment (line : gostring) : bool :=
  (0 <? len line)
  && (Ascii.eqb (byte_at line 0) SEMI || Ascii.eqb (byte_at line 0) HASH).

(** Line 59: the trimmed line is a section header. *)
Definition isHeader (line : gostring) : bool :=
  (2 <=? len line) && Ascii.eqb (byte_at line 0) LBRACKET
  && Ascii.eqb (byte_at line (length line - 1)) RBRACKET.

(** The body of the loop [for r.Scan()] (lines 43-142) on the line
    [r.Text()]: the variables after it, and the error if it returns. *)
Definition readLine (st : parser) (line : gostring) : parser * option error :=
  let st := advance st line in
  let line := go_strings.TrimSpace line in
  if len line =? 0 then (st, None)
  else if isComment line then (st, None)
  else if isHeader line then
    let section := ToLower (go_strings.TrimSpace (slice line 1 (len line - 1))) in
    if bool_decide (section = []) then (st, Some (EmptySectionName (lineNum st)))
    else (mkParser (doc st) section None (lineNum st) (bytesRead st), None)
  else
    let pos := go_strings.IndexByte line EQUALS in
    if pos <? 0 then (st, Some (MissingDelimiter (lineNum st)))
    else
      let k := ToLower (go_strings.TrimSpace (slice line 0 pos)) in
      if bool_decide (k = []) then (st, Some (EmptyKeyName (lineNum st)))
      else
        let v := go_strings.TrimSpace (slice line (pos + 1) (len line)) in
        (assign st k (unquote v), None).

(** The loop: it ends with the lines, or returns at the first error. *)
Fixpoint readLines (st : parser) (lines : list gostring) : parser * option error :=
  match lines with
  | [] => (st, None)
  | line :: rest =>
    match readLine st line with
    | (st', Some e) => (st', Some e)
    | (st', None) => readLines st' rest
    end
  end.

Definition maxTokenSize : Z := 1024 * 1024.

Definition start (i : Ini) : parser := mkParser i root None 0 0.

(** [ReadFrom]: the document after the call, the bytes read, the error. *)
Definition ReadFrom (i : Ini) (source : gostring) : Ini * Z * option error :=
  let '(lines, scanErr) := go_bufio.Scan maxTokenSize source in
  let '(st, err) := readLines (start i) lines in
  match err, scanErr with
  | Some e, _ => (doc st, bytesRead st, Some e)
  | None, Some e => (doc st, bytesRead st, Some (ScannerError e))
  | None, None => (doc st, bytesRead st, None)
  end.

(** [Load]. *)
Definition Load (i : Ini) (source : gostring) : Ini * option error :=
  let '(i', _, err) := ReadFrom i source in (i', err).

(** *** Get, Set, Unset, HasSection *)

Definition Get (i : Ini) (section key : gostring) : gostring * bool :=
  match i !! ToLower section with
  | None => ([], false)
  | Some s =>
    match s !! ToLower key with
    | Some r => (r, true)
    | None => ([], false)
    end
  end.

Definition GetDefault (i : Ini) (section key defaultValue : gostring) : gostring :=
  let '(v, ok) := Get i section key in if ok then v else defaultValue.

Definition Set_ (i : Ini) (section key value : gostring) : Ini :=
  let section := ToLower section in
  let key := ToLower key in
  let i := match i !! section with
           | Some _ => i
           | None => <[section := ∅]> i
           end in
  alter (insert key value) section i.

Definition Unset (i : Ini) (section key : gostring) : Ini :=
  let section := ToLower section in
  let key := ToLower key in
  match i !! section with
  | None => i
  | Some s =>
    let i := alter (delete key) section i in
    if (size (delete key s) =? 0)%nat then delete section i else i
  end.

Definition HasSection (i : Ini) (section : gostring) : bool :=
  bool_decide (is_Some (i !! ToLower section)).

(** *** WriteTo *)

(** A [for k, v := range m] loop visits the entries of [m] once each, in
    an order Go leaves unspecified: any list [l] with [ranges m l]. *)
Definition ranges {V : Type} (m : gmap gostring V) (l : list (gostring * V)) : Prop :=
  l ≡ₚ map_to_list m.

Definition quoteChars : gostring :=
  [SP; TAB; LF; CR; DQUOTE; SQUOTE; EQUALS; SEMI; HASH; LBRACKET; RBRACKET].

(** The switch of lines 206-219: what is written for the rune [c]. *)
Definition escapeRune (c : Z) : gostring :=
  if c =? 0x22 then [BACKSLASH; DQUOTE]
  else if c =? 0x5C then [BACKSLASH; BACKSLASH]
  else if c =? 0x0A then [BACKSLASH; "n"%char]
  else if c =? 0x0D then [BACKSLASH; "r"%char]
  else if c =? 0x09 then [BACKSLASH; "t"%char]
  else go_utf8.AppendRune c.

(** One iteration of the loop of [writeSection] (lines 195-229). *)
Definition writeEntry (k v : gostring) : gostring :=
  let needsQuotes := go_strings.ContainsAny v quoteChars in
  k ++ [EQUALS]
    ++ (if needsQuotes
        then [DQUOTE] ++ flat_map escapeRune (go_utf8.range v)
        else v)
    ++ (if needsQuotes then [DQUOTE] else [])
    ++ [LF].

(** [writeSection], on the entries of the section in the order its range
    loop visits them. *)
Definition writeSection (s : list (gostring * gostring)) : gostring :=
  flat_map (fun kv => writeEntry kv.1 kv.2) s.

(** One iteration of the loop over the sections (lines 173-186): [n] and
    [s] are the section, [kvs] the order in which [writeSection] visits it. *)
Definition writeOther (v : gostring * Section_ * list (gostring * gostring)) : gostring :=
  let '(n, s, kvs) := v in
  if bool_decide (n = root) || (size s =? 0)%nat then []
  else [LBRACKET] ++ n ++ [RBRACKET; LF] ++ writeSection kvs ++ [LF].

(** The bytes [WriteTo] builds, given the orders of its range loops:
    [rootOrder] for the root section, [visits] for the sections and the
    entries of each. *)
Definition content (i : Ini) (rootOrder : list (gostring * gostring))
    (visits : list (gostring * Section_ * list (gostring * gostring))) : gostring :=
  (match i !! root with
   | Some s => if (0 <? size s)%nat then writeSection rootOrder ++ [LF] else []
   | None => []
   end)
  ++ flat_map writeOther visits.

(** [WriteTo i] can write [out] and return [n]: the writer takes all the
    bytes. *)
Definition WriteTo (i : Ini) (out : gostring) (n : Z) : Prop :=
  ∃ rootOrder visits,
    (∀ s, i !! root = Some s → ranges s rootOrder)
    ∧ ranges i (visits.*1)
    ∧ Forall (fun v => ranges v.1.2 v.2) visits
    ∧ out = content i rootOrder visits
    ∧ n = int64 (len out).

(** The run of [WriteTo] whose loops follow [map_to_list]. *)
Definition WriteTo_run (i : Ini) : gostring :=
  content i (map_to_list (default ∅ (i !! root)))
    (map (fun ns => (ns, map_to_list ns.2)) (map_to_list i)).


(** *** Sections, Keys *)

(** Both build their result with [append] in a range loop over a map:
    the names in the order the loop visits the entries. *)
Definition appendNames {V : Type} (order : list (gostring * V)) : list gostring :=
  fold_left (fun names nv => names ++ [nv.1]) order [].

(** [Sections i] can return [names], a slice that is never nil. *)
Definition Sections (i : Ini) (names : list gostring) : Prop :=
  ∃ order, ranges i order ∧ names = appendNames order.

(** [Keys i section] can return [keys]; [None] is the nil slice returned
    for a section that is not in the document. *)
Definition Keys (i : Ini) (section : gostring) (keys : option (list gostring)) : Prop :=
  match i !! ToLower section with
  | None => keys = None
  | Some s => ∃ order, ranges s order ∧ keys = Some (appendNames order)
  end.

(** The runs of [Sections] and [Keys] whose loops follow [map_to_list]. *)
Definition Sections_run (i : Ini) : list gostring := appendNames (map_to_list i).

Definition Keys_run (i : Ini) (section : gostring) : option (list gostring) :=
  match i !! ToLower section with
  | None => None
  | Some s => Some (appendNames (map_to_list s))
  end.

(** *** The invariant of documents *)

(** Every section present has at least one key. *)
Definition nonempty_sections (i : Ini) : Prop :=
  ∀ n s, i !! n = Some s → s ≠ ∅.

(** The documents a program obtains from [New] with [Set], [Unset] and
    [ReadFrom] (or [Load]), whatever [ReadFrom] returns. *)
Inductive built : Ini → Prop :=
| built_New : built New
| built_Set i s k v : built i → built (Set_ i s k v)
| built_Unset i s k : built i → built (Unset i s k)
| built_ReadFrom i source : built i → built (ReadFrom i source).1.1.

(** The line number a format error carries. *)
Definition errorLine (e : error) : option Z :=
  match e with
  | EmptySectionName n | MissingDelimiter n | EmptyKeyName n => Some n
  | ScannerError _ => None
  end.

(** *** Quoting and escaping, in the words of the specification *)

(** The characters the specification lists as requiring escaping. *)
Definition specQuoteChars : gostring :=
  [SP; TAB; LF; CR; DQUOTE; SQUOTE; BACKSLASH; EQUALS; SEMI; HASH; LBRACKET; RBRACKET].

(** Character-level escaping of one character of the value. *)
Definition escapeByte (c : ascii) : gostring :=
  if Ascii.eqb c DQUOTE then [BACKSLASH; DQUOTE]
  else if Ascii.eqb c BACKSLASH then [BACKSLASH; BACKSLASH]
  else if Ascii.eqb c LF then [BACKSLASH; "n"%char]
  else if Ascii.eqb c CR then [BACKSLASH; "r"%char]
  else if Ascii.eqb c TAB then [BACKSLASH; "t"%char]
  else [c].

(** The value as the specification has it written. *)
Definition specWrittenValue (v : gostring) : gostring :=
  if go_strings.ContainsAny v specQuoteChars
  then [DQUOTE] ++ flat_map escapeByte v ++ [DQUOTE]
  else v.

(** What a backslash followed by the character [e] decodes to, inside
    quotes [quote]. *)
Definition specEscape (quote e : Z) : list Z :=
  if e =? 0x6E then [0x0A]
  else if e =? 0x72 then [0x0D]
  else if e =? 0x74 then [0x09]
  else if e =? 0x5C then [0x5C]
  else if ((e =? 0x22) || (e =? 0x27)) && (e =? quote) then [e]
  else [0x5C; e].

(** Escape decoding of the characters between the quotes: backslash
    sequences decoded pair by pair, a lone trailing backslash kept. *)
Fixpoint specUnescape (quote : Z) (rs : list Z) : list Z :=
  match rs with
  | [] => []
  | c :: rest =>
    if c =? 0x5C then
      match rest with
      | [] => [0x5C]
      | e :: rest' => specEscape quote e ++ specUnescape quote rest'
      end
    else c :: specUnescape quote rest
  end.

(** Lines 124-126: after the loop, a pending backslash is written. *)
Definition finishEscapes (st : gostring * bool) : gostring :=
  if st.2 then st.1 ++ go_utf8.AppendRune 0x5C else st.1.

(** The runes [escapeRune] writes for a rune. *)
Definition escapedRunes (c : Z) : list Z :=
  if c =? 0x22 then [0x5C; 0x22]
  else if c =? 0x5C then [0x5C; 0x5C]
  else if c =? 0x0A then [0x5C; 0x6E]
  else if c =? 0x0D then [0x5C; 0x72]
  else if c =? 0x09 then [0x5C; 0x74]
  else [c].

(** *** The format errors, in the words of the specification *)

Inductive fault : Type := EmptySection | EmptyKey | NoDelimiter.

Definition faultError (f : fault) (n : Z) : error :=
  match f with
  | EmptySection => EmptySectionName n
  | EmptyKey => EmptyKeyName n
  | NoDelimiter => MissingDelimiter n
  end.

(** The trimmed line is ['[' ... ']'] with empty trimmed interior. *)
Definition emptyHeader (l : gostring) : bool :=
  isHeader l && bool_decide (go_strings.TrimSpace (slice l 1 (len l - 1)) = []).

(** The text before the first ['='] of the trimmed line trims to empty. *)
Definition emptyKey (l : gostring) : bool :=
  (0 <=? go_strings.IndexByte l EQUALS)
  && bool_decide (go_strings.TrimSpace (slice l 0 (go_strings.IndexByte l EQUALS)) = []).

(** The trimmed line is not blank, not a comment, not a header, and
    contains no ['=']. *)
Definition noDelimiter (l : gostring) : bool :=
  negb (bool_decide (l = [])) && negb (isComment l) && negb (isHeader l)
  && bool_decide (EQUALS ∉ l).

(** The fault of a scanned line, if it has one. *)
Definition lineFault (line : gostring) : option fault :=
  let l := go_strings.TrimSpace line in
  if emptyHeader l then Some EmptySection
  else if emptyKey l then Some EmptyKey
  else if noDelimiter l then Some NoDelimiter
  else None.

(** The error of the first line with a fault, [n] being the number of the
    first line of [lines]. *)
Fixpoint firstFault (n : Z) (lines : list gostring) : option error :=
  match lines with
  | [] => None
  | l :: rest =>
    match lineFault l with
    | Some f => Some (faultError f n)
    | None => firstFault (n + 1) rest
    end
  end.

(** Lines written one after the other, each closed by a line feed. *)
Definition joinLines (ls : list gostring) : gostring :=
  flat_map (fun l => l ++ [LF]) ls.

(** *** The lines WriteTo writes *)

(** The value as [writeSection] writes it, after the ['=']. *)
Definition writtenValue (v : gostring) : gostring :=
  if go_strings.ContainsAny v quoteChars
  then [DQUOTE] ++ flat_map escapeRune (go_utf8.range v) ++ [DQUOTE]
  else v.

Definition entryLine (kv : gostring * gostring) : gostring :=
  kv.1 ++ EQUALS :: writtenValue kv.2.

Definition headerLine (n : gostring) : gostring := LBRACKET :: n ++ [RBRACKET].

Definition rootLines (i : Ini) (rootOrder : list (gostring * gostring)) : list gostring :=
  match i !! root with
  | Some s => if (0 <? size s)%nat then map entryLine rootOrder ++ [[]] else []
  | None => []
  end.

Definition otherLines (v : gostring * Section_ * list (gostring * gostring)) : list gostring :=
  let '(n, s, kvs) := v in
  if bool_decide (n = root) || (size s =? 0)%nat then []
  else headerLine n :: map entryLine kvs ++ [[]].

Definition emitted (i : Ini) (rootOrder : list (gostring * gostring))
    (visits : list (gostring * Section_ * list (gostring * gostring))) : list gostring :=
  rootLines i rootOrder ++ flat_map otherLines visits.

(** *** The documents that round-trip *)

(** A name that is not empty, holds no line feed, and is left as it is by
    [TrimSpace] and by [ToLower]. *)
Definition nameOK (n : gostring) : Prop :=
  n ≠ [] ∧ (LF ∉ n) ∧ go_strings.TrimSpace n = n ∧ ToLower n = n.

(** A key: a name without ['='] that does not start with [';'] or ['#']. *)
Definition keyOK (k : gostring) : Prop :=
  nameOK k ∧ (EQUALS ∉ k) ∧ byte_at k 0 ≠ SEMI ∧ byte_at k 0 ≠ HASH.

(** A value that is written in quotes and is valid UTF-8, or is written
    bare and neither starts nor ends with white space. *)
Definition valueOK (v : gostring) : Prop :=
  if go_strings.ContainsAny v quoteChars
  then go_utf8.lossless v = true
  else go_strings.TrimSpace v = v.

(** What the round trip asks of a document: a key in every section; names,
    keys and values as above; written lines shorter than the scanner's
    buffer. *)
Definition roundTrips (i : Ini) : Prop :=
  nonempty_sections i
  ∧ ∀ n m, i !! n = Some m →
      nameOK n
      ∧ len (headerLine n) < maxTokenSize
      ∧ ∀ k v, m !! k = Some v →
          keyOK k ∧ valueOK v ∧ len (entryLine (k, v)) < maxTokenSize.

(** A section's entry stored: [i[n][k] = v], the section made if absent. *)
Definition put (d : Ini) (n k v : gostring) : Ini :=
  <[n := <[k := v]> (default ∅ (d !! n))]> d.

(** The entries [kvs] stored one after the other in section [n]. *)
Definition putAll (d : Ini) (n : gostring) (kvs : list (gostring * gostring)) : Ini :=
  fold_left (fun d kv => put d n kv.1 kv.2) kvs d.

(** What reading the lines of one visit of [WriteTo] does to a document. *)
Definition mergeVisit (d : Ini)
    (v : gostring * Section_ * list (gostring * gostring)) : Ini :=
  let '(n, s, kvs) := v in
  if bool_decide (n = root) || (size s =? 0)%nat then d else putAll d n kvs.

(** [sectionMap] is nil or aliases the current section's map. *)
Definition aligned (st : parser) : Prop :=
  sectionMap st = None
  ∨ (sectionMap st = Some (section st) ∧ is_Some (doc st !! section st)).

(** A line the scanner hands over as it was written. *)
Definition plainLine (l : gostring) : Prop :=
  (LF ∉ l) ∧ go_bufio.dropCR l = l ∧ len l < maxTokenSize.

(* ================================================================= *)
(** *** Inputs and lines *)

(** Lines written one after the other, each closed by a carriage return
    and a line feed. *)
Definition joinCRLF (ls : list gostring) : gostring :=
  flat_map (fun l => l ++ [CR; LF]) ls.

(** Lines 47-56: the scanned line is blank or a comment, and the loop
    goes on to the next. *)
Definition skipped (line : gostring) : bool :=
  (len (go_strings.TrimSpace line) =? 0) || isComment (go_strings.TrimSpace line).

(** An ASCII white space character: tab, line feed, vertical tab, form
    feed, carriage return or space. *)
Definition asciiSpace (c : ascii) : bool :=
  (byte_val c <? 0x80) && go_unicode.IsSpace (byte_val c).

(** The line [l'] is the line [l] between ASCII white space. *)
Definition padded (l l' : gostring) : Prop :=
  ∃ a b, forallb asciiSpace a = true ∧ forallb asciiSpace b = true
         ∧ l' = a ++ l ++ b.

(** The variables of the loop but its counters. *)
Definition loopState (st : parser) : Ini * gostring * option gostring :=
  (doc st, section st, sectionMap st).

(** The error without its line number. *)
Definition errorKind (e : error) : error :=
  match e with
  | EmptySectionName _ => EmptySectionName 0
  | MissingDelimiter _ => MissingDelimiter 0
  | EmptyKeyName _ => EmptyKeyName 0
  | ScannerError e => ScannerError e
  end.

(** The name is the lower-cased form of some string. *)
Definition lowered (n : gostring) : Prop := ∃ s, n = ToLower s.

(** The document [j] merged into [i]: the sections of both, each with the
    keys of both, and the value of [j] where both have the key. *)
Definition merge (j i : Ini) : Ini :=
  union_with (fun mj mi => Some (mj ∪ mi)) j i.

(** No section name and no key of the document is empty. *)
Definition namedEntries (i : Ini) : Prop :=
  ∀ n m, i !! n = Some m → n ≠ [] ∧ ∀ k v, m !! k = Some v → k ≠ [].

(** Every section name and every key of the document is lower-cased. *)
Definition loweredNames (i : Ini) : Prop :=
  ∀ n m, i !! n = Some m → lowered n ∧ ∀ k v, m !! k = Some v → lowered k.

(** *** Documents for the examples *)

(** A section with a quoted value under the root entries. *)
Definition sampleDocument : Ini :=
  <[root := {[go "x" := go "1"]}]>
    {[go "sec" := {[go "k" := go "a = " ++ [DQUOTE; BACKSLASH; LF; TAB]]}]}.

(** A value that is one vertical tab. *)
Definition vtDocument : Ini := {[root := {[go "k" := [VT]]}]}.

(** A value with a byte that is not UTF-8, and a space. *)
Definition rawDocument : Ini := {[root := {[go "k" := [byte_of 0xFF; SP]]}]}.

(** A value as long as the scanner's buffer. *)
Definition longDocument : Ini :=
  {[root := {[go "k" := repeat "a"%char (Z.to_nat maxTokenSize)]}]}.

(** An empty key, in a section whose name holds a line feed. *)
Definition newlineSectionDocument : Ini :=
  {[go "a" ++ [LF] ++ go "b" := {[[] := go "v"]}]}.

(** An empty key, with a value as long as the scanner's buffer. *)
Definition longEmptyKeyDocument : Ini :=
  {[root := {[[] := repeat "a"%char (Z.to_nat maxTokenSize)]}]}.

(** Two sections, which [WriteTo] can write in two orders. *)
Definition twoSections : Ini :=
  <[go "a" := {[go "k" := go "1"]}]> {[go "b" := {[go "k" := go "2"]}]}.

(** An input of four lines: a comment, an entry, a header, an entry. *)
Definition sampleLines : list gostring :=
  [go "; c"; go "a=1"; go "[Sec]"; go "k = v w"].

(** * Proofs *)

Import go_utf8.

(** ** Bytes and UTF-8 *)

(** Tests in hypotheses turned into propositions. *)
Ltac unbool :=
  repeat match goal with
  | H : (_ <? _)%nat = true |- _ => apply Nat.ltb_lt in H
  | H : (_ <? _)%nat = false |- _ => apply Nat.ltb_ge in H
  | H : (_ <=? _)%nat = true |- _ => apply Nat.leb_le in H
  | H : (_ <=? _)%nat = false |- _ => apply Nat.leb_gt in H
  | H : (_ <? _)%Z = true |- _ => apply Z.ltb_lt in H
  | H : (_ <? _)%Z = false |- _ => apply Z.ltb_ge in H
  | H : (_ <=? _)%Z = true |- _ => apply Z.leb_le in H
  | H : (_ <=? _)%Z = false |- _ => apply Z.leb_gt in H
  | H : (_ =? _)%nat = true |- _ => apply Nat.eqb_eq in H
  | H : (_ =? _)%nat = false |- _ => apply Nat.eqb_neq in H
  | H : (_ =? _)%Z = true |- _ => apply Z.eqb_eq in H
  | H : (_ =? _)%Z = false |- _ => apply Z.eqb_neq in H
  | H : _ || _ = false |- _ => apply orb_false_iff in H as [? ?]
  | H : _ && _ = true |- _ => apply andb_true_iff in H as [? ?]
  | H : negb _ = true |- _ => apply negb_true_iff in H
  | H : negb _ = false |- _ => apply negb_false_iff in H
  end.

(** Case analysis on every test of the goal. *)
Ltac cases :=
  repeat match goal with
         | |- context [if ?c then _ else _] => destruct c eqn:?
         end.

Lemma byte_val_range (c : ascii) : 0 <= byte_val c < 256.
Proof.
  unfold byte_val. pose proof (N_ascii_bounded c). lia.
Qed.

Lemma byte_val_of (z : Z) : 0 <= z < 256 -> byte_val (byte_of z) = z.
Proof.
  intros H. unfold byte_val, byte_of. rewrite Z.mod_small by lia.
  rewrite N_ascii_embedding by lia. lia.
Qed.

Lemma byte_of_val (c : ascii) : byte_of (byte_val c) = c.
Proof.
  unfold byte_of, byte_val. pose proof (N_ascii_bounded c).
  rewrite Z.mod_small by lia. rewrite N2Z.id. apply ascii_N_embedding.
Qed.

Lemma byte_val_inj (c d : ascii) : byte_val c = byte_val d -> c = d.
Proof. intros H. rewrite <- (byte_of_val c), <- (byte_of_val d). by rewrite H. Qed.

Lemma first_lead (b : Z) (sz : nat) (lo hi : Z) :
  first b = lead sz lo hi ->
  (sz = 2 \/ sz = 3 \/ sz = 4)%nat /\ 0x80 <= lo /\ hi <= 0xBF /\ 0xC2 <= b <= 0xF4.
Proof.
  unfold first, locb, hicb.
  repeat match goal with
         | |- context [if ?c then _ else _] => destruct c eqn:?
         end; intros [= <- <- <-] || intros [=]; lia.
Qed.

Lemma first_as (b : Z) : first b = as_ <-> b < 0x80.
Proof.
  unfold first.
  repeat match goal with
         | |- context [if ?c then _ else _] => destruct c eqn:?
         end; split; (done || lia).
Qed.

Lemma decode_ascii (c : ascii) (t : gostring) :
  byte_val c < 0x80 -> DecodeRuneInString (c :: t) = (byte_val c, 1%nat).
Proof.
  intros H. unfold DecodeRuneInString. apply first_as in H. by rewrite H.
Qed.

Lemma decode_size (s : gostring) (r : Z) (n : nat) :
  DecodeRuneInString s = (r, n) ->
  (s = [] /\ n = 0%nat) \/ (s <> [] /\ (1 <= n <= 4)%nat /\ (n <= length s)%nat).
Proof.
  destruct s as [|c0 t]; [intros [= <- <-]; by left|].
  intros H. right. split; [done|]. revert H. unfold DecodeRuneInString.
  destruct (first (byte_val c0)) as [| |sz lo hi] eqn:F;
    try (intros [= <- <-]; simpl; lia).
  apply first_lead in F as (Hsz & _).
  repeat match goal with
         | |- context [if ?c then _ else _] => destruct c eqn:?
         end; intros [= <- <-]; simpl in *; unbool; lia.
Qed.

Lemma runeStart_spec (c : ascii) :
  RuneStart c = negb ((0x80 <=? byte_val c) && (byte_val c <? 0xC0)).
Proof.
  destruct c as [[] [] [] [] [] [] [] []]; vm_compute; reflexivity.
Qed.


Lemma decode_nonstart (c : ascii) (t : gostring) :
  RuneStart c = false -> DecodeRuneInString (c :: t) = (RuneError, 1%nat).
Proof.
  rewrite runeStart_spec. intros H. unbool.
  unfold DecodeRuneInString, first. cases; unbool; try lia; reflexivity.
Qed.

Lemma runeStart_ascii (c : ascii) : byte_val c < 0x80 -> RuneStart c = true.
Proof. rewrite runeStart_spec. intros H. cases; unbool; try lia; reflexivity. Qed.

(** A byte that is not ASCII, alone, is an invalid sequence. *)
Lemma decode_single (c : ascii) :
  0x80 <= byte_val c -> DecodeRuneInString [c] = (RuneError, 1%nat).
Proof.
  intros H. unfold DecodeRuneInString.
  destruct (first (byte_val c)) as [| |sz lo hi] eqn:F.
  - apply first_as in F. lia.
  - reflexivity.
  - apply first_lead in F as (Hsz & _). simpl.
    destruct Hsz as [->|[->| ->]]; reflexivity.
Qed.

(** The first rune of a string is not affected by what follows an ASCII
    byte. *)
Lemma decode_app_ascii (k w : gostring) (c : ascii) :
  k <> [] -> byte_val c < 0x80 ->
  DecodeRuneInString (k ++ c :: w) = DecodeRuneInString k.
Proof.
  intros Hk Hc. destruct k as [|c0 k]; [done|]. clear Hk.
  unfold DecodeRuneInString. simpl app. cbv beta iota zeta.
  destruct (first (byte_val c0)) as [| |sz lo hi] eqn:F; try reflexivity.
  apply first_lead in F as (Hsz & Hlo & Hhi & _).
  unfold locb, hicb, byte_at.
  destruct k as [|c1 [|c2 [|c3 k]]]; simpl;
    destruct Hsz as [->|[->| ->]]; simpl; cases; unbool; try reflexivity; try lia.
Qed.

(** A rune decoded without error is decoded from the bytes of its own
    sequence alone. *)
Lemma decode_app (s more : gostring) (r : Z) (n : nat) :
  DecodeRuneInString s = (r, n) -> r <> RuneError ->
  DecodeRuneInString (s ++ more) = (r, n).
Proof.
  destruct s as [|c0 s]; [intros [= <- <-]; done|].
  unfold DecodeRuneInString. simpl app. cbv beta iota zeta.
  destruct (first (byte_val c0)) as [| |sz lo hi] eqn:F; [tauto|tauto|].
  apply first_lead in F as (Hsz & Hlo & Hhi & _).
  unfold locb, hicb, byte_at.
  destruct s as [|c1 [|c2 [|c3 s]]]; simpl;
    destruct Hsz as [->|[->| ->]]; simpl; cases; unbool;
    try tauto; try lia; intros [= <- <-]; done.
Qed.

(** *** The last rune *)

Lemma byte_at_app_r (p v : gostring) (j : nat) :
  byte_at (p ++ v) (length p + j) = byte_at v j.
Proof. unfold byte_at. apply app_nth2_plus. Qed.

Lemma byte_at_last (u : gostring) (b : ascii) :
  byte_at (u ++ [b]) (length u) = b.
Proof.
  rewrite <- (Nat.add_0_r (length u)). rewrite byte_at_app_r. reflexivity.
Qed.

Lemma byte_at_mid (p v : gostring) (c : ascii) :
  byte_at (p ++ c :: v) (length p) = c.
Proof.
  rewrite <- (Nat.add_0_r (length p)). rewrite byte_at_app_r. reflexivity.
Qed.

Lemma byte_at_shift (p v : gostring) (c : ascii) (j : Z) :
  0 <= j ->
  byte_at (p ++ c :: v) (Z.to_nat (len p + 1 + j)) = byte_at v (Z.to_nat j).
Proof.
  intros Hj. unfold len.
  replace (Z.to_nat (Z.of_nat (length p) + 1 + j))
    with (length (p ++ [c]) + Z.to_nat j)%nat by (rewrite length_app; simpl; lia).
  change (p ++ c :: v) with (p ++ [c] ++ v). rewrite app_assoc. apply byte_at_app_r.
Qed.

Lemma lastStart_le (fuel : nat) (s : gostring) (lim start : Z) :
  lastStart fuel s lim start <= start.
Proof.
  revert start. induction fuel as [|fuel IH]; intros start; simpl; [lia|].
  cases; try lia. specialize (IH (start - 1)). lia.
Qed.

Lemma lastStart_ge (fuel : nat) (s : gostring) (lim start : Z) :
  lim - 1 <= start -> lim - 1 <= lastStart fuel s lim start.
Proof.
  revert start. induction fuel as [|fuel IH]; intros start H; simpl; [lia|].
  cases; unbool; try lia. apply IH. lia.
Qed.

Lemma lastStart_neg (fuel : nat) (s : gostring) (lim start : Z) :
  lastStart fuel s lim start = -1 -> 0 <= start ->
  RuneStart (byte_at s 0) = false.
Proof.
  revert start. induction fuel as [|fuel IH]; intros start; simpl; [lia|].
  cases; unbool; try lia. intros H Hs.
  destruct (decide (start = 0)) as [->|Hne]; [done|].
  apply (IH (start - 1)); [done|lia].
Qed.

Lemma lastStart_shift (fuel : nat) (p v : gostring) (c : ascii) (j : Z) :
  RuneStart c = true -> -1 <= j ->
  lastStart fuel (p ++ c :: v) (Z.max 0 (len p + 1 + len v - UTFMax)) (len p + 1 + j)
  = len p + 1 + lastStart fuel v (Z.max 0 (len v - UTFMax)) j.
Proof.
  intros Hc. revert j. unfold UTFMax.
  induction fuel as [|fuel IH]; intros j Hj; simpl; [reflexivity|].
  destruct (decide (j = -1)) as [->|Hne].
  - replace (Z.to_nat (len p + 1 + -1)) with (length p) by (unfold len; lia).
    rewrite byte_at_mid, Hc.
    cases; unbool; unfold len in *; lia.
  - rewrite byte_at_shift by lia.
    replace (len p + 1 + j - 1) with (len p + 1 + (j - 1)) by lia.
    rewrite IH by lia.
    cases; unbool; unfold len in *; lia.
Qed.

(** The last rune of a string is not affected by what precedes an ASCII
    byte. *)
Lemma decodeLast_app_ascii (p v : gostring) (c : ascii) :
  v <> [] -> byte_val c < 0x80 ->
  DecodeLastRuneInString (p ++ c :: v) = DecodeLastRuneInString v.
Proof.
  intros Hv Hc.
  destruct (exists_last Hv) as (u & b & ->).
  unfold DecodeLastRuneInString.
  assert (Hlen : Z.of_nat (length (p ++ c :: u ++ [b]))
                 = len p + 1 + Z.of_nat (length (u ++ [b]))).
  { unfold len. rewrite length_app. simpl. lia. }
  rewrite Hlen.
  assert (Hlast : byte_at (p ++ c :: u ++ [b])
                    (Z.to_nat (len p + 1 + Z.of_nat (length (u ++ [b])) - 1)) = b).
  { replace (Z.to_nat (len p + 1 + Z.of_nat (length (u ++ [b])) - 1))
      with (length ((p ++ [c]) ++ u)) by (unfold len; rewrite !length_app; simpl; lia).
    change (p ++ c :: u ++ [b]) with (p ++ [c] ++ u ++ [b]).
    rewrite !app_assoc. apply byte_at_last. }
  rewrite Hlast.
  assert (Hlast' : byte_at (u ++ [b]) (Z.to_nat (Z.of_nat (length (u ++ [b])) - 1)) = b).
  { replace (Z.to_nat (Z.of_nat (length (u ++ [b])) - 1)) with (length u)
      by (rewrite length_app; simpl; lia).
    apply byte_at_last. }
  rewrite Hlast'.
  assert (Hn : 1 <= Z.of_nat (length (u ++ [b]))) by (rewrite length_app; simpl; lia).
  destruct (len p + 1 + Z.of_nat (length (u ++ [b])) =? 0) eqn:E1; [unfold len in *; unbool; lia|].
  destruct (Z.of_nat (length (u ++ [b])) =? 0) eqn:E2; [unbool; lia|].
  destruct (byte_val b <? RuneSelf) eqn:Hb; [reflexivity|].
  replace (len p + 1 + Z.of_nat (length (u ++ [b])) - 1 - 1)
    with (len p + 1 + (Z.of_nat (length (u ++ [b])) - 1 - 1)) by lia.
  fold (len (u ++ [b])) in *.
  rewrite lastStart_shift by (first [by apply runeStart_ascii | lia]).
  set (sv := lastStart 4 (u ++ [b]) (Z.max 0 (len (u ++ [b]) - UTFMax)) (len (u ++ [b]) - 1 - 1)).
  assert (Hsv1 : -1 <= sv).
  { pose proof (lastStart_ge 4 (u ++ [b]) (Z.max 0 (len (u ++ [b]) - UTFMax)) (len (u ++ [b]) - 1 - 1)).
    fold sv in H. unfold UTFMax in *. lia. }
  assert (Hsv2 : sv <= len (u ++ [b]) - 2).
  { pose proof (lastStart_le 4 (u ++ [b]) (Z.max 0 (len (u ++ [b]) - UTFMax)) (len (u ++ [b]) - 1 - 1)).
    fold sv in H. lia. }
  rewrite (Z.max_r 0 (len p + 1 + sv)) by (unfold len; lia).
  destruct (decide (sv = -1)) as [Hneg|Hpos].
  - (* no rune start found in [v] *)
    rewrite Hneg.
    replace (Z.to_nat (len p + 1 + -1)) with (length p) by (unfold len; lia).
    rewrite drop_app_length. rewrite decode_ascii by done.
    change (Z.max 0 (-1)) with 0. change (Z.to_nat 0) with 0%nat. rewrite drop_0.
    destruct (len p + 1 + -1 + Z.of_nat 1 =? len p + 1 + len (u ++ [b])) eqn:E3;
      [unbool; lia|]. simpl negb. cbv iota.
    destruct u as [|b0 u].
    + simpl app. rewrite decode_single by (unfold RuneSelf in *; unbool; lia).
      reflexivity.
    + simpl app. rewrite decode_nonstart.
      * destruct (negb _); reflexivity.
      * change b0 with (byte_at ((b0 :: u) ++ [b]) 0).
        apply (lastStart_neg _ _ _ _ Hneg). unfold len in *.
        rewrite length_app in *. simpl in *. lia.
  - rewrite (Z.max_r 0 sv) by lia.
    replace (Z.to_nat (len p + 1 + sv)) with (length (p ++ [c]) + Z.to_nat sv)%nat
      by (unfold len; rewrite length_app; simpl; lia).
    change (p ++ c :: u ++ [b]) with (p ++ [c] ++ (u ++ [b])).
    rewrite app_assoc, drop_app_add.
    destruct (DecodeRuneInString (drop (Z.to_nat sv) (u ++ [b]))) as [r size].
    replace (len p + 1 + sv + Z.of_nat size =? len p + 1 + len (u ++ [b]))
      with (sv + Z.of_nat size =? len (u ++ [b])); [reflexivity|].
    cases; unbool; lia.
Qed.

Lemma decodeLast_last_ascii (u : gostring) (b : ascii) :
  byte_val b < 0x80 -> DecodeLastRuneInString (u ++ [b]) = (byte_val b, 1%nat).
Proof.
  intros Hb. unfold DecodeLastRuneInString.
  replace (Z.to_nat (Z.of_nat (length (u ++ [b])) - 1)) with (length u)
    by (rewrite length_app; simpl; lia).
  rewrite byte_at_last.
  destruct (Z.of_nat (length (u ++ [b])) =? 0) eqn:E;
    [rewrite length_app in E; simpl in E; unbool; lia|].
  unfold RuneSelf. destruct (byte_val b <? 128) eqn:E2; [reflexivity|unbool; lia].
Qed.

Lemma decodeLast_size (s : gostring) (r : Z) (n : nat) :
  s <> [] -> DecodeLastRuneInString s = (r, n) -> (1 <= n <= length s)%nat.
Proof.
  intros Hs. assert (1 <= length s)%nat by (destruct s; simpl; [done|lia]).
  unfold DecodeLastRuneInString.
  destruct (Z.of_nat (length s) =? 0) eqn:E; [unbool; lia|].
  destruct (_ <? RuneSelf); [intros [= <- <-]; lia|].
  set (st := Z.max 0 _).
  destruct (DecodeRuneInString (drop (Z.to_nat st) s)) as [r' size] eqn:D.
  destruct (st + Z.of_nat size =? Z.of_nat (length s)) eqn:E2; simpl;
    intros [= <- <-]; [|lia].
  unbool. apply decode_size in D as [[Hd ->]|(_ & Hsz & _)]; [|subst st; lia].
  exfalso. subst st.
  pose proof (lastStart_le 4 s (Z.max 0 (Z.of_nat (length s) - UTFMax))
                (Z.of_nat (length s) - 1 - 1)). lia.
Qed.

Lemma decodeLast_decode (s : gostring) (r : Z) (n : nat) :
  DecodeLastRuneInString s = (r, n) -> r <> RuneError ->
  DecodeRuneInString (drop (length s - n) s) = (r, n).
Proof.
  unfold DecodeLastRuneInString.
  destruct (Z.of_nat (length s) =? 0) eqn:E; [intros [= <- <-]; done|].
  destruct (_ <? RuneSelf) eqn:Hb.
  - intros [= <- <-] _. unbool.
    assert (Hs : s <> []) by (intros ->; simpl in *; lia).
    destruct (exists_last Hs) as (u & b & ->).
    replace (Z.to_nat (Z.of_nat (length (u ++ [b])) - 1)) with (length u) in *
      by (rewrite length_app; simpl; lia).
    rewrite byte_at_last in *.
    replace (length (u ++ [b]) - 1)%nat with (length u) by (rewrite length_app; simpl; lia).
    rewrite drop_app_length. apply decode_ascii. done.
  - set (st := Z.max 0 _).
    destruct (DecodeRuneInString (drop (Z.to_nat st) s)) as [r' size] eqn:D.
    destruct (st + Z.of_nat size =? Z.of_nat (length s)) eqn:E2; simpl;
      intros [= <- <-]; [|done]. intros _. unbool.
    replace (length s - size)%nat with (Z.to_nat st) by (subst st; lia). done.
Qed.

(** ** strings: trimming *)

Lemma TrimLeft_from_length (f : Z -> bool) (s : gostring) (skip : nat) :
  (length (go_strings.TrimLeft_from f skip s) <= length s)%nat.
Proof.
  revert skip. induction s as [|c s IH]; intros skip; simpl; [lia|].
  destruct skip as [|k].
  - destruct (DecodeRuneInString (c :: s)) as [r size].
    destruct (f r); simpl; [|lia]. etransitivity; [apply IH|lia].
  - etransitivity; [apply IH|lia].
Qed.

Lemma TrimLeft_keep (f : Z -> bool) (s : gostring) :
  f (DecodeRuneInString s).1 = false -> go_strings.TrimLeftFunc s f = s.
Proof.
  unfold go_strings.TrimLeftFunc. destruct s as [|c s]; [reflexivity|]. simpl go_strings.TrimLeft_from.
  destruct (DecodeRuneInString (c :: s)) as [r size]. simpl. by intros ->.
Qed.

Lemma TrimLeft_shrink (f : Z -> bool) (s : gostring) :
  s <> [] -> f (DecodeRuneInString s).1 = true ->
  (length (go_strings.TrimLeftFunc s f) < length s)%nat.
Proof.
  unfold go_strings.TrimLeftFunc. destruct s as [|c s]; [done|]. intros _. simpl go_strings.TrimLeft_from.
  destruct (DecodeRuneInString (c :: s)) as [r size]. simpl. intros ->.
  eapply Nat.le_lt_trans; [apply TrimLeft_from_length|lia].
Qed.

Lemma TrimLeft_from_first (f : Z -> bool) (s : gostring) (skip : nat) :
  go_strings.TrimLeft_from f skip s = []
  \/ f (DecodeRuneInString (go_strings.TrimLeft_from f skip s)).1 = false.
Proof.
  revert skip. induction s as [|c s IH]; intros skip; simpl; [by left|].
  destruct skip as [|k]; [|apply IH].
  destruct (DecodeRuneInString (c :: s)) as [r size] eqn:D.
  destruct (f r) eqn:Hf; [apply IH|]. right. by rewrite D.
Qed.

Lemma TrimRight_loop_take (f : Z -> bool) (fuel : nat) (s : gostring) :
  exists n, go_strings.TrimRight_loop f fuel s = take n s.
Proof.
  revert s. induction fuel as [|fuel IH]; intros s; simpl.
  - exists (length s). by rewrite firstn_all.
  - destruct (DecodeLastRuneInString s) as [r size].
    destruct size as [|size]; [exists (length s); by rewrite firstn_all|].
    destruct (f r); [|exists (length s); by rewrite firstn_all].
    destruct (IH (take (length s - S size) s)) as [n ->].
    exists (n `min` (length s - S size))%nat. apply take_take.
Qed.

Lemma TrimRight_loop_length (f : Z -> bool) (fuel : nat) (s : gostring) :
  (length (go_strings.TrimRight_loop f fuel s) <= length s)%nat.
Proof.
  destruct (TrimRight_loop_take f fuel s) as [n ->]. rewrite length_take. lia.
Qed.

Lemma TrimRight_keep (f : Z -> bool) (s : gostring) :
  f (DecodeLastRuneInString s).1 = false -> go_strings.TrimRightFunc s f = s.
Proof.
  unfold go_strings.TrimRightFunc. destruct (length s) as [|fuel]; [reflexivity|]. simpl.
  destruct (DecodeLastRuneInString s) as [r size]. simpl. intros ->.
  by destruct size.
Qed.

Lemma TrimRight_shrink (f : Z -> bool) (s : gostring) :
  s <> [] -> f (DecodeLastRuneInString s).1 = true ->
  (length (go_strings.TrimRightFunc s f) < length s)%nat.
Proof.
  intros Hs. unfold go_strings.TrimRightFunc. destruct (length s) as [|fuel] eqn:Hl.
  { destruct s; simpl in *; [done|lia]. }
  simpl. destruct (DecodeLastRuneInString s) as [r size] eqn:D. simpl. intros ->.
  pose proof (decodeLast_size _ _ _ Hs D) as Hsz.
  destruct size as [|size]; [lia|].
  pose proof (TrimRight_loop_length f fuel (take (length s - S size) s)) as H.
  rewrite length_take in H. lia.
Qed.

(** Trimming on the right empties the string only if the string starts
    with a rune to trim. *)
Lemma TrimRight_loop_nil (f : Z -> bool) (fuel : nat) (s : gostring) :
  f RuneError = false ->
  go_strings.TrimRight_loop f fuel s = [] ->
  s = [] \/ f (DecodeRuneInString s).1 = true.
Proof.
  intros Hf. revert s. induction fuel as [|fuel IH]; intros s; simpl; [by left|].
  destruct (DecodeLastRuneInString s) as [r size] eqn:D.
  destruct size as [|size]; [by left|].
  destruct (f r) eqn:Hr; [|by left].
  intros H. destruct (decide (s = [])) as [|Hs]; [by left|]. right.
  assert (Hne : r <> RuneError) by congruence.
  pose proof (decodeLast_size _ _ _ Hs D) as Hsz.
  pose proof (decodeLast_decode _ _ _ D Hne) as Hd.
  destruct (IH _ H) as [Hnil | Hsp].
  - apply (f_equal length) in Hnil. rewrite length_take in Hnil. simpl in Hnil.
    replace (length s - S size)%nat with 0%nat in Hd by lia.
    rewrite drop_0 in Hd. by rewrite Hd.
  - destruct (DecodeRuneInString (take (length s - S size) s)) as [r' n'] eqn:D'.
    simpl in Hsp. assert (r' <> RuneError) by congruence.
    pose proof (decode_app _ (drop (length s - S size) s) _ _ D' H0) as Hd'.
    rewrite take_drop in Hd'. by rewrite Hd'.
Qed.

(** *** go_strings.TrimSpace *)

Lemma IsSpace_RuneError : go_unicode.IsSpace RuneError = false.
Proof. reflexivity. Qed.

Lemma TrimSpace_fixed (s : gostring) :
  go_unicode.IsSpace (DecodeRuneInString s).1 = false ->
  go_unicode.IsSpace (DecodeLastRuneInString s).1 = false ->
  go_strings.TrimSpace s = s.
Proof.
  intros H1 H2. unfold go_strings.TrimSpace. rewrite TrimLeft_keep by done.
  by apply TrimRight_keep.
Qed.

Lemma TrimSpace_fixed_inv (s : gostring) :
  go_strings.TrimSpace s = s -> s <> [] ->
  go_unicode.IsSpace (DecodeRuneInString s).1 = false
  /\ go_unicode.IsSpace (DecodeLastRuneInString s).1 = false.
Proof.
  intros H Hs. unfold go_strings.TrimSpace in H.
  assert (go_unicode.IsSpace (DecodeRuneInString s).1 = false) as H1.
  { destruct (go_unicode.IsSpace (DecodeRuneInString s).1) eqn:E; [|done].
    pose proof (TrimLeft_shrink _ _ Hs E) as Hl.
    pose proof (TrimRight_loop_length go_unicode.IsSpace
                  (length (go_strings.TrimLeftFunc s go_unicode.IsSpace))
                  (go_strings.TrimLeftFunc s go_unicode.IsSpace)) as Hr.
    unfold go_strings.TrimRightFunc in H. rewrite H in Hr. lia. }
  split; [done|]. rewrite TrimLeft_keep in H by done.
  destruct (go_unicode.IsSpace (DecodeLastRuneInString s).1) eqn:E; [|done].
  pose proof (TrimRight_shrink _ _ Hs E) as Hl. rewrite H in Hl. lia.
Qed.

(** What [go_strings.TrimSpace] returns does not start with white space. *)
Lemma TrimSpace_first (s : gostring) :
  go_strings.TrimSpace s = [] \/ go_unicode.IsSpace (DecodeRuneInString (go_strings.TrimSpace s)).1 = false.
Proof.
  unfold go_strings.TrimSpace, go_strings.TrimRightFunc.
  set (s' := go_strings.TrimLeftFunc s go_unicode.IsSpace).
  destruct (TrimRight_loop_take go_unicode.IsSpace (length s') s') as [n Hn].
  rewrite Hn. destruct (decide (take n s' = [])) as [|Hne]; [by left|]. right.
  destruct (TrimLeft_from_first go_unicode.IsSpace s 0) as [H|H]; fold (go_strings.TrimLeftFunc s go_unicode.IsSpace) in H; fold s' in H.
  { rewrite H in Hne. by rewrite take_nil in Hne. }
  destruct (go_unicode.IsSpace (DecodeRuneInString (take n s')).1) eqn:E; [|done].
  destruct (DecodeRuneInString (take n s')) as [r k] eqn:D. simpl in E.
  assert (r <> RuneError) as Hr by (intros ->; by rewrite IsSpace_RuneError in E).
  pose proof (decode_app _ (drop n s') _ _ D Hr) as D'. rewrite take_drop in D'.
  rewrite D' in H. simpl in H. congruence.
Qed.

(** [go_strings.TrimSpace] returns the empty string only for the empty string and
    for strings that start with white space. *)
Lemma TrimSpace_nil (s : gostring) :
  go_strings.TrimSpace s = [] ->
  s = [] \/ go_unicode.IsSpace (DecodeRuneInString s).1 = true.
Proof.
  intros H. destruct (decide (s = [])) as [|Hs]; [by left|]. right.
  destruct (go_unicode.IsSpace (DecodeRuneInString s).1) eqn:E; [done|].
  unfold go_strings.TrimSpace in H. rewrite TrimLeft_keep in H by done.
  apply TrimRight_loop_nil in H; [|apply IsSpace_RuneError].
  destruct H as [?|H]; [done|congruence].
Qed.

(** A string that does not start with white space keeps its first byte. *)
Lemma TrimSpace_cons (c : ascii) (t : gostring) :
  go_unicode.IsSpace (DecodeRuneInString (c :: t)).1 = false ->
  exists n, go_strings.TrimSpace (c :: t) = c :: take n t.
Proof.
  intros H. pose proof (TrimSpace_nil (c :: t)) as Hnil.
  unfold go_strings.TrimSpace in *. rewrite TrimLeft_keep in * by done.
  unfold go_strings.TrimRightFunc in *.
  destruct (TrimRight_loop_take go_unicode.IsSpace (length (c :: t)) (c :: t)) as [n Hn].
  rewrite Hn in *. destruct n as [|n].
  - simpl in Hnil. destruct Hnil as [?|?]; [done|done|congruence].
  - exists n. reflexivity.
Qed.

Lemma TrimSpace_nil_eq : go_strings.TrimSpace [] = [].
Proof. reflexivity. Qed.


(** *** Encoding and decoding agree *)

Lemma lor_add (a b n : Z) :
  0 <= n -> 0 <= b < 2 ^ n -> a mod 2 ^ n = 0 -> Z.lor a b = a + b.
Proof.
  intros Hn Hb Ha. symmetry. apply Z.add_nocarry_lor.
  apply Z.bits_inj'. intros m Hm. rewrite Z.land_spec, Z.bits_0.
  destruct (Z.lt_ge_cases m n) as [Hlt|Hge].
  - rewrite <- (Z.mod_pow2_bits_low a n m) by lia. rewrite Ha, Z.bits_0. reflexivity.
  - rewrite <- (Z.mod_small b (2 ^ n)) by lia.
    rewrite Z.mod_pow2_bits_high by lia. apply andb_false_r.
Qed.

Lemma land_maskx (x : Z) : Z.land x maskx = x mod 64.
Proof. change maskx with (Z.ones 6). rewrite Z.land_ones by lia. reflexivity. Qed.
Lemma land_mask2 (x : Z) : Z.land x mask2 = x mod 32.
Proof. change mask2 with (Z.ones 5). rewrite Z.land_ones by lia. reflexivity. Qed.
Lemma land_mask3 (x : Z) : Z.land x mask3 = x mod 16.
Proof. change mask3 with (Z.ones 4). rewrite Z.land_ones by lia. reflexivity. Qed.
Lemma land_mask4 (x : Z) : Z.land x mask4 = x mod 8.
Proof. change mask4 with (Z.ones 3). rewrite Z.land_ones by lia. reflexivity. Qed.

(** The value of a two-byte sequence, in arithmetic. *)
Lemma value2 (s0 s1 : Z) :
  Z.lor (Z.shiftl (Z.land s0 mask2) 6) (Z.land s1 maskx)
  = (s0 mod 32) * 64 + s1 mod 64.
Proof.
  rewrite land_mask2, land_maskx, Z.shiftl_mul_pow2 by lia.
  apply (lor_add _ _ 6); [lia| |].
  - apply Z.mod_pos_bound. lia.
  - apply Z.mod_mul. lia.
Qed.

Lemma value3 (s0 s1 s2 : Z) :
  Z.lor (Z.lor (Z.shiftl (Z.land s0 mask3) 12) (Z.shiftl (Z.land s1 maskx) 6))
        (Z.land s2 maskx)
  = (s0 mod 16) * 4096 + (s1 mod 64) * 64 + s2 mod 64.
Proof.
  rewrite land_mask3, !land_maskx, !Z.shiftl_mul_pow2 by lia.
  pose proof (Z.mod_pos_bound s1 64 ltac:(lia)).
  pose proof (Z.mod_pos_bound s2 64 ltac:(lia)).
  rewrite (lor_add (s0 mod 16 * 2 ^ 12) (s1 mod 64 * 2 ^ 6) 12);
    [|lia|lia|apply Z.mod_mul; lia].
  apply (lor_add _ _ 6); [lia|lia|].
  change (2 ^ 12) with (64 * 2 ^ 6).
  rewrite Z.mul_assoc, <- Z.mul_add_distr_r. apply Z.mod_mul. lia.
Qed.

Lemma value4 (s0 s1 s2 s3 : Z) :
  Z.lor (Z.lor (Z.lor (Z.shiftl (Z.land s0 mask4) 18) (Z.shiftl (Z.land s1 maskx) 12))
               (Z.shiftl (Z.land s2 maskx) 6))
        (Z.land s3 maskx)
  = (s0 mod 8) * 262144 + (s1 mod 64) * 4096 + (s2 mod 64) * 64 + s3 mod 64.
Proof.
  rewrite land_mask4, !land_maskx, !Z.shiftl_mul_pow2 by lia.
  pose proof (Z.mod_pos_bound s1 64 ltac:(lia)).
  pose proof (Z.mod_pos_bound s2 64 ltac:(lia)).
  pose proof (Z.mod_pos_bound s3 64 ltac:(lia)).
  rewrite (lor_add (s0 mod 8 * 2 ^ 18) (s1 mod 64 * 2 ^ 12) 18);
    [|lia|lia|apply Z.mod_mul; lia].
  rewrite (lor_add (s0 mod 8 * 2 ^ 18 + s1 mod 64 * 2 ^ 12) (s2 mod 64 * 2 ^ 6) 12);
    [|lia|lia|].
  2:{ change (2 ^ 18) with (64 * 2 ^ 12).
      rewrite Z.mul_assoc, <- Z.mul_add_distr_r. apply Z.mod_mul. lia. }
  apply (lor_add _ _ 6); [lia|lia|].
  change (2 ^ 18) with (4096 * 2 ^ 6). change (2 ^ 12) with (64 * 2 ^ 6).
  rewrite !Z.mul_assoc, <- !Z.mul_add_distr_r. apply Z.mod_mul. lia.
Qed.

Lemma decode_valid (s : gostring) (r : Z) (n : nat) :
  DecodeRuneInString s = (r, n) -> validRune r.
Proof.
  unfold validRune, surrogateMin, surrogateMax, MaxRune.
  destruct s as [|c0 s]; [intros [= <- <-]; unfold RuneError; lia|].
  unfold DecodeRuneInString. cbv beta iota zeta.
  pose proof (byte_val_range c0) as H0.
  destruct (first (byte_val c0)) as [| |sz lo hi] eqn:F.
  - apply first_as in F. intros [= <- <-]. lia.
  - intros [= <- <-]. unfold RuneError. lia.
  - rewrite value2, value3, value4.
    revert F. unfold first, locb, hicb, RuneError.
    generalize (byte_val (byte_at (c0 :: s) 1)) (byte_val (byte_at (c0 :: s) 2))
               (byte_val (byte_at (c0 :: s) 3)) (byte_val c0) H0.
    clear. intros s1 s2 s3 s0 H0.
    cases; intros [= <- <- <-] || intros [=]; simpl; cases; intros [= <- <-]; unbool;
      try lia.
    all: Z.div_mod_to_equations; lia.
Qed.

Lemma decode_bytes2 (x0 x1 : Z) (rest : gostring) :
  0xC2 <= x0 <= 0xDF -> 0x80 <= x1 <= 0xBF ->
  DecodeRuneInString (byte_of x0 :: byte_of x1 :: rest)
  = ((x0 mod 32) * 64 + x1 mod 64, 2%nat).
Proof.
  intros H0 H1. unfold DecodeRuneInString, byte_at. cbv beta iota zeta. simpl nth.
  rewrite value2, !byte_val_of by lia.
  unfold first, locb, hicb. cases; unbool; simpl in *; cases; unbool; try lia; reflexivity.
Qed.

Lemma decode_bytes3 (x0 x1 x2 : Z) (rest : gostring) :
  0xE0 <= x0 <= 0xEF -> 0x80 <= x1 <= 0xBF -> 0x80 <= x2 <= 0xBF ->
  (x0 = 0xE0 -> 0xA0 <= x1) -> (x0 = 0xED -> x1 <= 0x9F) ->
  DecodeRuneInString (byte_of x0 :: byte_of x1 :: byte_of x2 :: rest)
  = ((x0 mod 16) * 4096 + (x1 mod 64) * 64 + x2 mod 64, 3%nat).
Proof.
  intros H0 H1 H2 Ha Hb. unfold DecodeRuneInString, byte_at. cbv beta iota zeta. simpl nth.
  rewrite value3, !byte_val_of by lia.
  unfold first, locb, hicb. cases; unbool; simpl in *; cases; unbool; try lia; reflexivity.
Qed.

Lemma decode_bytes4 (x0 x1 x2 x3 : Z) (rest : gostring) :
  0xF0 <= x0 <= 0xF4 -> 0x80 <= x1 <= 0xBF -> 0x80 <= x2 <= 0xBF -> 0x80 <= x3 <= 0xBF ->
  (x0 = 0xF0 -> 0x90 <= x1) -> (x0 = 0xF4 -> x1 <= 0x8F) ->
  DecodeRuneInString (byte_of x0 :: byte_of x1 :: byte_of x2 :: byte_of x3 :: rest)
  = ((x0 mod 8) * 262144 + (x1 mod 64) * 4096 + (x2 mod 64) * 64 + x3 mod 64, 4%nat).
Proof.
  intros H0 H1 H2 H3 Ha Hb. unfold DecodeRuneInString, byte_at. cbv beta iota zeta. simpl nth.
  rewrite value4, !byte_val_of by lia.
  unfold first, locb, hicb. cases; unbool; simpl in *; cases; unbool; try lia; reflexivity.
Qed.

Lemma lor_lead (t x n : Z) :
  0 <= n -> t mod 2 ^ n = 0 -> 0 <= x < 2 ^ n -> 2 ^ n <= 256 ->
  Z.lor t (u8 x) = t + x.
Proof.
  intros Hn Ht Hx H256. unfold u8. rewrite Z.mod_small by lia.
  by apply (lor_add _ _ n).
Qed.

Lemma lor_cont (x : Z) : Z.lor tx (Z.land (u8 x) maskx) = 128 + x mod 64.
Proof.
  rewrite land_maskx. unfold u8, tx.
  replace (x mod 256 mod 64) with (x mod 64) by (Z.div_mod_to_equations; lia).
  apply (lor_add _ _ 7); [lia| |reflexivity].
  pose proof (Z.mod_pos_bound x 64 ltac:(lia)). lia.
Qed.

(** The encoding of a valid rune, in arithmetic. *)
Lemma AppendRune_valid (r : Z) :
  validRune r ->
  AppendRune r =
    if r <=? 0x7F then [byte_of r]
    else if r <=? 0x7FF then [byte_of (192 + r / 64); byte_of (128 + r mod 64)]
    else if r <=? 0xFFFF then
      [byte_of (224 + r / 4096); byte_of (128 + (r / 64) mod 64); byte_of (128 + r mod 64)]
    else [byte_of (240 + r / 262144); byte_of (128 + (r / 4096) mod 64);
          byte_of (128 + (r / 64) mod 64); byte_of (128 + r mod 64)].
Proof.
  unfold validRune, surrogateMin, surrogateMax, MaxRune. intros Hr.
  unfold AppendRune, uint32, rune1Max, rune2Max, rune3Max, MaxRune, surrogateMin, surrogateMax.
  rewrite (Z.mod_small r) by lia.
  rewrite !lor_cont, !Z.shiftr_div_pow2 by lia.
  change (2 ^ 6) with 64. change (2 ^ 12) with 4096. change (2 ^ 18) with 262144.
  destruct (r <=? 127) eqn:E1; [reflexivity|].
  destruct (r <=? 2047) eqn:E2.
  { unbool. rewrite (lor_lead t2 _ 6); [reflexivity|lia|reflexivity| |lia].
    Z.div_mod_to_equations; lia. }
  destruct ((1114111 <? r) || (55296 <=? r) && (r <=? 57343)) eqn:E3.
  { exfalso. apply orb_true_iff in E3 as [E3|E3]; unbool; lia. }
  rewrite (Z.mod_small r) by lia.
  destruct (r <=? 65535) eqn:E4; unbool.
  - rewrite (lor_lead t3 _ 5); [reflexivity|lia|reflexivity| |lia].
    Z.div_mod_to_equations; lia.
  - rewrite (lor_lead t4 _ 4); [reflexivity|lia|reflexivity| |lia].
    Z.div_mod_to_equations; lia.
Qed.

(** Decoding what [AppendRune] wrote gives the rune back. *)
Lemma decode_append (r : Z) (rest : gostring) :
  validRune r ->
  DecodeRuneInString (AppendRune r ++ rest) = (r, length (AppendRune r)).
Proof.
  intros Hr. rewrite (AppendRune_valid r Hr).
  unfold validRune, surrogateMin, surrogateMax, MaxRune in Hr.
  destruct (r <=? 127) eqn:E1; unbool.
  { simpl. rewrite decode_ascii; rewrite byte_val_of by lia; [reflexivity|lia]. }
  destruct (r <=? 2047) eqn:E2; unbool.
  { simpl. rewrite decode_bytes2 by (Z.div_mod_to_equations; lia).
    f_equal. Z.div_mod_to_equations; lia. }
  destruct (r <=? 65535) eqn:E3; unbool.
  { simpl. rewrite decode_bytes3 by (Z.div_mod_to_equations; lia).
    f_equal. Z.div_mod_to_equations; lia. }
  simpl. rewrite decode_bytes4 by (Z.div_mod_to_equations; lia).
  f_equal. Z.div_mod_to_equations; lia.
Qed.

Lemma AppendRune_length (r : Z) : (1 <= length (AppendRune r) <= 4)%nat.
Proof. unfold AppendRune. cases; simpl; lia. Qed.

(** The bytes of a rune that is not ASCII are not ASCII. *)
Lemma AppendRune_high (r : Z) (c : ascii) :
  validRune r -> 0x80 <= r -> c ∈ AppendRune r -> 0x80 <= byte_val c.
Proof.
  intros Hr Hhi. rewrite (AppendRune_valid r Hr).
  unfold validRune, surrogateMin, surrogateMax, MaxRune in Hr.
  cases; unbool; try lia; rewrite ?elem_of_cons, elem_of_nil;
    intros H; repeat destruct H as [H|H]; try done; subst c;
    rewrite byte_val_of; Z.div_mod_to_equations; lia.
Qed.

(** *** Range loops *)

Lemma range_from_drop (s : gostring) (k : nat) :
  range_from k s = range (drop k s).
Proof.
  revert k. induction s as [|c s IH]; intros k.
  - by rewrite drop_nil.
  - destruct k as [|k]; [reflexivity|]. simpl. apply IH.
Qed.

Lemma range_step (s : gostring) (r : Z) (n : nat) :
  s <> [] -> DecodeRuneInString s = (r, n) -> range s = r :: range (drop n s).
Proof.
  intros Hs D. destruct s as [|c s]; [done|].
  unfold range. simpl. rewrite D.
  apply decode_size in D as [[? _]|(_ & Hn & _)]; [done|].
  rewrite !range_from_drop. rewrite drop_0.
  destruct n as [|n]; [lia|]. simpl. by rewrite Nat.sub_0_r.
Qed.

Lemma range_rune (r : Z) (rest : gostring) :
  validRune r -> range (AppendRune r ++ rest) = r :: range rest.
Proof.
  intros Hr. pose proof (AppendRune_length r) as Hl.
  erewrite range_step; [|destruct (AppendRune r); [simpl in Hl; lia|done]|by apply decode_append].
  by rewrite drop_app_length.
Qed.

Lemma range_ascii (c : ascii) (rest : gostring) :
  byte_val c < 0x80 -> range (c :: rest) = byte_val c :: range rest.
Proof.
  intros Hc. erewrite range_step; [|done|by apply decode_ascii]. reflexivity.
Qed.

Lemma range_valid (s : gostring) : Forall validRune (range s).
Proof.
  remember (length s) as n eqn:Hn. revert s Hn.
  induction n as [n IH] using lt_wf_ind. intros s ->.
  destruct s as [|c s]; [constructor|].
  destruct (DecodeRuneInString (c :: s)) as [r k] eqn:D.
  rewrite (range_step (c :: s) r k) by done. constructor.
  - by apply decode_valid in D.
  - apply decode_size in D as [[? _]|(_ & Hk & _)]; [done|].
    apply (IH (length (drop k (c :: s)))); [|reflexivity].
    rewrite length_drop. simpl. lia.
Qed.

Lemma range_nil (s : gostring) : range s = [] -> s = [].
Proof.
  destruct s as [|c s]; [done|].
  destruct (DecodeRuneInString (c :: s)) as [r k] eqn:D.
  by rewrite (range_step (c :: s) r k).
Qed.

Lemma WriteRunes_app (a b : list Z) :
  WriteRunes (a ++ b) = WriteRunes a ++ WriteRunes b.
Proof. unfold WriteRunes. apply flat_map_app. Qed.

(** A range loop over what [WriteRune] wrote yields the runes written. *)
Lemma range_WriteRunes (rs : list Z) (rest : gostring) :
  Forall validRune rs -> range (WriteRunes rs ++ rest) = rs ++ range rest.
Proof.
  induction 1 as [|r rs Hr _ IH]; [reflexivity|].
  unfold WriteRunes in *. simpl. rewrite <- app_assoc, range_rune by done.
  by rewrite IH.
Qed.

(** ** Get, Set, Unset *)

Lemma Set_lookup (i : Ini) (s k v : gostring) :
  Set_ i s k v !! ToLower s
  = Some (<[ToLower k := v]> (default ∅ (i !! ToLower s))).
Proof.
  unfold Set_. destruct (i !! ToLower s) as [m|] eqn:E.
  - rewrite lookup_alter_eq, E. reflexivity.
  - rewrite lookup_alter_eq, lookup_insert_eq. reflexivity.
Qed.

Lemma Set_lookup_ne (i : Ini) (s k v n : gostring) :
  n ≠ ToLower s → Set_ i s k v !! n = i !! n.
Proof.
  intros Hn. unfold Set_. destruct (i !! ToLower s) as [m|] eqn:E.
  - rewrite lookup_alter_ne by congruence. reflexivity.
  - rewrite lookup_alter_ne, lookup_insert_ne by congruence. reflexivity.
Qed.

(** C8. After [Set(s, k, v)], [Get] returns [(v, true)] for every spelling
    [s'], [k'] that lower-cases like [s], [k]; the entry is stored under the
    lower-cased names, and no other section name enters the document. *)
Theorem Get_after_Set (i : Ini) (s k v s' k' : gostring) :
  ToLower s' = ToLower s →
  ToLower k' = ToLower k →
  Get (Set_ i s k v) s' k' = (v, true)
  ∧ (∃ m, Set_ i s k v !! ToLower s = Some m ∧ m !! ToLower k = Some v
          ∧ dom m = {[ToLower k]} ∪ dom (default ∅ (i !! ToLower s)))
  ∧ dom (Set_ i s k v) = {[ToLower s]} ∪ dom i.
Proof.
  intros Hs Hk. split; [|split].
  - unfold Get. rewrite Hs, Hk, Set_lookup, lookup_insert_eq. reflexivity.
  - eexists. split; [apply Set_lookup|]. split.
    + apply lookup_insert_eq.
    + apply dom_insert_L.
  - apply set_eq. intros n. rewrite elem_of_union, elem_of_singleton, !elem_of_dom.
    destruct (decide (n = ToLower s)) as [->|Hn].
    + rewrite Set_lookup. split; eauto.
    + rewrite Set_lookup_ne by done. tauto.
Qed.

(** [Unset] leaves the document as it is when the lower-cased section is
    absent, and when it is present with at least one key, none of them the
    lower-cased key. *)
Lemma Unset_absent_nonempty (i : Ini) (s k : gostring) :
  (i !! ToLower s = None
   ∨ ∃ m, i !! ToLower s = Some m ∧ m !! ToLower k = None ∧ m ≠ ∅) →
  Unset i s k = i.
Proof.
  intros [H | (m & Hm & Hk & Hne)]; unfold Unset.
  - rewrite H. reflexivity.
  - rewrite Hm. rewrite (delete_id m) by done.
    destruct (size m) as [|sz] eqn:Hsz.
    + apply map_size_empty_iff in Hsz. done.
    + simpl. apply map_eq. intros n.
      destruct (decide (n = ToLower s)) as [->|Hn].
      * rewrite lookup_alter_eq, Hm. simpl. rewrite delete_id by done. reflexivity.
      * rewrite lookup_alter_ne by done. reflexivity.
Qed.

(** ** The invariant: no section without a key *)

Lemma Set_nonempty (i : Ini) (s k v : gostring) :
  nonempty_sections i → nonempty_sections (Set_ i s k v).
Proof.
  intros Hi n m Hm. destruct (decide (n = ToLower s)) as [->|Hn].
  - rewrite Set_lookup in Hm. injection Hm as <-. apply insert_non_empty.
  - rewrite Set_lookup_ne in Hm by done. eauto.
Qed.

Lemma Unset_nonempty (i : Ini) (s k : gostring) :
  nonempty_sections i → nonempty_sections (Unset i s k).
Proof.
  intros Hi n m. unfold Unset. destruct (i !! ToLower s) as [m0|] eqn:E; [|apply Hi].
  destruct (size (delete (ToLower k) m0)) as [|sz] eqn:Hsz; simpl.
  - destruct (decide (n = ToLower s)) as [->|Hn].
    + rewrite lookup_delete_eq. done.
    + rewrite lookup_delete_ne, lookup_alter_ne by done. apply Hi.
  - destruct (decide (n = ToLower s)) as [->|Hn].
    + rewrite lookup_alter_eq, E. simpl. intros [= <-] Hempty.
      rewrite Hempty, map_size_empty in Hsz. done.
    + rewrite lookup_alter_ne by done. apply Hi.
Qed.

Lemma alter_insert_nonempty (i : Ini) (n k v : gostring) :
  nonempty_sections i → nonempty_sections (alter (insert k v) n i).
Proof.
  intros Hi n' m. destruct (decide (n' = n)) as [->|Hn].
  - rewrite lookup_alter_eq. destruct (i !! n); simpl; [|done].
    intros [= <-]. apply insert_non_empty.
  - rewrite lookup_alter_ne by done. apply Hi.
Qed.

Lemma assign_nonempty (st : parser) (k v : gostring) :
  nonempty_sections (doc st) → nonempty_sections (doc (assign st k v)).
Proof.
  intros Hi. unfold assign.
  destruct (sectionMap st) as [sm|]; simpl.
  - by apply alter_insert_nonempty.
  - destruct (doc st !! section st) as [m|] eqn:E; simpl.
    + by apply alter_insert_nonempty.
    + intros n m. destruct (decide (n = section st)) as [->|Hn].
      * rewrite lookup_alter_eq, lookup_insert_eq. simpl.
        intros [= <-]. apply insert_non_empty.
      * rewrite lookup_alter_ne, lookup_insert_ne by done. apply Hi.
Qed.

(** A line changes the document only by assigning a key. *)
Lemma readLine_doc (st : parser) (line : gostring) :
  doc (readLine st line).1 = doc st
  ∨ ∃ st' k v, doc st' = doc st ∧ section st' = section st
               ∧ sectionMap st' = sectionMap st
               ∧ readLine st line = (assign st' k v, None).
Proof.
  unfold readLine.
  repeat match goal with
         | |- context [if ?b then _ else _] => destruct b; simpl; auto
         end.
  right. eexists (mkParser _ _ _ _ _), _, _. simpl. eauto.
Qed.

(** A line that returns an error leaves the document as it was. *)
Lemma readLine_error_doc (st st' : parser) (line : gostring) (e : error) :
  readLine st line = (st', Some e) → doc st' = doc st.
Proof.
  unfold readLine.
  repeat match goal with
         | |- context [if ?b then _ else _] => destruct b; simpl
         end; intros [= <- <-] || intros [= <-]; reflexivity.
Qed.

Lemma readLine_nonempty (st : parser) (line : gostring) :
  nonempty_sections (doc st) → nonempty_sections (doc (readLine st line).1).
Proof.
  intros Hi. destruct (readLine_doc st line) as [-> | (st' & k & v & Hd & _ & _ & ->)].
  - done.
  - simpl. apply assign_nonempty. by rewrite Hd.
Qed.

Lemma readLines_nonempty (lines : list gostring) (st : parser) :
  nonempty_sections (doc st) → nonempty_sections (doc (readLines st lines).1).
Proof.
  revert st. induction lines as [|line rest IH]; intros st Hi; simpl; [done|].
  pose proof (readLine_nonempty st line Hi) as H1.
  destruct (readLine st line) as [st' [e|]]; simpl in *; auto.
Qed.

Lemma ReadFrom_doc (i : Ini) (source : gostring) :
  (ReadFrom i source).1.1
  = doc (readLines (start i) (go_bufio.Scan maxTokenSize source).1).1.
Proof.
  unfold ReadFrom. destruct (go_bufio.Scan maxTokenSize source) as [lines se]. simpl.
  destruct (readLines (start i) lines) as [st [e|]]; simpl; [done|].
  destruct se; done.
Qed.

Lemma ReadFrom_nonempty (i : Ini) (source : gostring) :
  nonempty_sections i → nonempty_sections (ReadFrom i source).1.1.
Proof. intros Hi. rewrite ReadFrom_doc. by apply readLines_nonempty. Qed.

Lemma built_sections (i : Ini) : built i → nonempty_sections i.
Proof.
  induction 1.
  - intros n s. unfold New. rewrite lookup_empty. done.
  - by apply Set_nonempty.
  - by apply Unset_nonempty.
  - by apply ReadFrom_nonempty.
Qed.

(** C10. On every document built from [New] by [Set], [Unset] and
    [ReadFrom], [Unset] leaves the document as it is when the lower-cased
    section is absent, and when it is present and the lower-cased key is not
    in it: the document after the call is the document before it, with the
    same sections, the same keys and the same values. *)
Theorem Unset_absent (i : Ini) (s k : gostring) :
  built i →
  (i !! ToLower s = None
   ∨ ∃ m, i !! ToLower s = Some m ∧ m !! ToLower k = None) →
  Unset i s k = i
  ∧ (∀ s' k', Get (Unset i s k) s' k' = Get i s' k')
  ∧ (∀ s', HasSection (Unset i s k) s' = HasSection i s').
Proof.
  intros Hb H.
  assert (Heq : Unset i s k = i).
  { apply Unset_absent_nonempty. destruct H as [H|(m & Hm & Hk)]; [by left|].
    right. exists m. split; [done|]. split; [done|].
    by apply (built_sections i Hb (ToLower s)). }
  rewrite Heq. done.
Qed.

Lemma readLine_header (st : parser) (line : gostring) :
  isHeader (go_strings.TrimSpace line) = true →
  doc (readLine st line).1 = doc st.
Proof.
  intros Hh. unfold readLine. rewrite Hh.
  repeat match goal with
         | |- context [if ?b then _ else _] => destruct b; simpl; auto
         end.
Qed.

(** C4. Every document built from [New] by [Set], [Unset] and [ReadFrom]
    has a key in each of its sections.  [Unset] of the only key of a section
    removes the section, so that [HasSection] answers false; a header line
    leaves the document as it is, and the section appears with the first key
    assigned under it. *)
Theorem built_nonempty (i : Ini) :
  built i →
  nonempty_sections i
  ∧ (∀ s k v, i !! ToLower s = Some {[ToLower k := v]} →
              HasSection (Unset i s k) s = false)
  ∧ (∀ st line, isHeader (go_strings.TrimSpace line) = true →
                doc (readLine st line).1 = doc st)
  ∧ (∀ st k v, sectionMap st = None →
               doc (assign st k v) !! section st
               = Some (<[k := v]> (default ∅ (doc st !! section st))))
  ∧ HasSection (ReadFrom New (go "[name]")).1.1 (go "name") = false
  ∧ HasSection (ReadFrom New (go "[name]" ++ [LF] ++ go "k=v")).1.1 (go "name") = true.
Proof.
  intros Hb. split; [by apply built_sections|]. split; [|split; [|split; [|split]]].
  - intros s k v Hs. unfold HasSection, Unset. rewrite Hs.
    rewrite delete_singleton_eq, map_size_empty. simpl.
    rewrite lookup_delete_eq. apply bool_decide_eq_false. intros [? ?]. done.
  - apply readLine_header.
  - intros st k v Hsm. unfold assign. rewrite Hsm.
    destruct (doc st !! section st) as [m|] eqn:E; simpl.
    + rewrite lookup_alter_eq, E. reflexivity.
    + rewrite lookup_alter_eq, lookup_insert_eq. reflexivity.
  - vm_compute. reflexivity.
  - vm_compute. reflexivity.
Qed.

(** ** The scanner *)

Lemma splitLines_line (l rest : gostring) :
  LF ∉ l → go_bufio.splitLines (l ++ LF :: rest) = l :: go_bufio.splitLines rest.
Proof.
  induction l as [|c l IH]; intros Hl; simpl.
  - reflexivity.
  - apply not_elem_of_cons in Hl as [Hc Hl].
    destruct (Ascii.eqb_spec c LF) as [->|_]; [done|].
    rewrite IH by done. reflexivity.
Qed.

Lemma splitLines_join (ls : list gostring) (rest : gostring) :
  Forall (fun l => LF ∉ l) ls →
  go_bufio.splitLines (joinLines ls ++ rest) = ls ++ go_bufio.splitLines rest.
Proof.
  induction 1 as [|l ls Hl _ IH]; simpl; [reflexivity|].
  rewrite <- !app_assoc. simpl. rewrite splitLines_line by done.
  f_equal. apply IH.
Qed.

Lemma splitLines_cons (s l : gostring) (ls : list gostring) :
  go_bufio.splitLines s = l :: ls →
  (LF ∉ l)
  ∧ ((∃ rest, s = l ++ LF :: rest ∧ go_bufio.splitLines rest = ls)
     ∨ (s = l ∧ ls = [] ∧ l ≠ [])).
Proof.
  revert l ls. induction s as [|c s IH]; intros l ls; simpl; [done|].
  destruct (Ascii.eqb_spec c LF) as [->|Hc].
  - intros [= <- <-]. split; [apply not_elem_of_nil|]. left. by exists s.
  - destruct (go_bufio.splitLines s) as [|l' ls'] eqn:E.
    + intros [= <- <-]. split.
      * apply not_elem_of_cons. split; [done|apply not_elem_of_nil].
      * right. destruct s as [|c' s]; [done|]. simpl in E.
        destruct (Ascii.eqb c' LF); [done|].
        destruct (go_bufio.splitLines s); done.
    + intros [= <- <-]. destruct (IH _ _ eq_refl) as [Hl' H]. split.
      * apply not_elem_of_cons. done.
      * destruct H as [(rest & -> & Hr) | (-> & -> & Hne)].
        -- left. by exists rest.
        -- right. done.
Qed.

Lemma splitLines_noLF (s : gostring) :
  Forall (fun l => LF ∉ l) (go_bufio.splitLines s).
Proof.
  remember (go_bufio.splitLines s) as ls eqn:E. symmetry in E.
  revert s E. induction ls as [|l ls IH]; intros s E; constructor.
  - by apply splitLines_cons in E as [? _].
  - apply splitLines_cons in E as [_ [(rest & _ & Hr) | (_ & -> & _)]]; eauto.
Qed.

(** The input up to a given line is a prefix of the input. *)
Lemma splitLines_take (j : nat) (s : gostring) :
  (j < length (go_bufio.splitLines s))%nat →
  ∃ rest, s = joinLines (take j (go_bufio.splitLines s)) ++ rest.
Proof.
  revert s. induction j as [|j IH]; intros s Hj.
  - exists s. reflexivity.
  - destruct (go_bufio.splitLines s) as [|l ls] eqn:E; simpl in Hj; [lia|].
    apply splitLines_cons in E as [_ [(rest & -> & Hr) | (_ & -> & _)]];
      [|simpl in Hj; lia].
    subst ls. destruct (IH rest) as [rest' Hrest']; [lia|].
    exists rest'. change (take (S j) (l :: go_bufio.splitLines rest)) with (l :: take j (go_bufio.splitLines rest)).
    change (joinLines (l :: ?x)) with ((l ++ [LF]) ++ joinLines x).
    unfold joinLines at 1. simpl. rewrite <- !app_assoc. simpl. do 2 f_equal. exact Hrest'.
Qed.

Lemma deliver_length (m : Z) (raw ts : list gostring) (e : option go_bufio.scanError) :
  go_bufio.deliver m raw = (ts, e) →
  (length ts ≤ length raw)%nat ∧ (is_Some e → (length ts < length raw)%nat).
Proof.
  revert ts e. induction raw as [|l raw IH]; intros ts e; simpl.
  - intros [= <- <-]. split; [done|]. intros [? ?]. done.
  - destruct (Z.of_nat (length l) <? m).
    + destruct (go_bufio.deliver m raw) as [ts' e'].
      intros [= <- <-]. destruct (IH _ _ eq_refl) as [H1 H2]. simpl.
      split; [lia|]. intros He. specialize (H2 He). lia.
    + intros [= <- <-]. simpl. split; [lia|]. intros _. lia.
Qed.

Lemma deliver_take (m : Z) (raw ts : list gostring) (e : option go_bufio.scanError) (j : nat) :
  go_bufio.deliver m raw = (ts, e) →
  (j ≤ length ts)%nat →
  go_bufio.deliver m (take j raw) = (take j ts, None).
Proof.
  revert raw ts e. induction j as [|j IH]; intros raw ts e.
  - intros _ _. rewrite !take_0. reflexivity.
  - destruct raw as [|l raw]; simpl.
    + intros [= <- <-]. simpl. lia.
    + destruct (Z.of_nat (length l) <? m).
      * destruct (go_bufio.deliver m raw) as [ts' e'] eqn:E.
        intros [= <- <-] Hj. simpl in Hj.
        rewrite (IH _ _ _ E) by lia. reflexivity.
      * intros [= <- <-]. simpl. lia.
Qed.

(** ** The loop of ReadFrom *)

Lemma readLine_lineNum (st : parser) (line : gostring) :
  lineNum (readLine st line).1 = lineNum st + 1.
Proof.
  unfold readLine, assign.
  repeat match goal with
         | |- context [if ?b then _ else _] => destruct b; simpl; auto
         | |- context [match ?b with Some _ => _ | None => _ end] => destruct b; simpl; auto
         end.
Qed.

Lemma readLine_errorLine (st st' : parser) (line : gostring) (e : error) :
  readLine st line = (st', Some e) → errorLine e = Some (lineNum st + 1).
Proof.
  unfold readLine.
  repeat match goal with
         | |- context [if ?b then _ else _] => destruct b; simpl
         end; intros [= <- <-] || intros [= <-]; reflexivity.
Qed.

Lemma readLines_app (l1 l2 : list gostring) (st st1 : parser) :
  readLines st l1 = (st1, None) → readLines st (l1 ++ l2) = readLines st1 l2.
Proof.
  revert st. induction l1 as [|l l1 IH]; intros st; simpl.
  - intros [= <-]. reflexivity.
  - destruct (readLine st l) as [st' [e|]]; [done|]. apply IH.
Qed.

Lemma readLines_lineNum (lines : list gostring) (st st' : parser) :
  readLines st lines = (st', None) →
  lineNum st' = lineNum st + Z.of_nat (length lines).
Proof.
  revert st. induction lines as [|l lines IH]; intros st; simpl.
  - intros [= <-]. lia.
  - pose proof (readLine_lineNum st l) as Hn.
    destruct (readLine st l) as [st1 [e|]]; [done|]. simpl in Hn.
    intros H. rewrite (IH _ H), Hn. lia.
Qed.

(** When the loop returns an error, the lines before the failing one were
    read without error, and the failing line changed nothing. *)
Lemma readLines_error (lines : list gostring) (st st' : parser) (e : error) :
  readLines st lines = (st', Some e) →
  ∃ j stj line,
    lines !! j = Some line
    ∧ readLines st (take j lines) = (stj, None)
    ∧ readLine stj line = (st', Some e)
    ∧ doc st' = doc stj.
Proof.
  revert st. induction lines as [|l lines IH]; intros st; simpl; [done|].
  destruct (readLine st l) as [st1 [e1|]] eqn:E.
  - intros [= <- <-]. exists 0%nat, st, l. simpl.
    repeat split; try done. by apply readLine_error_doc in E.
  - intros H. destruct (IH _ H) as (j & stj & line & Hj & Ht & Hl & Hd).
    exists (S j), stj, line. simpl. rewrite E. done.
Qed.

(** [ReadFrom] on input whose lines all fit in the buffer. *)
Lemma ReadFrom_lines (i : Ini) (source : gostring) (lines : list gostring) :
  go_bufio.Scan maxTokenSize source = (lines, None) →
  ReadFrom i source
  = let '(st, err) := readLines (start i) lines in (doc st, bytesRead st, err).
Proof.
  intros H. unfold ReadFrom. rewrite H.
  destruct (readLines (start i) lines) as [st [e|]]; reflexivity.
Qed.

(** C5. When [ReadFrom] stops at an error, the document it leaves is the
    one obtained by reading, without error, the input up to the failing
    line: what the earlier lines assigned stays merged.  A format error at
    line [n] leaves the first [n - 1] lines read.  After reading ["a=1"],
    line feed, ["[]"], the call fails at line 2 with an empty section name
    and [Get("root", "a")] returns [("1", true)]. *)
Theorem merge_on_error (i i' : Ini) (source : gostring) (n : Z) (e : error) :
  ReadFrom i source = (i', n, Some e) →
  (∃ before rest n',
     source = before ++ rest
     ∧ ReadFrom i before = (i', n', None)
     ∧ ∀ ln, errorLine e = Some ln →
             Z.of_nat (length (go_bufio.splitLines before)) = ln - 1)
  ∧ (ReadFrom New (go "a=1" ++ [LF] ++ go "[]")).2 = Some (EmptySectionName 2)
  ∧ Get (ReadFrom New (go "a=1" ++ [LF] ++ go "[]")).1.1 (go "root") (go "a")
    = (go "1", true).
Proof.
  intros H. split; [|split; vm_compute; reflexivity].
  unfold ReadFrom in H.
  destruct (go_bufio.Scan maxTokenSize source) as [lines se] eqn:Hscan.
  unfold go_bufio.Scan in Hscan.
  pose proof (deliver_length _ _ _ _ Hscan) as [Hlen Hlt].
  pose proof (splitLines_noLF source) as HnoLF.
  assert (Hpre : ∀ j stj, (j < length (go_bufio.splitLines source))%nat →
            (j ≤ length lines)%nat →
            readLines (start i) (take j lines) = (stj, None) →
            ∃ before rest,
              source = before ++ rest
              ∧ ReadFrom i before = (doc stj, bytesRead stj, None)
              ∧ length (go_bufio.splitLines before) = j).
  { intros j stj Hj Hjl Hread.
    destruct (splitLines_take j source Hj) as [rest Hrest].
    exists (joinLines (take j (go_bufio.splitLines source))), rest.
    assert (Hsplit : go_bufio.splitLines (joinLines (take j (go_bufio.splitLines source)))
                     = take j (go_bufio.splitLines source)).
    { rewrite <- (app_nil_r (joinLines _)), splitLines_join, app_nil_r; [done|].
      by apply Forall_take. }
    split; [done|]. split.
    - rewrite (ReadFrom_lines _ _ (take j lines)).
      + rewrite Hread. reflexivity.
      + unfold go_bufio.Scan. rewrite Hsplit. by eapply deliver_take.
    - rewrite Hsplit, length_take. lia. }
  destruct (readLines (start i) lines) as [st [e1|]] eqn:Hread.
  - injection H as <- <- <-.
    destruct (readLines_error _ _ _ _ Hread) as (j & stj & line & Hj & Htake & Hline & Hdoc).
    apply lookup_lt_Some in Hj as Hjlt.
    destruct (Hpre j stj) as (before & rest & Hsrc & Hrd & Hlenb); [lia|lia|done|].
    exists before, rest, (bytesRead stj). split; [done|]. split.
    + by rewrite Hdoc.
    + intros ln Hln. rewrite (readLine_errorLine _ _ _ _ Hline) in Hln.
      injection Hln as <-. rewrite (readLines_lineNum _ _ _ Htake).
      rewrite Hlenb, length_take. simpl. lia.
  - destruct se as [se|]; [|done]. injection H as <- <- <-.
    destruct (Hpre (length lines) st) as (before & rest & Hsrc & Hrd & Hlenb).
    + apply Hlt. eauto.
    + lia.
    + by rewrite firstn_all.
    + exists before, rest, (bytesRead st). split; [done|]. split; [done|].
      intros ln [=].
Qed.

(** ** The first delimiter of a line *)

Lemma IndexByte_bounds (s : gostring) (c : ascii) :
  go_strings.IndexByte s c = -1 ∨ 0 <= go_strings.IndexByte s c < len s.
Proof.
  unfold len. induction s as [|b s IH]; simpl; [by left|].
  destruct (Ascii.eqb b c); [right; lia|].
  destruct (go_strings.IndexByte s c <? 0) eqn:E; [by left|]. right. unbool. lia.
Qed.

Lemma IndexByte_app (k w : gostring) (c : ascii) :
  c ∉ k → go_strings.IndexByte (k ++ c :: w) c = len k.
Proof.
  unfold len. induction k as [|b k IH]; intros Hk; simpl.
  - by rewrite Ascii.eqb_refl.
  - apply not_elem_of_cons in Hk as [Hb Hk].
    destruct (Ascii.eqb_spec b c) as [->|_]; [done|].
    rewrite IH by done. destruct (Z.of_nat (length k) <? 0) eqn:E; unbool; lia.
Qed.

Lemma IndexByte_none (s : gostring) (c : ascii) :
  go_strings.IndexByte s c < 0 ↔ c ∉ s.
Proof.
  induction s as [|b s IH]; simpl.
  - split; [intros _; apply not_elem_of_nil|lia].
  - rewrite not_elem_of_cons. destruct (Ascii.eqb_spec b c) as [->|Hb].
    + split; [lia|intros [? _]; done].
    + pose proof (IndexByte_bounds s c).
      destruct (go_strings.IndexByte s c <? 0) eqn:E; unbool.
      * split; [|lia]. intros _. split; [congruence|]. apply IH. lia.
      * split; [lia|]. intros [_ H']. apply IH in H'. lia.
Qed.

(** A found delimiter splits the line around its first occurrence. *)
Lemma IndexByte_split (s : gostring) (c : ascii) :
  0 <= go_strings.IndexByte s c →
  ∃ p q, s = p ++ c :: q ∧ (c ∉ p) ∧ go_strings.IndexByte s c = len p.
Proof.
  unfold len. induction s as [|b s IH]; simpl; [lia|].
  destruct (Ascii.eqb_spec b c) as [->|Hb].
  - intros _. exists [], s. split; [done|]. split; [apply not_elem_of_nil|done].
  - destruct (go_strings.IndexByte s c <? 0) eqn:E; [lia|]. unbool. intros _.
    destruct (IH E) as (p & q & -> & Hp & Hi).
    exists (b :: p), q. split; [done|]. split.
    + apply not_elem_of_cons. split; [congruence|done].
    + rewrite Hi. simpl length. lia.
Qed.

Lemma slice_before (p q : gostring) (c : ascii) :
  slice (p ++ c :: q) 0 (len p) = p.
Proof.
  unfold slice, len. rewrite Nat2Z.id. simpl. rewrite drop_0.
  by rewrite take_app_length.
Qed.

Lemma slice_after (p q : gostring) (c : ascii) :
  slice (p ++ c :: q) (len p + 1) (len (p ++ c :: q)) = q.
Proof.
  unfold slice, len. rewrite Nat2Z.id, firstn_all.
  replace (Z.to_nat (Z.of_nat (length p) + 1)) with (length (p ++ [c]))
    by (rewrite length_app; simpl; lia).
  change (p ++ c :: q) with (p ++ [c] ++ q). rewrite app_assoc.
  apply drop_app_length.
Qed.

Lemma slice_inside (a b : ascii) (m : gostring) :
  slice (a :: m ++ [b]) 1 (len (a :: m ++ [b]) - 1) = m.
Proof.
  unfold slice, len. simpl length. rewrite length_app. simpl.
  replace (Z.to_nat (Z.of_nat (S (length m + 1)) - 1)) with (S (length m)) by lia.
  simpl. rewrite drop_0. by rewrite take_app_length.
Qed.

(** A key-value line: what [readLine] does once the line is neither
    blank, comment nor header and has a delimiter. *)
Lemma readLine_keyValue (st : parser) (line k rest : gostring) :
  go_strings.TrimSpace line = k ++ EQUALS :: rest →
  EQUALS ∉ k →
  isComment (k ++ EQUALS :: rest) = false →
  isHeader (k ++ EQUALS :: rest) = false →
  readLine st line
  = if bool_decide (ToLower (go_strings.TrimSpace k) = [])
    then (advance st line, Some (EmptyKeyName (lineNum st + 1)))
    else (assign (advance st line) (ToLower (go_strings.TrimSpace k))
                 (unquote (go_strings.TrimSpace rest)), None).
Proof.
  intros Hl Hk Hc Hh. unfold readLine. rewrite Hl, Hc, Hh.
  destruct (len (k ++ EQUALS :: rest) =? 0) eqn:E.
  { unfold len in E. rewrite length_app in E. simpl in E. unbool. lia. }
  rewrite IndexByte_app by done.
  destruct (len k <? 0) eqn:E2; [unfold len in E2; unbool; lia|].
  rewrite slice_before, slice_after. reflexivity.
Qed.

(** C7. A key-value line is split at its first ['=']: whatever follows,
    further ['='] included, is the value text, and quotes are looked for in
    it only after the split.  The line [var1="value with = sign"] stores
    [value with = sign] under [var1]. *)
Theorem split_at_first_equals (st : parser) (line k rest : gostring) :
  go_strings.TrimSpace line = k ++ EQUALS :: rest →
  EQUALS ∉ k →
  isComment (k ++ EQUALS :: rest) = false →
  isHeader (k ++ EQUALS :: rest) = false →
  ToLower (go_strings.TrimSpace k) ≠ [] →
  readLine st line
  = (assign (advance st line) (ToLower (go_strings.TrimSpace k))
            (unquote (go_strings.TrimSpace rest)), None)
  ∧ Get (ReadFrom New (go "var1=" ++ [DQUOTE] ++ go "value with = sign" ++ [DQUOTE])).1.1
        (go "root") (go "var1")
    = (go "value with = sign", true).
Proof.
  intros Hl Hk Hc Hh Hne. split; [|vm_compute; reflexivity].
  rewrite (readLine_keyValue st line k rest) by done.
  by rewrite bool_decide_eq_false_2.
Qed.

(** ** Format errors *)

(** Lower-casing does not empty a string: the case table maps no rune
    below zero. *)
Lemma ToLower_nil (s : gostring) :
  (∀ r, 0 <= r → 0 <= lowerCase r) →
  ToLower s = [] ↔ s = [].
Proof.
  intros Hlow. unfold ToLower, go_strings.ToLower.
  destruct (forallb _ s).
  - split; [apply map_eq_nil|intros ->; reflexivity].
  - split; [|intros ->; reflexivity].
    intros H. destruct s as [|c s]; [done|]. exfalso.
    destruct (DecodeRuneInString (c :: s)) as [r n] eqn:D.
    unfold go_strings.Map in H. rewrite (range_step (c :: s) r n) in H by done.
    simpl in H. apply app_eq_nil in H as [H _].
    assert (0 <= go_unicode.ToLower lowerCase r) as Hr.
    { apply decode_valid in D.
      unfold validRune, surrogateMin, surrogateMax in D.
      unfold go_unicode.ToLower, go_unicode.MaxASCII. cases; try lia. apply Hlow. lia. }
    apply Z.leb_le in Hr. rewrite Hr in H.
    pose proof (AppendRune_length (go_unicode.ToLower lowerCase r)) as Hl.
    rewrite H in Hl. simpl in Hl. lia.
Qed.

Lemma isHeader_shape (l : gostring) :
  isHeader l = true ↔ ∃ m, l = LBRACKET :: m ++ [RBRACKET].
Proof.
  unfold isHeader, len. split.
  - intros H. apply andb_true_iff in H as [H H2]. apply andb_true_iff in H as [H0 H1].
    apply Z.leb_le in H0. apply Ascii.eqb_eq in H1. apply Ascii.eqb_eq in H2.
    destruct l as [|a t]; [simpl in H0; lia|].
    destruct (decide (t = [])) as [->|Ht]; [simpl in H0; lia|].
    destruct (exists_last Ht) as (m & b & ->). exists m.
    change (byte_at (a :: m ++ [b]) 0) with a in H1. subst a.
    replace (length (LBRACKET :: m ++ [b]) - 1)%nat with (length (LBRACKET :: m))
      in H2 by (simpl; rewrite length_app; simpl; lia).
    change (LBRACKET :: m ++ [b]) with ((LBRACKET :: m) ++ [b]) in H2.
    rewrite byte_at_last in H2. by subst b.
  - intros [m ->].
    replace (length (LBRACKET :: m ++ [RBRACKET]) - 1)%nat with (length (LBRACKET :: m))
      by (simpl; rewrite length_app; simpl; lia).
    change (LBRACKET :: m ++ [RBRACKET]) with ((LBRACKET :: m) ++ [RBRACKET]) at 3.
    rewrite byte_at_last. simpl length. rewrite length_app. simpl.
    destruct (2 <=? _) eqn:E; [reflexivity|unbool; lia].
Qed.

(** In a trimmed line, text before the first ['='] that trims to empty is
    empty: the line starts with ['=']. *)
Lemma emptyKey_first (line : gostring) :
  emptyKey (go_strings.TrimSpace line) = true →
  ∃ q, go_strings.TrimSpace line = EQUALS :: q.
Proof.
  unfold emptyKey. intros H. unbool. apply bool_decide_eq_true in H0.
  destruct (IndexByte_split _ _ H) as (p & q & Hl & Hp & Hi).
  rewrite Hi, Hl, slice_before in H0.
  destruct (TrimSpace_nil p H0) as [->|Hsp]; [by exists q|]. exfalso.
  destruct (DecodeRuneInString p) as [r n] eqn:D. simpl in Hsp.
  assert (r ≠ RuneError) as Hr by (intros ->; by rewrite IsSpace_RuneError in Hsp).
  pose proof (decode_app p (EQUALS :: q) r n D Hr) as D'. rewrite <- Hl in D'.
  destruct (TrimSpace_first line) as [Hn|Hn].
  - rewrite Hn in Hl. by destruct p.
  - rewrite D' in Hn. simpl in Hn. congruence.
Qed.

Lemma isComment_first (l : gostring) :
  isComment l = true → ∃ c t, l = c :: t ∧ (c = SEMI ∨ c = HASH).
Proof.
  unfold isComment, len. intros H. unbool. destruct l as [|c t]; [simpl in *; lia|].
  exists c, t. split; [done|]. unfold byte_at in H0. simpl in H0.
  apply orb_true_iff in H0 as [H0|H0]; apply Ascii.eqb_eq in H0; auto.
Qed.

(** The body of the loop returns the error of the line's fault, numbered
    with the line, and no error for a line without fault. *)
Lemma readLine_fault (st : parser) (line : gostring) :
  (∀ r, 0 <= r → 0 <= lowerCase r) →
  (readLine st line).2
  = (fun f => faultError f (lineNum st + 1)) <$> lineFault line.
Proof.
  intros Hlow. unfold readLine, lineFault. cbv zeta.
  set (l := go_strings.TrimSpace line).
  pose proof (emptyKey_first line) as Hkey. fold l in Hkey.
  destruct (len l =? 0) eqn:El.
  { unbool. assert (l = []) as -> by (destruct l; [done|unfold len in El; simpl in El; lia]).
    reflexivity. }
  destruct (isComment l) eqn:Ec.
  { apply isComment_first in Ec as (c & t & Hl & Hc).
    unfold emptyHeader, noDelimiter, isHeader, isComment. rewrite Hl in *.
    unfold byte_at at 1. simpl nth.
    destruct (emptyKey (c :: t)) eqn:Ek.
    { destruct (Hkey eq_refl) as [q [= -> _]]. destruct Hc as [Hc|Hc]; discriminate Hc. }
    destruct Hc as [-> | ->]; simpl; rewrite ?andb_false_r; reflexivity. }
  unfold emptyHeader, noDelimiter. rewrite Ec.
  destruct (isHeader l) eqn:Eh; simpl.
  { destruct (bool_decide (ToLower _ = [])) eqn:E1.
    - apply bool_decide_eq_true in E1. apply (proj1 (ToLower_nil _ Hlow)) in E1.
      rewrite bool_decide_eq_true_2 by done. reflexivity.
    - apply bool_decide_eq_false in E1.
      rewrite bool_decide_eq_false_2 by (intros H; apply E1; by apply (proj2 (ToLower_nil _ Hlow))).
      destruct (emptyKey l) eqn:Ek.
      { destruct (Hkey eq_refl) as [q Hq]. apply isHeader_shape in Eh as [m Hm].
        rewrite Hq in Hm. discriminate Hm. }
      rewrite andb_false_r. reflexivity. }
  unfold emptyKey. destruct (go_strings.IndexByte l EQUALS <? 0) eqn:Ei; unbool.
  { destruct (0 <=? _) eqn:E0; [unbool; lia|]. simpl.
    rewrite bool_decide_eq_false_2 by (intros ->; done).
    rewrite bool_decide_eq_true_2 by (by apply IndexByte_none). reflexivity. }
  destruct (0 <=? _) eqn:E0; [|unbool; lia]. simpl.
  destruct (bool_decide (ToLower _ = [])) eqn:E1.
  - apply bool_decide_eq_true in E1. apply (proj1 (ToLower_nil _ Hlow)) in E1.
    rewrite bool_decide_eq_true_2 by done. reflexivity.
  - apply bool_decide_eq_false in E1.
    rewrite bool_decide_eq_false_2 by (intros H; apply E1; by apply (proj2 (ToLower_nil _ Hlow))).
    rewrite (bool_decide_eq_false_2 (EQUALS ∉ l)).
    + rewrite andb_false_r. reflexivity.
    + intros H. apply IndexByte_none in H. lia.
Qed.

Lemma readLines_fault (lines : list gostring) (st : parser) :
  (∀ r, 0 <= r → 0 <= lowerCase r) →
  (readLines st lines).2 = firstFault (lineNum st + 1) lines.
Proof.
  intros Hlow. revert st. induction lines as [|l lines IH]; intros st; simpl; [done|].
  pose proof (readLine_fault st l Hlow) as Hf.
  pose proof (readLine_lineNum st l) as Hn.
  destruct (readLine st l) as [st' [e|]]; simpl in *.
  - destruct (lineFault l); simpl in Hf; congruence.
  - destruct (lineFault l); simpl in Hf; [done|]. rewrite IH, Hn. reflexivity.
Qed.

Lemma emptyHeader_shape (l : gostring) :
  emptyHeader l = true
  ↔ ∃ m, l = LBRACKET :: m ++ [RBRACKET] ∧ go_strings.TrimSpace m = [].
Proof.
  unfold emptyHeader. rewrite andb_true_iff, bool_decide_eq_true, isHeader_shape.
  split.
  - intros [[m ->] H]. rewrite slice_inside in H. eauto.
  - intros (m & -> & H). rewrite slice_inside. eauto.
Qed.

Lemma emptyKey_shape (l : gostring) :
  emptyKey l = true
  ↔ ∃ p q, l = p ++ EQUALS :: q ∧ (EQUALS ∉ p) ∧ go_strings.TrimSpace p = [].
Proof.
  unfold emptyKey. rewrite andb_true_iff, bool_decide_eq_true, Z.leb_le. split.
  - intros [H0 H]. destruct (IndexByte_split _ _ H0) as (p & q & -> & Hp & Hi).
    rewrite Hi, slice_before in H. eauto.
  - intros (p & q & -> & Hp & H). rewrite IndexByte_app, slice_before by done.
    split; [unfold len; lia|done].
Qed.

Lemma noDelimiter_shape (l : gostring) :
  noDelimiter l = true
  ↔ l ≠ [] ∧ isComment l = false ∧ isHeader l = false ∧ (EQUALS ∉ l).
Proof.
  unfold noDelimiter.
  rewrite !andb_true_iff, !negb_true_iff, bool_decide_eq_false, bool_decide_eq_true.
  tauto.
Qed.

(** C6. [ReadFrom] fails with the error of the first scanned line that has
    a fault, numbered from 1 over all scanned lines: an empty section name
    exactly for a trimmed line ['[' ... ']'] whose interior trims to empty, an
    empty key name exactly when the text before the first ['='] of the
    trimmed line trims to empty, a missing delimiter exactly for a line that
    is not blank, not a comment, not a header, and has no ['=']. *)
Theorem format_errors (i : Ini) (source : gostring) :
  (∀ r, 0 <= r → 0 <= lowerCase r) →
  (ReadFrom i source).2
  = match firstFault 1 (go_bufio.Scan maxTokenSize source).1 with
    | Some e => Some e
    | None => ScannerError <$> (go_bufio.Scan maxTokenSize source).2
    end
  ∧ (∀ st line,
       (readLine st line).2
       = (fun f => faultError f (lineNum st + 1)) <$> lineFault line)
  ∧ (∀ line,
       (lineFault line = Some EmptySection
        ↔ ∃ m, go_strings.TrimSpace line = LBRACKET :: m ++ [RBRACKET]
               ∧ go_strings.TrimSpace m = [])
       ∧ (lineFault line = Some EmptyKey
          ↔ ∃ p q, go_strings.TrimSpace line = p ++ EQUALS :: q
                   ∧ (EQUALS ∉ p) ∧ go_strings.TrimSpace p = [])
       ∧ (lineFault line = Some NoDelimiter
          ↔ go_strings.TrimSpace line ≠ []
            ∧ isComment (go_strings.TrimSpace line) = false
            ∧ isHeader (go_strings.TrimSpace line) = false
            ∧ (EQUALS ∉ go_strings.TrimSpace line)))
  ∧ (ReadFrom New (go "[]" ++ [LF] ++ go "key=value")).2 = Some (EmptySectionName 1)
  ∧ (ReadFrom New (go "=value")).2 = Some (EmptyKeyName 1)
  ∧ (ReadFrom New (go "invalid line without equals")).2 = Some (MissingDelimiter 1).
Proof.
  intros Hlow. split; [|split; [|split; [|repeat split; vm_compute; reflexivity]]].
  - unfold ReadFrom. destruct (go_bufio.Scan maxTokenSize source) as [lines se]. simpl.
    pose proof (readLines_fault lines (start i) Hlow) as Hf.
    change (lineNum (start i) + 1) with 1 in Hf.
    destruct (readLines (start i) lines) as [st [e|]]; simpl in *; rewrite <- Hf.
    + reflexivity.
    + destruct se; reflexivity.
  - intros st line. by apply readLine_fault.
  - intros line. unfold lineFault. cbv zeta.
    set (l := go_strings.TrimSpace line).
    pose proof (emptyKey_first line) as Hkey. fold l in Hkey.
    rewrite <- emptyHeader_shape, <- emptyKey_shape, <- noDelimiter_shape.
    assert (Hkh : emptyKey l = true → emptyHeader l = false).
    { intros Hk. destruct (Hkey Hk) as [q Hq]. unfold emptyHeader.
      destruct (isHeader l) eqn:Eh; [|done].
      apply isHeader_shape in Eh as [m Hm]. rewrite Hq in Hm. discriminate Hm. }
    assert (Hnh : noDelimiter l = true → emptyHeader l = false ∧ emptyKey l = false).
    { intros Hn. apply noDelimiter_shape in Hn as (_ & _ & Hh & He).
      unfold emptyHeader, emptyKey. rewrite Hh. split; [done|].
      apply IndexByte_none in He. destruct (0 <=? _) eqn:E; [unbool; lia|done]. }
    destruct (emptyHeader l) eqn:E1; [repeat split; try done; intros H|].
    { by apply Hkh in H. }
    { by apply Hnh in H as [? _]. }
    destruct (emptyKey l) eqn:E2; [repeat split; try done; intros H|].
    { by apply Hnh in H as [_ ?]. }
    destruct (noDelimiter l) eqn:E3; repeat split; done.
Qed.

(** ** What WriteTo writes, line by line *)

Lemma joinLines_app (a b : list gostring) :
  joinLines (a ++ b) = joinLines a ++ joinLines b.
Proof. unfold joinLines. apply flat_map_app. Qed.

Lemma joinLines_cons (l : gostring) (ls : list gostring) :
  joinLines (l :: ls) = l ++ LF :: joinLines ls.
Proof. unfold joinLines. simpl. by rewrite <- app_assoc. Qed.

Lemma writeEntry_line (k v : gostring) :
  writeEntry k v = entryLine (k, v) ++ [LF].
Proof.
  unfold writeEntry, entryLine, writtenValue. simpl.
  destruct (go_strings.ContainsAny v quoteChars); simpl;
    rewrite <- ?app_assoc; simpl; rewrite <- ?app_assoc; reflexivity.
Qed.

Lemma writeSection_lines (kvs : list (gostring * gostring)) :
  writeSection kvs = joinLines (map entryLine kvs).
Proof.
  unfold writeSection. induction kvs as [|[k v] kvs IH]; [reflexivity|].
  simpl. rewrite IH, writeEntry_line. unfold joinLines. reflexivity.
Qed.

Lemma content_lines (i : Ini) (rootOrder : list (gostring * gostring))
    (visits : list (gostring * Section_ * list (gostring * gostring))) :
  content i rootOrder visits = joinLines (emitted i rootOrder visits).
Proof.
  unfold content, emitted, rootLines. rewrite joinLines_app. f_equal.
  - destruct (i !! root) as [s|]; [|reflexivity].
    destruct (0 <? size s)%nat; [|reflexivity].
    rewrite joinLines_app, writeSection_lines. reflexivity.
  - induction visits as [|[[n m] kvs] visits IH]; [reflexivity|].
    simpl. rewrite joinLines_app, IH. f_equal.
    destruct (bool_decide (n = root) || (size m =? 0)%nat); [reflexivity|].
    unfold headerLine. rewrite joinLines_cons, joinLines_app, writeSection_lines.
    simpl. rewrite <- !app_assoc. reflexivity.
Qed.

Lemma ContainsAny_false (v chars : gostring) (c : ascii) :
  go_strings.ContainsAny v chars = false → c ∈ chars → c ∉ v.
Proof.
  unfold go_strings.ContainsAny. intros H Hc Hv.
  assert (existsb (λ b, existsb (Ascii.eqb b) chars) v = true) as H'; [|congruence].
  apply existsb_exists. exists c. split; [by apply list_elem_of_In|].
  apply existsb_exists. exists c. split; [by apply list_elem_of_In|apply Ascii.eqb_refl].
Qed.

Lemma ContainsAny_true (v chars : gostring) :
  go_strings.ContainsAny v chars = true → ∃ c, c ∈ chars ∧ c ∈ v.
Proof.
  unfold go_strings.ContainsAny. intros H.
  apply existsb_exists in H as (b & Hb & H). apply existsb_exists in H as (c & Hc & H).
  apply Ascii.eqb_eq in H as ->. exists c. by rewrite !list_elem_of_In.
Qed.

(** What is written for a rune holds no raw line feed or carriage
    return. *)
Lemma escapeRune_noEOL (r : Z) (c : ascii) :
  validRune r → c ∈ escapeRune r → c ≠ LF ∧ c ≠ CR.
Proof.
  intros Hr. unfold escapeRune. cases; unbool;
    try (rewrite ?elem_of_cons, elem_of_nil; intros H;
         repeat destruct H as [H|H]; try done; subst c; split; discriminate).
  intros Hc. destruct (Z.lt_ge_cases r 0x80) as [Hlo|Hhi].
  - rewrite AppendRune_valid in Hc by done.
    unfold validRune, surrogateMin, surrogateMax, MaxRune in Hr.
    destruct (r <=? 127) eqn:E; [|unbool; lia].
    apply list_elem_of_singleton in Hc as ->.
    split; intros Heq; apply (f_equal byte_val) in Heq;
      rewrite byte_val_of in Heq by lia;
      [change (byte_val LF) with 10 in Heq|change (byte_val CR) with 13 in Heq]; lia.
  - pose proof (AppendRune_high r c Hr Hhi Hc) as Hb.
    split; intros ->; [change (byte_val LF) with 10 in Hb|change (byte_val CR) with 13 in Hb]; lia.
Qed.

Lemma writtenValue_noEOL (v : gostring) :
  (LF ∉ writtenValue v) ∧ (CR ∉ writtenValue v).
Proof.
  unfold writtenValue. destruct (go_strings.ContainsAny v quoteChars) eqn:E.
  - assert (∀ c, c ∈ flat_map escapeRune (range v) → c ≠ LF ∧ c ≠ CR) as H.
    { intros c Hc. apply list_elem_of_In, in_flat_map in Hc as (r & Hr & Hc).
      apply list_elem_of_In in Hr, Hc.
      eapply escapeRune_noEOL; [|done].
      pose proof (range_valid v) as Hv. rewrite Forall_forall in Hv. by apply Hv. }
    split; intros Hc; simpl in Hc;
      rewrite elem_of_cons, elem_of_app, list_elem_of_singleton in Hc;
      destruct Hc as [Hc|[Hc|Hc]]; try discriminate Hc; apply H in Hc as [? ?]; done.
  - split; eapply ContainsAny_false; try done; unfold quoteChars; set_solver.
Qed.

Lemma ranges_lookup {V : Type} (m : gmap gostring V) (l : list (gostring * V))
    (k : gostring) (v : V) :
  ranges m l → ((k, v) ∈ l ↔ m !! k = Some v).
Proof. unfold ranges. intros ->. apply elem_of_map_to_list. Qed.

(** Every entry of the document is written as a line of its own. *)
Lemma emitted_entry (i : Ini) (rootOrder : list (gostring * gostring))
    (visits : list (gostring * Section_ * list (gostring * gostring)))
    (n : gostring) (m : Section_) (k v : gostring) :
  (∀ s, i !! root = Some s → ranges s rootOrder) →
  ranges i (visits.*1) →
  Forall (fun v => ranges v.1.2 v.2) visits →
  i !! n = Some m → m !! k = Some v →
  entryLine (k, v) ∈ emitted i rootOrder visits.
Proof.
  intros Hroot Hvis Hkvs Hn Hk. unfold emitted. apply elem_of_app.
  assert (size m ≠ 0%nat) as Hsz.
  { intros Hz. apply map_size_empty_iff in Hz. subst m. by rewrite lookup_empty in Hk. }
  destruct (decide (n = root)) as [->|Hnr].
  - left. unfold rootLines. rewrite Hn.
    destruct (0 <? size m)%nat eqn:E; [|unbool; lia].
    apply elem_of_app. left. apply list_elem_of_fmap. exists (k, v). split; [done|].
    by apply (ranges_lookup m rootOrder k v (Hroot m Hn)).
  - right. apply (ranges_lookup i _ n m Hvis) in Hn.
    apply list_elem_of_fmap in Hn as ([[n' m'] kvs] & [= <- <-] & Hin).
    apply list_elem_of_In, in_flat_map. exists (n, m, kvs).
    split; [by apply list_elem_of_In|]. apply list_elem_of_In. simpl.
    rewrite bool_decide_eq_false_2 by done.
    destruct (size m =? 0)%nat eqn:E; [unbool; lia|]. simpl.
    apply elem_of_cons. right. apply elem_of_app. left.
    apply list_elem_of_fmap. exists (k, v). split; [done|].
    rewrite Forall_forall in Hkvs. specialize (Hkvs _ Hin). simpl in Hkvs.
    by apply (ranges_lookup m kvs k v Hkvs).
Qed.

(** Every section but root that has a key is written with its header. *)
Lemma emitted_header (i : Ini) (rootOrder : list (gostring * gostring))
    (visits : list (gostring * Section_ * list (gostring * gostring)))
    (n : gostring) (m : Section_) :
  ranges i (visits.*1) →
  i !! n = Some m → n ≠ root → m ≠ ∅ →
  headerLine n ∈ emitted i rootOrder visits.
Proof.
  intros Hvis Hn Hnr Hm. unfold emitted. apply elem_of_app. right.
  assert (size m ≠ 0%nat) as Hsz by (by rewrite map_size_empty_iff).
  apply (ranges_lookup i _ n m Hvis) in Hn.
  apply list_elem_of_fmap in Hn as ([[n' m'] kvs] & [= <- <-] & Hin).
  apply list_elem_of_In, in_flat_map. exists (n, m, kvs).
  split; [by apply list_elem_of_In|]. apply list_elem_of_In. simpl.
  rewrite bool_decide_eq_false_2 by done.
  destruct (size m =? 0)%nat eqn:E; [unbool; lia|]. simpl.
  apply elem_of_cons. by left.
Qed.

Lemma joinLines_ends (ls : list gostring) :
  joinLines ls = [] ∨ ∃ p, joinLines ls = p ++ [LF].
Proof.
  induction ls as [|l ls IH] using rev_ind; [by left|]. right.
  rewrite joinLines_app. exists (joinLines ls ++ l).
  unfold joinLines at 2. simpl. rewrite app_nil_r, app_assoc. reflexivity.
Qed.

Lemma splitLines_nil (s : gostring) : go_bufio.splitLines s = [] → s = [].
Proof.
  destruct s as [|c s]; [done|]. simpl.
  destruct (Ascii.eqb c LF); [done|]. destruct (go_bufio.splitLines s); done.
Qed.

(** After a line feed the scanner starts afresh. *)
Lemma splitLines_app (pre rest : gostring) :
  pre = [] ∨ (∃ p, pre = p ++ [LF]) →
  go_bufio.splitLines (pre ++ rest)
  = go_bufio.splitLines pre ++ go_bufio.splitLines rest.
Proof.
  intros [->|[p ->]]; [reflexivity|].
  induction p as [|c p IH]; [reflexivity|]. simpl.
  destruct (Ascii.eqb c LF); [by rewrite IH|].
  rewrite IH. destruct (go_bufio.splitLines (p ++ [LF])) eqn:E; [|reflexivity].
  apply splitLines_nil in E. by destruct p.
Qed.

Lemma deliver_all (m : Z) (raw ts : list gostring) :
  go_bufio.deliver m raw = (ts, None) → ts = map go_bufio.dropCR raw.
Proof.
  revert ts. induction raw as [|l raw IH]; intros ts; simpl.
  - by intros [= <-].
  - destruct (Z.of_nat (length l) <? m); [|done].
    destruct (go_bufio.deliver m raw) as [ts' e]. intros [= <- ->].
    by rewrite (IH ts').
Qed.

(** A line on which the loop body always fails makes the loop fail, there
    or before. *)
Lemma readLines_faulty (before after : list gostring) (l : gostring) (st : parser) :
  (∀ st', (readLine st' l).2 ≠ None) →
  (readLines st (before ++ l :: after)).2 ≠ None.
Proof.
  intros Hl. revert st. induction before as [|b before IH]; intros st; simpl.
  - specialize (Hl st). destruct (readLine st l) as [st' [e|]]; done.
  - destruct (readLine st b) as [st' [e|]]; [done|]. apply IH.
Qed.

(** Whatever the scanner delivers, a faulty line in the input makes
    [ReadFrom] return an error. *)
Lemma ReadFrom_faulty (i : Ini) (pre l post : gostring) :
  pre = [] ∨ (∃ p, pre = p ++ [LF]) →
  LF ∉ l →
  (∀ st, (readLine st (go_bufio.dropCR l)).2 ≠ None) →
  (ReadFrom i (pre ++ l ++ LF :: post)).2 ≠ None.
Proof.
  intros Hpre Hl Hfault. unfold ReadFrom, go_bufio.Scan.
  rewrite splitLines_app, splitLines_line by done.
  destruct (go_bufio.deliver _ _) as [ts [se|]] eqn:Hd.
  - destruct (readLines (start i) ts) as [st [e|]]; done.
  - apply deliver_all in Hd. subst ts. rewrite map_app. simpl.
    pose proof (readLines_faulty (map go_bufio.dropCR (go_bufio.splitLines pre))
                  (map go_bufio.dropCR (go_bufio.splitLines post))
                  (go_bufio.dropCR l) (start i) Hfault) as H.
    destruct (readLines _ _) as [st [e|]]; done.
Qed.

(** What the scanner delivers is the start of the lines, each through
    [dropCR]. *)
Lemma deliver_prefix (m : Z) (raw ts : list gostring) (e : option go_bufio.scanError) :
  go_bufio.deliver m raw = (ts, e) →
  ts = map go_bufio.dropCR (take (length ts) raw).
Proof.
  intros Hd. pose proof (deliver_take m raw ts e (length ts) Hd (le_n _)) as H.
  rewrite (take_ge ts) in H by done. by apply deliver_all in H.
Qed.

(** The error [ReadFrom] returns on an input with a faulty line: the error
    of that line, unless an earlier line has an error or the scanner stops
    on a line that does not fit its buffer. *)
Lemma ReadFrom_faulty_error (i : Ini) (pre l post : gostring) (mk : Z → error) :
  pre = [] ∨ (∃ p, pre = p ++ [LF]) →
  LF ∉ l →
  (∀ st, (readLine st (go_bufio.dropCR l)).2 = Some (mk (lineNum st + 1))) →
  ∃ e, (ReadFrom i (pre ++ l ++ LF :: post)).2 = Some e
       ∧ (e = mk (Z.of_nat (length (go_bufio.splitLines pre)) + 1)
          ∨ (∃ ln, errorLine e = Some ln
                   ∧ 1 <= ln <= Z.of_nat (length (go_bufio.splitLines pre)))
          ∨ e = ScannerError go_bufio.ErrTooLong).
Proof.
  intros Hpre Hl Hfault. unfold ReadFrom, go_bufio.Scan.
  rewrite splitLines_app, splitLines_line by done.
  set (A := go_bufio.splitLines pre). set (B := go_bufio.splitLines post).
  destruct (go_bufio.deliver maxTokenSize (A ++ l :: B)) as [ts se] eqn:Hd.
  pose proof (deliver_prefix _ _ _ _ Hd) as Hts.
  assert (Hfault' : ∀ st, (readLine st (go_bufio.dropCR l)).2 ≠ None)
    by (intros st; by rewrite Hfault).
  assert (Hat : ∀ j, (length A < j)%nat → (j ≤ length ts)%nat →
            ∀ st, (readLines st (take j ts)).2 ≠ None).
  { intros j HA Hj st.
    assert (take j ts !! length A = Some (go_bufio.dropCR l)) as Hin.
    { rewrite lookup_take_lt by done. rewrite Hts, list_lookup_fmap.
      rewrite lookup_take_lt by lia. by rewrite list_lookup_middle. }
    rewrite <- (take_drop_middle _ _ _ Hin). by apply readLines_faulty. }
  destruct (readLines (start i) ts) as [st [e|]] eqn:Hr.
  - exists e. split; [by destruct se|].
    apply readLines_error in Hr as (j & stj & line & Hj & Hrj & Hline & _).
    pose proof (lookup_lt_Some _ _ _ Hj) as Hjlt.
    pose proof (readLines_lineNum _ _ _ Hrj) as Hn. simpl in Hn.
    rewrite length_take, Nat.min_l in Hn by lia.
    pose proof (readLine_errorLine _ _ _ _ Hline) as He.
    destruct (lt_eq_lt_dec j (length A)) as [[Hlt|Heq]|Hgt].
    + right. left. exists (lineNum stj + 1). split; [done|]. lia.
    + left. subst j.
      rewrite Hts, list_lookup_fmap, lookup_take_lt, list_lookup_middle in Hj by done.
      injection Hj as <-. specialize (Hfault stj). rewrite Hline in Hfault.
      injection Hfault as ->. f_equal. lia.
    + exfalso. apply (Hat j Hgt ltac:(lia) (start i)). by rewrite Hrj.
  - assert (length ts ≤ length A)%nat as Hlen.
    { destruct (le_lt_dec (length ts) (length A)) as [|Hgt]; [done|]. exfalso.
      apply (Hat (length ts) Hgt (le_n _) (start i)).
      rewrite take_ge by done. by rewrite Hr. }
    destruct se as [[]|].
    + exists (ScannerError go_bufio.ErrTooLong). split; [done|]. by right; right.
    + exfalso. apply deliver_all in Hd. subst ts.
      rewrite length_fmap, length_app in Hlen. simpl in Hlen. lia.
Qed.

Lemma dropCR_cons (c : ascii) (w : gostring) :
  c ≠ CR → ∃ w', go_bufio.dropCR (c :: w) = c :: w'.
Proof.
  intros Hc. unfold go_bufio.dropCR.
  destruct (reverse (c :: w)) as [|b r] eqn:E; [by exists w|].
  destruct (Ascii.eqb_spec b CR) as [->|_]; [|by exists w].
  rewrite reverse_cons in E.
  destruct (decide (w = [])) as [->|Hw].
  - injection E as E _. done.
  - destruct (exists_last Hw) as (u & b & ->).
    rewrite reverse_app in E. injection E as _ <-.
    exists u. rewrite reverse_app, reverse_involutive. reflexivity.
Qed.

(** A line that starts with ['='] has an empty key. *)
Lemma readLine_startsEquals (st : parser) (w : gostring) :
  (readLine st (EQUALS :: w)).2 = Some (EmptyKeyName (lineNum st + 1)).
Proof.
  destruct (TrimSpace_cons EQUALS w) as [n Hn].
  { rewrite decode_ascii by (vm_compute; reflexivity). reflexivity. }
  rewrite (readLine_keyValue st (EQUALS :: w) [] (take n w)).
  - reflexivity.
  - done.
  - apply not_elem_of_nil.
  - reflexivity.
  - unfold isHeader. unfold byte_at at 1. simpl. by rewrite andb_false_r.
Qed.

Lemma readLine_emptyBrackets (st : parser) :
  (readLine st (go "[]")).2 = Some (EmptySectionName (lineNum st + 1)).
Proof. reflexivity. Qed.

Lemma WriteTo_run_spec (i : Ini) :
  WriteTo i (WriteTo_run i) (int64 (len (WriteTo_run i))).
Proof.
  exists (map_to_list (default ∅ (i !! root))),
         (map (fun ns => (ns, map_to_list ns.2)) (map_to_list i)).
  split; [|split; [|split; [|split]]]; try reflexivity.
  - intros s ->. unfold ranges. reflexivity.
  - unfold ranges.
    assert (∀ l : list (gostring * Section_),
              (map (fun ns => (ns, map_to_list ns.2)) l).*1 = l) as Hfst.
    { induction l as [|x l IH]; [done|]. simpl. f_equal. exact IH. }
    by rewrite Hfst.
  - apply Forall_forall. intros v Hv. apply list_elem_of_fmap in Hv as (ns & -> & _).
    unfold ranges. reflexivity.
Qed.

(** C9, amended. [Set] takes an empty section name or key as it comes:
    the entry is stored and [Get] finds it under the empty name.  [WriteTo]
    then writes a line that starts with ['='] for an empty key, the header
    line ["[]"] for an empty section name.  The loop of [ReadFrom] rejects
    such a line with an empty key name, or an empty section name, and
    [ReadFrom] returns an error on what [WriteTo] wrote: that error, with
    the number of that line, unless an earlier line has a format error,
    which is then the one returned, or the scanner stops on a line that does
    not fit its buffer. *)
Theorem empty_names_do_not_round_trip :
  (∀ i s v, Get (Set_ i s [] v) s [] = (v, true))
  ∧ (∀ i k v, Get (Set_ i [] k v) [] k = (v, true))
  ∧ (∀ (i : Ini) (n : gostring) (m : Section_) v out cnt,
       i !! n = Some m → m !! [] = Some v → WriteTo i out cnt →
       ∃ pre w post,
         out = pre ++ (EQUALS :: w) ++ LF :: post
         ∧ (pre = [] ∨ ∃ p, pre = p ++ [LF]) ∧ (LF ∉ w)
         ∧ ∀ i0, ∃ e,
             (ReadFrom i0 out).2 = Some e
             ∧ (e = EmptyKeyName (Z.of_nat (length (go_bufio.splitLines pre)) + 1)
                ∨ (∃ ln, errorLine e = Some ln
                         ∧ 1 <= ln <= Z.of_nat (length (go_bufio.splitLines pre)))
                ∨ e = ScannerError go_bufio.ErrTooLong))
  ∧ (∀ (i : Ini) (m : Section_) out cnt,
       i !! [] = Some m → m ≠ ∅ → WriteTo i out cnt →
       ∃ pre post,
         out = pre ++ go "[]" ++ LF :: post
         ∧ (pre = [] ∨ ∃ p, pre = p ++ [LF])
         ∧ ∀ i0, ∃ e,
             (ReadFrom i0 out).2 = Some e
             ∧ (e = EmptySectionName (Z.of_nat (length (go_bufio.splitLines pre)) + 1)
                ∨ (∃ ln, errorLine e = Some ln
                         ∧ 1 <= ln <= Z.of_nat (length (go_bufio.splitLines pre)))
                ∨ e = ScannerError go_bufio.ErrTooLong))
  ∧ (∀ st w, (readLine st (EQUALS :: w)).2 = Some (EmptyKeyName (lineNum st + 1)))
  ∧ (∀ st, (readLine st (go "[]")).2 = Some (EmptySectionName (lineNum st + 1)))
  ∧ WriteTo_run (Set_ New (go "s") [] (go "v")) = go "[s]" ++ [LF] ++ go "=v" ++ [LF; LF]
  ∧ (ReadFrom New (WriteTo_run (Set_ New (go "s") [] (go "v")))).2
    = Some (EmptyKeyName 2)
  ∧ WriteTo_run (Set_ New [] (go "k") (go "v")) = go "[]" ++ [LF] ++ go "k=v" ++ [LF; LF]
  ∧ (ReadFrom New (WriteTo_run (Set_ New [] (go "k") (go "v")))).2
    = Some (EmptySectionName 1).
Proof.
  split; [|split; [|split; [|split; [|split; [|split]]]]].
  - intros i s v. unfold Get. rewrite Set_lookup.
    change (ToLower []) with (@nil ascii). by rewrite lookup_insert_eq.
  - intros i k v. unfold Get. rewrite Set_lookup. by rewrite lookup_insert_eq.
  - intros i n m v out cnt Hn Hk (rootOrder & visits & Hroot & Hvis & Hkvs & -> & _).
    rewrite content_lines.
    pose proof (emitted_entry i rootOrder visits n m [] v Hroot Hvis Hkvs Hn Hk) as Hin.
    apply list_elem_of_split in Hin as (before & after & ->).
    rewrite joinLines_app, joinLines_cons.
    change (entryLine ([], v)) with (EQUALS :: writtenValue v).
    pose proof (writtenValue_noEOL v) as [HLF HCR].
    exists (joinLines before), (writtenValue v), (joinLines after).
    split; [done|]. split; [apply joinLines_ends|]. split; [done|].
    intros i0. apply ReadFrom_faulty_error.
    + apply joinLines_ends.
    + apply not_elem_of_cons. done.
    + intros st. destruct (dropCR_cons EQUALS (writtenValue v)) as [w' ->]; [done|].
      apply readLine_startsEquals.
  - intros i m out cnt Hn Hm (rootOrder & visits & Hroot & Hvis & Hkvs & -> & _).
    rewrite content_lines.
    pose proof (emitted_header i rootOrder visits [] m Hvis Hn ltac:(done) Hm) as Hin.
    apply list_elem_of_split in Hin as (before & after & ->).
    rewrite joinLines_app, joinLines_cons.
    change (headerLine []) with (go "[]").
    exists (joinLines before), (joinLines after).
    split; [done|]. split; [apply joinLines_ends|].
    intros i0. apply ReadFrom_faulty_error.
    + apply joinLines_ends.
    + change (go "[]") with [LBRACKET; RBRACKET].
      rewrite !not_elem_of_cons. repeat split; try discriminate. apply not_elem_of_nil.
    + intros st. change (go_bufio.dropCR (go "[]")) with (go "[]").
      apply readLine_emptyBrackets.
  - apply readLine_startsEquals.
  - apply readLine_emptyBrackets.
  - repeat split; vm_compute; reflexivity.
Qed.

(** ** Quoting and escaping on write *)

Lemma byte_of_eqb (r : Z) (c : ascii) :
  0 <= r < 256 → Ascii.eqb (byte_of r) c = (r =? byte_val c).
Proof.
  intros Hr. destruct (Ascii.eqb_spec (byte_of r) c) as [<-|Hne].
  - rewrite byte_val_of by done. symmetry. apply Z.eqb_refl.
  - symmetry. apply Z.eqb_neq. intros ->. apply Hne. apply byte_of_val.
Qed.

Lemma escapeByte_high (c : ascii) : 0x80 <= byte_val c → escapeByte c = [c].
Proof.
  intros Hc. unfold escapeByte.
  repeat match goal with
         | |- context [Ascii.eqb c ?d] =>
           destruct (Ascii.eqb_spec c d) as [->|_]; [vm_compute in Hc; done|]
         end.
  reflexivity.
Qed.

(** What is written for a rune is the escaping, byte by byte, of its
    encoding. *)
Lemma escapeRune_bytes (r : Z) :
  validRune r → escapeRune r = flat_map escapeByte (AppendRune r).
Proof.
  intros Hr. destruct (Z.lt_ge_cases r 0x80) as [Hlo|Hhi].
  - rewrite AppendRune_valid by done.
    unfold validRune, surrogateMin, surrogateMax, MaxRune in Hr.
    destruct (r <=? 127) eqn:E; [|unbool; lia]. simpl. rewrite app_nil_r.
    unfold escapeByte, escapeRune. rewrite !byte_of_eqb by lia.
    change (byte_val DQUOTE) with 0x22. change (byte_val BACKSLASH) with 0x5C.
    change (byte_val LF) with 0x0A. change (byte_val CR) with 0x0D.
    change (byte_val TAB) with 0x09.
    cases; try reflexivity. rewrite AppendRune_valid by (unfold validRune, surrogateMin; lia).
    by rewrite E.
  - assert (escapeRune r = AppendRune r) as ->.
    { unfold escapeRune. cases; unbool; try lia. reflexivity. }
    pose proof (AppendRune_high r) as Hb.
    induction (AppendRune r) as [|c l IH]; [reflexivity|]. simpl.
    rewrite escapeByte_high by (apply Hb; [done|done|apply elem_of_cons; by left]).
    simpl. f_equal. apply IH. intros c' ? ? Hc'. apply Hb; [done|done|].
    apply elem_of_cons. by right.
Qed.

Lemma escape_bytes (v : gostring) :
  flat_map escapeRune (range v) = flat_map escapeByte (WriteRunes (range v)).
Proof.
  pose proof (range_valid v) as Hv. induction Hv as [|r rs Hr _ IH]; [reflexivity|].
  unfold WriteRunes in *. simpl. rewrite flat_map_app, IH, escapeRune_bytes by done.
  reflexivity.
Qed.

(** C2, amended. The value is written in double quotes, escaped character
    by character, exactly when it holds one of space, tab, line feed,
    carriage return, double quote, single quote, ['='], [';'], ['#'], ['['],
    [']']; a backslash alone does not call for quotes, and a value with
    backslashes and none of these characters is written bare, as it is.
    Between the quotes every character of the value is escaped as the
    specification says; valid UTF-8 is copied byte for byte, and a byte that
    is not UTF-8 is written as U+FFFD. *)
Theorem quoting_rule (k v : gostring) :
  writeEntry k v
  = k ++ [EQUALS]
      ++ (if go_strings.ContainsAny v quoteChars
          then [DQUOTE] ++ flat_map escapeByte (WriteRunes (range v)) ++ [DQUOTE]
          else v)
      ++ [LF]
  ∧ (lossless v = true → WriteRunes (range v) = v)
  ∧ (go_strings.ContainsAny v quoteChars = true
     ↔ ∃ c, c ∈ v ∧ c ∈ [SP; TAB; LF; CR; DQUOTE; SQUOTE; EQUALS; SEMI; HASH;
                          LBRACKET; RBRACKET])
  ∧ (go_strings.ContainsAny v quoteChars = false →
     writeEntry k v = k ++ [EQUALS] ++ v ++ [LF])
  ∧ writeEntry (go "k") (go "a\b") = go "k=a\b" ++ [LF]
  ∧ ∀ kvs, writeSection kvs = flat_map (fun kv => writeEntry kv.1 kv.2) kvs.
Proof.
  split; [|split; [|split; [|split; [|split]]]].
  - unfold writeEntry. rewrite escape_bytes.
    destruct (go_strings.ContainsAny v quoteChars); simpl;
      rewrite <- ?app_assoc; simpl; rewrite <- ?app_assoc; reflexivity.
  - unfold lossless. apply bool_decide_eq_true.
  - split.
    + intros H. apply ContainsAny_true in H as (c & Hc & Hv). by exists c.
    + intros (c & Hv & Hc).
      destruct (go_strings.ContainsAny v quoteChars) eqn:E; [done|].
      exfalso. by apply (ContainsAny_false v quoteChars c E).
  - intros H. unfold writeEntry. rewrite H. reflexivity.
  - vm_compute. reflexivity.
  - reflexivity.
Qed.

(** ** Quotes and escape sequences on read *)

(** The switch of the loop writes what the specification says for the
    character after a backslash. *)
Lemma unescape_spec (quote : ascii) (c : Z) :
  unescape quote c = specEscape (byte_val quote) c.
Proof.
  unfold unescape, specEscape.
  destruct (c =? 110); [reflexivity|]. destruct (c =? 114); [reflexivity|].
  destruct (c =? 116); [reflexivity|]. destruct (c =? 92); [reflexivity|].
  destruct ((c =? 34) || (c =? 39)) eqn:E; [|reflexivity]. simpl.
  assert (0 <= c < 256) as Hc.
  { apply orb_true_iff in E as [E|E]; unbool; lia. }
  by rewrite byte_of_eqb.
Qed.

(** The loop with its flag computes the pairwise decoding. *)
Lemma escapeLoop_spec (quote : ascii) (rs : list Z) :
  (∀ b, finishEscapes (fold_left (escapeStep quote) rs (b, false))
        = b ++ WriteRunes (specUnescape (byte_val quote) rs))
  ∧ (∀ b, finishEscapes (fold_left (escapeStep quote) rs (b, true))
          = b ++ WriteRunes (specUnescape (byte_val quote) (0x5C :: rs))).
Proof.
  induction rs as [|c rs [IH1 IH2]]; split; intros b.
  - unfold finishEscapes. simpl. by rewrite app_nil_r.
  - unfold finishEscapes. cbn [fold_left snd fst specUnescape Z.eqb Pos.eqb].
    change (WriteRunes [92]) with (AppendRune 92 ++ []). by rewrite app_nil_r.
  - simpl fold_left. simpl specUnescape.
    destruct (c =? 92) eqn:E.
    + rewrite IH2. reflexivity.
    + rewrite IH1. unfold WriteRunes. simpl. by rewrite <- app_assoc.
  - simpl fold_left. rewrite IH1.
    change (specUnescape (byte_val quote) (92 :: c :: rs))
      with (specEscape (byte_val quote) c ++ specUnescape (byte_val quote) rs).
    rewrite WriteRunes_app, unescape_spec, <- app_assoc. reflexivity.
Qed.

Lemma processEscapes_spec (quote : ascii) (v : gostring) :
  processEscapes quote v = WriteRunes (specUnescape (byte_val quote) (range v)).
Proof.
  unfold processEscapes.
  pose proof (proj1 (escapeLoop_spec quote (range v)) []) as H.
  unfold finishEscapes in H. destruct (fold_left _ _ _) as [b escape]. exact H.
Qed.

Lemma unquote_quoted (q : ascii) (inner : gostring) :
  q = DQUOTE ∨ q = SQUOTE →
  unquote (q :: inner ++ [q])
  = if go_strings.ContainsRune inner BACKSLASH
    then WriteRunes (specUnescape (byte_val q) (range inner))
    else inner.
Proof.
  intros Hq. unfold unquote.
  replace (length (q :: inner ++ [q]) - 1)%nat with (length (q :: inner))
    by (simpl; rewrite length_app; simpl; lia).
  change (q :: inner ++ [q]) with ((q :: inner) ++ [q]) at 3 5.
  rewrite !byte_at_last. change (byte_at (q :: inner ++ [q]) 0) with q.
  rewrite slice_inside, processEscapes_spec.
  destruct (2 <=? len (q :: inner ++ [q])) eqn:E.
  - destruct Hq as [-> | ->]; reflexivity.
  - unfold len in E. simpl in E. rewrite length_app in E. simpl in E. unbool. lia.
Qed.

Lemma unquote_plain (v : gostring) :
  (∀ q inner, v = q :: inner ++ [q] → q ≠ DQUOTE ∧ q ≠ SQUOTE) →
  unquote v = v.
Proof.
  intros H. unfold unquote. destruct (2 <=? len v) eqn:E; [|reflexivity].
  destruct (_ || _) eqn:E2; [|reflexivity]. exfalso. unbool.
  destruct v as [|a t]; [unfold len in E; simpl in E; lia|].
  destruct (decide (t = [])) as [->|Ht]; [unfold len in E; simpl in E; lia|].
  destruct (exists_last Ht) as (m & b & ->).
  replace (length (a :: m ++ [b]) - 1)%nat with (length (a :: m)) in E2
    by (simpl; rewrite length_app; simpl; lia).
  change (a :: m ++ [b]) with ((a :: m) ++ [b]) in E2 at 2 4.
  rewrite !byte_at_last in E2. change (byte_at (a :: m ++ [b]) 0) with a in E2.
  apply orb_true_iff in E2 as [E2|E2]; apply andb_true_iff in E2 as [Ha Hb];
    apply Ascii.eqb_eq in Ha, Hb; subst a b; destruct (H _ _ eq_refl); done.
Qed.

Lemma specUnescape_plain (quote : Z) (rs : list Z) :
  0x5C ∉ rs → specUnescape quote rs = rs.
Proof.
  induction rs as [|c rs IH]; [reflexivity|]. intros H.
  apply not_elem_of_cons in H as [Hc Hrs]. simpl.
  destruct (c =? 92) eqn:E; [unbool; congruence|]. by rewrite IH.
Qed.

(** C3. A trimmed value of at least two characters that starts and ends
    with the same quote loses the two quotes, and its inner text is decoded:
    backslash-n, backslash-r, backslash-t and the double backslash to line
    feed, carriage return, tab and backslash; a backslash before a quote
    character to that quote when it is the enclosing one, otherwise the two
    characters stay; any other pair stays as its two characters; a lone last
    backslash stays.  Any other trimmed value is stored as it is. *)
Theorem escape_decoding (v : gostring) :
  (∀ q inner, v = q :: inner ++ [q] → q = DQUOTE ∨ q = SQUOTE →
     unquote v
     = if go_strings.ContainsRune inner BACKSLASH
       then WriteRunes (specUnescape (byte_val q) (range inner))
       else inner)
  ∧ ((∀ q inner, v = q :: inner ++ [q] → q ≠ DQUOTE ∧ q ≠ SQUOTE) →
     unquote v = v)
  ∧ (∀ quote rs, 0x5C ∉ rs → specUnescape quote rs = rs)
  ∧ (∀ quote rs e, specUnescape quote (0x5C :: e :: rs)
                   = specEscape quote e ++ specUnescape quote rs)
  ∧ (∀ quote, specUnescape quote [0x5C] = [0x5C])
  ∧ (∀ st line k rest,
       go_strings.TrimSpace line = k ++ EQUALS :: rest → EQUALS ∉ k →
       isComment (k ++ EQUALS :: rest) = false →
       isHeader (k ++ EQUALS :: rest) = false →
       ToLower (go_strings.TrimSpace k) ≠ [] →
       readLine st line
       = (assign (advance st line) (ToLower (go_strings.TrimSpace k))
                 (unquote (go_strings.TrimSpace rest)), None))
  ∧ unquote ([DQUOTE] ++ go "a\nb\z\'c\\d\" ++ [DQUOTE; BACKSLASH; DQUOTE])
    = go "a" ++ [LF] ++ go "b\z\'c\d" ++ [DQUOTE; BACKSLASH]
  ∧ unquote (go "'it\'s \" ++ [DQUOTE] ++ go "'") = go "it's \" ++ [DQUOTE]
  ∧ unquote [DQUOTE] = [DQUOTE]
  ∧ unquote (go "'a\b" ++ [DQUOTE]) = go "'a\b" ++ [DQUOTE].
Proof.
  split; [|split; [|split; [|split; [|split; [|split]]]]].
  - intros q inner -> Hq. by apply unquote_quoted.
  - apply unquote_plain.
  - apply specUnescape_plain.
  - reflexivity.
  - reflexivity.
  - intros st line k rest Hl Hk Hc Hh Hne.
    rewrite (readLine_keyValue st line k rest) by done.
    by rewrite bool_decide_eq_false_2.
  - repeat split; vm_compute; reflexivity.
Qed.

(** ** Reading back what was written: one line *)

Lemma TrimSpace_between (a b : ascii) (m : gostring) :
  byte_val a < 0x80 → go_unicode.IsSpace (byte_val a) = false →
  byte_val b < 0x80 → go_unicode.IsSpace (byte_val b) = false →
  go_strings.TrimSpace (a :: m ++ [b]) = a :: m ++ [b].
Proof.
  intros Ha Hsa Hb Hsb. apply TrimSpace_fixed.
  - by rewrite decode_ascii.
  - change (a :: m ++ [b]) with ((a :: m) ++ [b]). by rewrite decodeLast_last_ascii.
Qed.

Lemma last_writtenValue (v : gostring) (b : ascii) :
  last (writtenValue v) = Some b → b = DQUOTE ∨ (b ∈ v ∧ writtenValue v = v
                                   ∧ go_strings.ContainsAny v quoteChars = false).
Proof.
  unfold writtenValue. destruct (go_strings.ContainsAny v quoteChars) eqn:E.
  - rewrite app_assoc, last_snoc. intros [= <-]. by left.
  - intros H. right. split; [|done]. apply last_Some in H as [u ->].
    apply elem_of_app. right. by apply list_elem_of_singleton.
Qed.

Lemma last_entryLine (k v : gostring) (b : ascii) :
  last (entryLine (k, v)) = Some b →
  b = EQUALS ∨ b = DQUOTE ∨ (b ∈ v ∧ go_strings.ContainsAny v quoteChars = false).
Proof.
  unfold entryLine. simpl. rewrite last_app. simpl.
  destruct (writtenValue v) as [|c w] eqn:E.
  - intros [= <-]. by left.
  - rewrite <- E. change (last (EQUALS :: writtenValue v)) with
      (match writtenValue v with [] => Some EQUALS | _ => last (writtenValue v) end).
    rewrite E, <- E. intros H. right.
    destruct (last (writtenValue v)) as [b'|] eqn:El.
    + injection H as ->. apply last_writtenValue in El as [?|(? & _ & ?)]; auto.
    + apply last_None in El. congruence.
Qed.

Lemma isHeader_last (l : gostring) : isHeader l = true → last l = Some RBRACKET.
Proof.
  intros H. apply isHeader_shape in H as [m ->].
  change (LBRACKET :: m ++ [RBRACKET]) with ((LBRACKET :: m) ++ [RBRACKET]).
  apply last_snoc.
Qed.

Lemma dropCR_keep (l : gostring) : last l ≠ Some CR → go_bufio.dropCR l = l.
Proof.
  intros H. unfold go_bufio.dropCR. destruct (reverse l) as [|c r] eqn:E; [done|].
  destruct (Ascii.eqb_spec c CR) as [->|_]; [|done]. exfalso. apply H.
  apply (f_equal reverse) in E. rewrite reverse_involutive, reverse_cons in E.
  rewrite E. apply last_snoc.
Qed.

(** The written form of a rune, as runes. *)
Lemma escapeRune_runes (r : Z) : escapeRune r = WriteRunes (escapedRunes r).
Proof.
  unfold escapeRune, escapedRunes. cases; try reflexivity.
  unfold WriteRunes. simpl. by rewrite app_nil_r.
Qed.

Lemma escaped_runes (rs : list Z) :
  flat_map escapeRune rs = WriteRunes (flat_map escapedRunes rs).
Proof.
  induction rs as [|r rs IH]; [reflexivity|]. simpl.
  by rewrite WriteRunes_app, IH, escapeRune_runes.
Qed.

Lemma escapedRunes_valid (rs : list Z) :
  Forall validRune rs → Forall validRune (flat_map escapedRunes rs).
Proof.
  induction 1 as [|r rs Hr _ IH]; [constructor|]. simpl. apply Forall_app. split; [|done].
  unfold escapedRunes.
  cases; repeat (apply Forall_cons; split; [first [exact Hr|unfold validRune, surrogateMin; lia]|]);
    apply Forall_nil_2.
Qed.

(** Decoding undoes the escaping. *)
Lemma specUnescape_escaped (rs : list Z) :
  specUnescape 0x22 (flat_map escapedRunes rs) = rs.
Proof.
  induction rs as [|r rs IH]; [reflexivity|]. simpl. unfold escapedRunes at 1.
  destruct (r =? 34) eqn:E1; [unbool; subst r; simpl; by rewrite IH|].
  destruct (r =? 92) eqn:E2; [unbool; subst r; simpl; by rewrite IH|].
  destruct (r =? 10) eqn:E3; [unbool; subst r; simpl; by rewrite IH|].
  destruct (r =? 13) eqn:E4; [unbool; subst r; simpl; by rewrite IH|].
  destruct (r =? 9) eqn:E5; [unbool; subst r; simpl; by rewrite IH|].
  simpl. rewrite E2, IH. reflexivity.
Qed.

Lemma escapedRunes_plain (rs : list Z) :
  0x5C ∉ flat_map escapedRunes rs → flat_map escapedRunes rs = rs.
Proof.
  induction rs as [|r rs IH]; [reflexivity|]. simpl. intros H.
  apply not_elem_of_app in H as [H1 H2]. rewrite IH by done.
  revert H1. unfold escapedRunes. cases; try reflexivity; intros H1; exfalso; apply H1;
    apply elem_of_cons; by left.
Qed.

Lemma WriteRunes_backslash (rs : list Z) :
  0x5C ∈ rs → BACKSLASH ∈ WriteRunes rs.
Proof.
  induction rs as [|r rs IH]; [by intros ?%elem_of_nil|].
  intros [<-|H]%elem_of_cons.
  - change (WriteRunes (92 :: rs)) with (BACKSLASH :: WriteRunes rs).
    apply elem_of_cons. by left.
  - change (WriteRunes (r :: rs)) with (AppendRune r ++ WriteRunes rs).
    apply elem_of_app. right. by apply IH.
Qed.

Lemma ContainsRune_false (s : gostring) (c : ascii) :
  go_strings.ContainsRune s c = false → c ∉ s.
Proof.
  unfold go_strings.ContainsRune. intros H. unbool. apply IndexByte_none. lia.
Qed.

(** Reading the written value gives the value back. *)
Lemma unquote_written (v : gostring) :
  valueOK v → unquote (writtenValue v) = v.
Proof.
  unfold valueOK, writtenValue. destruct (go_strings.ContainsAny v quoteChars) eqn:E.
  - intros Hv. apply bool_decide_eq_true in Hv.
    change ([DQUOTE] ++ flat_map escapeRune (range v) ++ [DQUOTE])
      with (DQUOTE :: flat_map escapeRune (range v) ++ [DQUOTE]).
    rewrite unquote_quoted by (by left).
    pose proof (range_valid v) as Hval.
    rewrite escaped_runes.
    destruct (go_strings.ContainsRune _ BACKSLASH) eqn:Eb.
    + rewrite <- (app_nil_r (WriteRunes (flat_map escapedRunes (range v)))).
      rewrite range_WriteRunes by (by apply escapedRunes_valid).
      rewrite app_nil_r. change (byte_val DQUOTE) with 0x22.
      by rewrite specUnescape_escaped.
    + apply ContainsRune_false in Eb. rewrite escapedRunes_plain; [done|].
      intros H. apply Eb. by apply WriteRunes_backslash.
  - intros _. apply unquote_plain. intros q inner -> .
    split; intros ->; eapply (ContainsAny_false _ _ _ E);
      try (apply elem_of_cons; by left); unfold quoteChars; set_solver.
Qed.

Lemma writtenValue_trim (v : gostring) :
  valueOK v →
  go_strings.TrimSpace (writtenValue v) = writtenValue v
  ∧ (writtenValue v = []
     ∨ go_unicode.IsSpace (DecodeLastRuneInString (writtenValue v)).1 = false).
Proof.
  unfold valueOK, writtenValue. destruct (go_strings.ContainsAny v quoteChars).
  - intros _. split.
    + by apply TrimSpace_between.
    + right. rewrite app_assoc. by rewrite decodeLast_last_ascii.
  - intros Hv. split; [done|]. destruct (decide (v = [])) as [|Hne]; [by left|].
    right. by apply TrimSpace_fixed_inv.
Qed.

Lemma TrimSpace_entryLine (k v : gostring) :
  keyOK k → valueOK v →
  go_strings.TrimSpace (entryLine (k, v)) = entryLine (k, v).
Proof.
  intros ((Hne & _ & Htrim & _) & _) Hv. unfold entryLine. simpl.
  apply TrimSpace_fixed.
  - rewrite decode_app_ascii by done. by apply TrimSpace_fixed_inv.
  - destruct (decide (writtenValue v = [])) as [Hw|Hw].
    + rewrite Hw. by rewrite decodeLast_last_ascii.
    + rewrite decodeLast_app_ascii by done.
      by destruct (writtenValue_trim v Hv) as [_ [?|?]].
Qed.

(** An entry line is read as the entry it was written from. *)
Lemma readLine_entryLine (st : parser) (k v : gostring) :
  keyOK k → valueOK v →
  readLine st (entryLine (k, v)) = (assign (advance st (entryLine (k, v))) k v, None).
Proof.
  intros Hk Hv. pose proof (TrimSpace_entryLine k v Hk Hv) as Htrim.
  destruct Hk as ((Hne & HLF & Hktrim & Hlow) & Heq & Hsemi & Hhash).
  rewrite (readLine_keyValue st _ k (writtenValue v)); [|done|done| |].
  - rewrite Hktrim, Hlow. rewrite bool_decide_eq_false_2 by done.
    destruct (writtenValue_trim v Hv) as [-> _]. by rewrite unquote_written.
  - unfold isComment. destruct k as [|c k]; [done|].
    change (byte_at ((c :: k) ++ EQUALS :: writtenValue v) 0) with c.
    change (byte_at (c :: k) 0) with c in Hsemi, Hhash.
    destruct (Ascii.eqb_spec c SEMI); [done|]. destruct (Ascii.eqb_spec c HASH); [done|].
    by rewrite andb_false_r.
  - destruct (isHeader _) eqn:E; [|done]. exfalso.
    apply isHeader_last in E.
    apply (last_entryLine k v) in E as [E|[E|[E1 E2]]]; try discriminate E.
    eapply (ContainsAny_false _ _ _ E2); [|done]. unfold quoteChars. set_solver.
Qed.

Lemma readLine_blank (st : parser) : readLine st [] = (advance st [], None).
Proof. reflexivity. Qed.

(** A header line switches to the section it names. *)
Lemma readLine_headerLine (st : parser) (n : gostring) :
  nameOK n →
  readLine st (headerLine n)
  = (mkParser (doc st) n None (lineNum st + 1)
              (bytesRead (advance st (headerLine n))), None).
Proof.
  intros (Hne & _ & Htrim & Hlow). unfold readLine, headerLine.
  rewrite TrimSpace_between by done.
  destruct (len _ =? 0) eqn:E; [unfold len in E; simpl in E; unbool; lia|].
  change (isComment (LBRACKET :: n ++ [RBRACKET])) with false. cbv iota.
  rewrite (proj2 (isHeader_shape _)) by eauto.
  rewrite slice_inside, Htrim, Hlow. by rewrite bool_decide_eq_false_2.
Qed.

Lemma plainLine_nil : plainLine [].
Proof. split; [apply not_elem_of_nil|]. split; reflexivity. Qed.

Lemma plainLine_header (n : gostring) :
  LF ∉ n → len (headerLine n) < maxTokenSize → plainLine (headerLine n).
Proof.
  intros Hn Hlen. split; [|split; [|done]].
  - unfold headerLine. rewrite not_elem_of_cons, not_elem_of_app.
    split; [done|]. split; [done|]. rewrite not_elem_of_cons.
    split; [done|apply not_elem_of_nil].
  - apply dropCR_keep. unfold headerLine.
    change (LBRACKET :: n ++ [RBRACKET]) with ((LBRACKET :: n) ++ [RBRACKET]).
    by rewrite last_snoc.
Qed.

Lemma plainLine_entry (k v : gostring) :
  LF ∉ k → len (entryLine (k, v)) < maxTokenSize → plainLine (entryLine (k, v)).
Proof.
  intros Hk Hlen. pose proof (writtenValue_noEOL v) as [HLF HCR].
  split; [|split; [|done]].
  - unfold entryLine. simpl. rewrite not_elem_of_app, not_elem_of_cons. done.
  - apply dropCR_keep. intros H. apply last_entryLine in H as [H|[H|[H1 H2]]];
      try discriminate H.
    eapply (ContainsAny_false _ _ _ H2); [|done]. unfold quoteChars. set_solver.
Qed.

(** The scanner hands plain lines over as they were written. *)
Lemma Scan_plain (ls : list gostring) :
  Forall plainLine ls →
  go_bufio.Scan maxTokenSize (joinLines ls) = (ls, None).
Proof.
  intros H. unfold go_bufio.Scan.
  rewrite <- (app_nil_r (joinLines ls)), splitLines_join, app_nil_r.
  - induction H as [|l ls (_ & Hcr & Hlen) _ IH]; [reflexivity|]. simpl.
    unfold len in Hlen. apply Z.ltb_lt in Hlen. rewrite Hlen, IH, Hcr. reflexivity.
  - eapply Forall_impl; [exact H|]. by intros l (? & _).
Qed.

(** ** Reading back what was written: sections and documents *)

Lemma alter_insert_put (d : Ini) (n k v : gostring) :
  is_Some (d !! n) → alter (insert k v) n d = put d n k v.
Proof.
  intros [m Hm]. unfold put. rewrite Hm. simpl. apply map_eq. intros n'.
  destruct (decide (n' = n)) as [->|Hne].
  - by rewrite lookup_alter_eq, lookup_insert_eq, Hm.
  - by rewrite lookup_alter_ne, lookup_insert_ne.
Qed.

Lemma assign_put (st : parser) (k v : gostring) :
  aligned st →
  doc (assign st k v) = put (doc st) (section st) k v
  ∧ section (assign st k v) = section st
  ∧ aligned (assign st k v).
Proof.
  intros [Hsm | [Hsm Hin]]; unfold assign; rewrite Hsm.
  - destruct (doc st !! section st) as [m|] eqn:E; simpl.
    + rewrite alter_insert_put by eauto. repeat split. right. simpl. split; [done|].
      unfold put. rewrite lookup_insert_eq. eauto.
    + assert (alter (insert k v) (section st) (<[section st:=∅]> (doc st))
              = put (doc st) (section st) k v) as ->.
      { unfold put. rewrite E. simpl. apply map_eq. intros n'.
        destruct (decide (n' = section st)) as [->|Hne].
        - by rewrite lookup_alter_eq, !lookup_insert_eq.
        - by rewrite lookup_alter_ne, !lookup_insert_ne. }
      repeat split. right. simpl. split; [done|].
      unfold put. rewrite lookup_insert_eq. eauto.
  - simpl. rewrite alter_insert_put by done. repeat split. right. simpl. split; [done|].
    unfold put. rewrite lookup_insert_eq. eauto.
Qed.

Lemma readLines_entries (kvs : list (gostring * gostring)) (st : parser) :
  aligned st →
  Forall (fun kv => keyOK kv.1 ∧ valueOK kv.2) kvs →
  ∃ st', readLines st (map entryLine kvs) = (st', None)
         ∧ section st' = section st
         ∧ doc st' = putAll (doc st) (section st) kvs
         ∧ aligned st'.
Proof.
  intros Hal H. revert st Hal. induction H as [|[k v] kvs [Hk Hv] _ IH]; intros st Hal.
  - exists st. done.
  - simpl map. simpl readLines. rewrite readLine_entryLine by done.
    destruct (assign_put (advance st (entryLine (k, v))) k v Hal) as (Hd & Hs & Hal').
    destruct (IH _ Hal') as (st' & Hr & Hs' & Hd' & Hal'').
    exists st'. rewrite Hr. split; [done|]. split; [by rewrite Hs', Hs|].
    split; [|done]. rewrite Hd', Hs, Hd. reflexivity.
Qed.

Lemma readLines_visits
    (visits : list (gostring * Section_ * list (gostring * gostring))) (st : parser) :
  Forall (fun v => nameOK v.1.1 ∧ Forall (fun kv => keyOK kv.1 ∧ valueOK kv.2) v.2) visits →
  ∃ st', readLines st (flat_map otherLines visits) = (st', None)
         ∧ doc st' = fold_left mergeVisit visits (doc st).
Proof.
  intros H. revert st. induction H as [|[[n m] kvs] visits [Hn Hkvs] _ IH]; intros st.
  - exists st. done.
  - simpl flat_map. simpl fold_left. simpl in Hn, Hkvs.
    destruct (bool_decide (n = root) || (size m =? 0)%nat) eqn:E.
    + simpl. apply IH.
    + set (st1 := mkParser (doc st) n None (lineNum st + 1)
                           (bytesRead (advance st (headerLine n)))).
      destruct (readLines_entries kvs st1 (or_introl eq_refl) Hkvs)
        as (st2 & Hr2 & Hs2 & Hd2 & _).
      destruct (IH (advance st2 [])) as (st3 & Hr3 & Hd3).
      exists st3. split.
      * change ((headerLine n :: map entryLine kvs ++ [[]]) ++ flat_map otherLines visits)
          with (headerLine n :: (map entryLine kvs ++ [[]]) ++ flat_map otherLines visits).
        simpl readLines. rewrite readLine_headerLine by done. fold st1.
        rewrite <- app_assoc. rewrite (readLines_app _ _ _ _ Hr2).
        simpl. exact Hr3.
      * rewrite Hd3. simpl. rewrite Hd2. reflexivity.
Qed.

Lemma put_lookup (d : Ini) (n k v : gostring) :
  put d n k v !! n = Some (<[k := v]> (default ∅ (d !! n))).
Proof. unfold put. apply lookup_insert_eq. Qed.

Lemma put_lookup_ne (d : Ini) (n k v n' : gostring) :
  n' ≠ n → put d n k v !! n' = d !! n'.
Proof. intros H. unfold put. by rewrite lookup_insert_ne. Qed.

Lemma putAll_lookup_ne (kvs : list (gostring * gostring)) (d : Ini) (n n' : gostring) :
  n' ≠ n → putAll d n kvs !! n' = d !! n'.
Proof.
  intros Hne. unfold putAll. revert d. induction kvs as [|[k v] kvs IH]; intros d; [done|].
  simpl. rewrite IH. by apply put_lookup_ne.
Qed.

Lemma putAll_lookup (kvs : list (gostring * gostring)) (d : Ini) (n : gostring) :
  kvs ≠ [] →
  putAll d n kvs !! n
  = Some (fold_left (fun m kv => <[kv.1 := kv.2]> m) kvs (default ∅ (d !! n))).
Proof.
  unfold putAll. revert d. induction kvs as [|[k v] kvs IH]; intros d Hne; [done|].
  simpl. destruct kvs as [|kv kvs].
  - simpl. apply put_lookup.
  - rewrite IH by done. by rewrite put_lookup.
Qed.

(** Storing the entries of a map in any order gives the map. *)
Lemma fold_insert_ranges (m : Section_) (kvs : list (gostring * gostring)) :
  ranges m kvs →
  fold_left (fun m kv => <[kv.1 := kv.2]> m) kvs ∅ = m.
Proof.
  unfold ranges. intros H.
  rewrite <- fold_left_rev_right.
  assert (∀ l : list (gostring * gostring),
            fold_right (fun y x => <[y.1 := y.2]> x) ∅ l = (list_to_map l : Section_)) as Hl.
  { induction l as [|[k v] l IHl]; [done|]. simpl. by rewrite IHl. }
  rewrite Hl. transitivity (list_to_map (map_to_list m) : Section_);
    [|apply list_to_map_to_list].
  symmetry. apply list_to_map_proper.
  - apply NoDup_fst_map_to_list.
  - rewrite <- H. apply Permutation_rev.
Qed.

Lemma ranges_nonempty (m : Section_) (kvs : list (gostring * gostring)) :
  ranges m kvs → m ≠ ∅ → kvs ≠ [].
Proof.
  unfold ranges. intros H Hm ->. apply Permutation_nil in H.
  by apply map_to_list_empty_iff in H.
Qed.

(** Reading the visits of [WriteTo] one after the other rebuilds every
    section but root, and touches nothing else. *)
Lemma merge_lookup
    (visits : list (gostring * Section_ * list (gostring * gostring))) (d : Ini) :
  NoDup (visits.*1.*1) →
  Forall (fun v => ranges v.1.2 v.2 ∧ v.1.2 ≠ ∅) visits →
  (∀ v, v ∈ visits → v.1.1 ≠ root → d !! v.1.1 = None) →
  (∀ n m kvs, (n, m, kvs) ∈ visits → n ≠ root →
              fold_left mergeVisit visits d !! n = Some m)
  ∧ (∀ n, n = root ∨ n ∉ visits.*1.*1 →
          fold_left mergeVisit visits d !! n = d !! n).
Proof.
  intros Hnd H. revert d Hnd.
  induction H as [|[[n0 m0] kvs0] visits [Hr0 Hm0] _ IH]; intros d Hnd Hfresh.
  { split; [by intros ? ? ? ?%elem_of_nil|done]. }
  simpl in Hr0, Hm0. simpl in Hnd. apply NoDup_cons in Hnd as [Hn0 Hnd].
  assert (Hd' : ∀ n, n ≠ n0 ∨ n = root → mergeVisit d (n0, m0, kvs0) !! n = d !! n).
  { intros n Hn. simpl. destruct (bool_decide (n0 = root)) eqn:E; [done|].
    apply bool_decide_eq_false in E.
    destruct (size m0 =? 0)%nat; simpl; [done|].
    apply putAll_lookup_ne. destruct Hn as [?| ->]; congruence. }
  destruct (IH (mergeVisit d (n0, m0, kvs0)) Hnd) as [IHa IHb].
  { intros v Hv Hvr. rewrite Hd'.
    - apply Hfresh; [|done]. apply elem_of_cons. by right.
    - left. intros Heq. apply Hn0. rewrite <- Heq.
      apply list_elem_of_fmap. exists v.1. split; [done|].
      apply list_elem_of_fmap. by exists v. }
  simpl fold_left. split.
  - intros n m kvs Hin Hnr. apply elem_of_cons in Hin as [Heq|Hin]; [|by apply (IHa n m kvs)].
    injection Heq as -> -> ->.
    rewrite IHb by (by right). simpl.
    rewrite bool_decide_eq_false_2 by done.
    assert (size m0 ≠ 0%nat) as Hsz by (by rewrite map_size_empty_iff).
    destruct (size m0 =? 0)%nat eqn:E; [unbool; lia|]. simpl.
    rewrite putAll_lookup by (by eapply ranges_nonempty).
    pose proof (Hfresh (n0, m0, kvs0)) as Hf. simpl in Hf.
    rewrite Hf; [|apply elem_of_cons; by left|done].
    simpl. by rewrite (fold_insert_ranges m0).
  - intros n Hn. rewrite IHb.
    + apply Hd'. destruct Hn as [->|Hn]; [by right|]. left. intros ->.
      apply Hn. simpl. apply elem_of_cons. by left.
    + destruct Hn as [->|Hn]; [by left|]. right. intros Hin. apply Hn.
      simpl. apply elem_of_cons. by right.
Qed.

Lemma visits_lookup (i : Ini)
    (visits : list (gostring * Section_ * list (gostring * gostring)))
    (n : gostring) (m : Section_) (kvs : list (gostring * gostring)) :
  ranges i (visits.*1) → (n, m, kvs) ∈ visits → i !! n = Some m.
Proof.
  intros Hvis Hin. apply (ranges_lookup i _ n m Hvis).
  apply list_elem_of_fmap. by exists (n, m, kvs).
Qed.

Lemma visits_NoDup (i : Ini)
    (visits : list (gostring * Section_ * list (gostring * gostring))) :
  ranges i (visits.*1) → NoDup (visits.*1.*1).
Proof.
  unfold ranges. intros ->. apply NoDup_fst_map_to_list.
Qed.

Lemma entries_ok (i : Ini) (n : gostring) (m : Section_)
    (kvs : list (gostring * gostring)) :
  roundTrips i → i !! n = Some m → ranges m kvs →
  Forall (fun kv => keyOK kv.1 ∧ valueOK kv.2) kvs
  ∧ Forall plainLine (map entryLine kvs).
Proof.
  intros [_ Hok] Hn Hr. destruct (Hok n m Hn) as (_ & _ & Hkv).
  split; [|apply Forall_fmap]; apply Forall_forall; intros [k v] Hin;
    apply (ranges_lookup m kvs k v Hr) in Hin;
    destruct (Hkv k v Hin) as (Hk & Hv & Hlen); [done|].
  apply plainLine_entry; [|done]. by destruct Hk as ((_ & ? & _) & _).
Qed.

(** C1, amended. A document with a key in every section, whose section
    names and keys are not empty, hold no line feed, and are left as they
    are by [TrimSpace] and by [ToLower], whose keys hold no ['='] and do not
    start with [';'] or ['#'], whose values either hold one of the characters
    that call for quotes and are valid UTF-8, or hold none and neither start
    nor end with white space, and whose written lines are shorter than the
    scanner's buffer: whatever [WriteTo] writes for it, in whatever order,
    [ReadFrom] reads into an empty document without error, and the document
    read is the one written. *)
Theorem round_trip (i : Ini) (out : gostring) (cnt : Z) :
  roundTrips i →
  WriteTo i out cnt →
  ∃ n, ReadFrom New out = (i, n, None).
Proof.
  intros Hrt (rootOrder & visits & Hroot & Hvis & Hkvs & -> & _).
  pose proof Hrt as [Hne Hok]. rewrite Forall_forall in Hkvs.
  rewrite content_lines.
  assert (Hplain : Forall plainLine (emitted i rootOrder visits)).
  { unfold emitted. apply Forall_app. split.
    - unfold rootLines. destruct (i !! root) as [mr|] eqn:Er; [|constructor].
      destruct (0 <? size mr)%nat; [|constructor].
      apply Forall_app. split.
      + by apply (entries_ok i root mr rootOrder Hrt Er (Hroot mr eq_refl)).
      + constructor; [apply plainLine_nil|constructor].
    - apply Forall_flat_map, Forall_forall. intros [[n m] kvs] Hin. simpl.
      destruct (bool_decide (n = root) || (size m =? 0)%nat); [constructor|].
      pose proof (visits_lookup i visits n m kvs Hvis Hin) as Hn.
      destruct (Hok n m Hn) as ((_ & HLF & _) & Hlen & _).
      constructor; [by apply plainLine_header|].
      apply Forall_app. split.
      + by apply (entries_ok i n m kvs Hrt Hn (Hkvs _ Hin)).
      + constructor; [apply plainLine_nil|constructor]. }
  rewrite (ReadFrom_lines New _ _ (Scan_plain _ Hplain)).
  (* the root section *)
  assert (∃ st1, readLines (start New) (rootLines i rootOrder) = (st1, None)
                 ∧ doc st1 !! root = i !! root
                 ∧ ∀ n, n ≠ root → doc st1 !! n = None) as (st1 & Hr1 & Hd1 & Hd1').
  { unfold rootLines. destruct (i !! root) as [mr|] eqn:Er.
    - assert (size mr ≠ 0%nat) as Hsz by (rewrite map_size_empty_iff; by eapply Hne).
      destruct (0 <? size mr)%nat eqn:E; [|unbool; lia].
      destruct (readLines_entries rootOrder (start New) (or_introl eq_refl))
        as (st1 & Hr & _ & Hd & _).
      { by apply (entries_ok i root mr rootOrder Hrt Er (Hroot mr eq_refl)). }
      exists (advance st1 []). split; [|split].
      + by rewrite (readLines_app _ _ _ _ Hr).
      + simpl. rewrite Hd. simpl.
        rewrite putAll_lookup
          by (eapply ranges_nonempty; [by apply (Hroot mr eq_refl)|by eapply Hne]).
        unfold New. rewrite lookup_empty. simpl.
        by rewrite (fold_insert_ranges mr) by (by apply (Hroot mr eq_refl)).
      + intros n Hn. simpl. rewrite Hd. simpl.
        by rewrite putAll_lookup_ne by done.
    - exists (start New). split; [done|]. split; [done|]. intros n _. apply lookup_empty. }
  (* the other sections *)
  destruct (readLines_visits visits st1) as (st2 & Hr2 & Hd2).
  { apply Forall_forall. intros [[n m] kvs] Hin. simpl.
    pose proof (visits_lookup i visits n m kvs Hvis Hin) as Hn.
    destruct (Hok n m Hn) as (Hname & _). split; [done|].
    by apply (entries_ok i n m kvs Hrt Hn (Hkvs _ Hin)). }
  unfold emitted. rewrite (readLines_app _ _ _ _ Hr1), Hr2.
  exists (bytesRead st2). f_equal. f_equal.
  destruct (merge_lookup visits (doc st1)) as [Ha Hb].
  { by apply (visits_NoDup i). }
  { apply Forall_forall. intros [[n m] kvs] Hin. simpl. split; [by apply (Hkvs _ Hin)|].
    eapply Hne. by apply (visits_lookup i visits n m kvs Hvis Hin). }
  { intros [[n m] kvs] _ Hnr. by apply Hd1'. }
  rewrite Hd2. apply map_eq. intros n.
  destruct (decide (n = root)) as [->|Hnr].
  - rewrite Hb by (by left). done.
  - destruct (i !! n) as [m|] eqn:En.
    + apply (ranges_lookup i _ n m Hvis) in En.
      apply list_elem_of_fmap in En as ([[n' m'] kvs] & [= <- <-] & Hin).
      by apply (Ha n m kvs).
    + rewrite Hb; [by apply Hd1'|]. right. intros Hin.
      apply list_elem_of_fmap in Hin as ([n' m] & -> & Hin).
      apply (ranges_lookup i _ n' m Hvis) in Hin. simpl in En. congruence.
Qed.


(** * Further properties of the package *)

(** ** Set, Unset and Get *)

Lemma Set_put (i : Ini) (s k v : gostring) :
  Set_ i s k v = put i (ToLower s) (ToLower k) v.
Proof.
  apply map_eq. intros n. destruct (decide (n = ToLower s)) as [->|Hn].
  - by rewrite Set_lookup, put_lookup.
  - by rewrite Set_lookup_ne, put_lookup_ne.
Qed.

Lemma Unset_lookup (i : Ini) (s k : gostring) :
  Unset i s k !! ToLower s
  = match i !! ToLower s with
    | Some m => if decide (delete (ToLower k) m = ∅) then None
                else Some (delete (ToLower k) m)
    | None => None
    end.
Proof.
  unfold Unset. destruct (i !! ToLower s) as [m|] eqn:E; [|done].
  destruct (decide (delete (ToLower k) m = ∅)) as [He|He].
  - rewrite He, map_size_empty. simpl. apply lookup_delete_eq.
  - destruct (size (delete (ToLower k) m)) as [|sz] eqn:Hsz.
    + by apply map_size_empty_iff in Hsz.
    + simpl. by rewrite lookup_alter_eq, E.
Qed.

Lemma Unset_lookup_ne (i : Ini) (s k n : gostring) :
  n ≠ ToLower s → Unset i s k !! n = i !! n.
Proof.
  intros Hn. unfold Unset. destruct (i !! ToLower s) as [m|] eqn:E; [|done].
  destruct (size (delete (ToLower k) m) =? 0)%nat.
  - by rewrite lookup_delete_ne, lookup_alter_ne.
  - by rewrite lookup_alter_ne.
Qed.

(** X1. [Set] changes one entry: [Get] of any other pair of names, one
    whose lower-cased section or lower-cased key differs, returns what it
    returned before. *)
Theorem Set_frame (i : Ini) (s k v s' k' : gostring) :
  ToLower s' ≠ ToLower s ∨ ToLower k' ≠ ToLower k →
  Get (Set_ i s k v) s' k' = Get i s' k'.
Proof.
  intros H. unfold Get.
  destruct (decide (ToLower s' = ToLower s)) as [Hs|Hs].
  - destruct H as [H|Hk]; [done|]. rewrite Hs, Set_lookup.
    rewrite lookup_insert_ne by done.
    destruct (i !! ToLower s); [done|]. simpl. by rewrite lookup_empty.
  - by rewrite Set_lookup_ne.
Qed.

(** X2. After [Unset(s, k)], [Get] finds nothing under any spelling of the
    two names, and [GetDefault] returns the default. *)
Theorem Get_after_Unset (i : Ini) (s k s' k' d : gostring) :
  ToLower s' = ToLower s →
  ToLower k' = ToLower k →
  Get (Unset i s k) s' k' = ([], false)
  ∧ GetDefault (Unset i s k) s' k' d = d.
Proof.
  intros Hs Hk.
  assert (H : Get (Unset i s k) s' k' = ([], false)).
  { unfold Get. rewrite Hs, Hk, Unset_lookup.
    destruct (i !! ToLower s) as [m|]; [|done].
    destruct (decide (delete (ToLower k) m = ∅)); [done|].
    by rewrite lookup_delete_eq. }
  split; [done|]. unfold GetDefault. by rewrite H.
Qed.

(** X3. [Unset] removes one entry: [Get] of any other pair of names returns
    what it returned before, also when the section goes with its last key. *)
Theorem Unset_frame (i : Ini) (s k s' k' : gostring) :
  ToLower s' ≠ ToLower s ∨ ToLower k' ≠ ToLower k →
  Get (Unset i s k) s' k' = Get i s' k'.
Proof.
  intros H. unfold Get.
  destruct (decide (ToLower s' = ToLower s)) as [Hs|Hs].
  - destruct H as [H|Hk]; [done|]. rewrite Hs, Unset_lookup.
    destruct (i !! ToLower s) as [m|]; [|done].
    destruct (decide (delete (ToLower k) m = ∅)) as [He|He].
    + assert (m !! ToLower k' = None) as ->; [|done].
      rewrite <- (lookup_delete_ne m (ToLower k) (ToLower k')) by done.
      by rewrite He, lookup_empty.
    + by rewrite lookup_delete_ne.
  - by rewrite Unset_lookup_ne.
Qed.

Lemma put_put (d : Ini) (n k v1 v2 : gostring) :
  put (put d n k v1) n k v2 = put d n k v2.
Proof.
  unfold put. rewrite lookup_insert_eq. simpl.
  by rewrite insert_insert_eq, insert_insert_eq.
Qed.

Lemma put_comm (d : Ini) (n1 k1 v1 n2 k2 v2 : gostring) :
  n1 ≠ n2 ∨ k1 ≠ k2 →
  put (put d n1 k1 v1) n2 k2 v2 = put (put d n2 k2 v2) n1 k1 v1.
Proof.
  intros H. unfold put. destruct (decide (n1 = n2)) as [->|Hn].
  - destruct H as [H|Hk]; [done|].
    rewrite !lookup_insert_eq, !insert_insert_eq. simpl.
    f_equal. by apply insert_insert_ne.
  - rewrite !lookup_insert_ne by done. by apply insert_insert_ne.
Qed.

(** X4. The last [Set] of a pair of names wins, whatever the spelling:
    an earlier [Set] of the same lower-cased names leaves no trace. *)
Theorem Set_overwrites (i : Ini) (s k v1 s' k' v2 : gostring) :
  ToLower s' = ToLower s →
  ToLower k' = ToLower k →
  Set_ (Set_ i s k v1) s' k' v2 = Set_ i s k v2.
Proof.
  intros Hs Hk. rewrite !Set_put, Hs, Hk. apply put_put.
Qed.

(** X5. Two [Set] calls on different entries commute. *)
Theorem Set_commutes (i : Ini) (s1 k1 v1 s2 k2 v2 : gostring) :
  ToLower s1 ≠ ToLower s2 ∨ ToLower k1 ≠ ToLower k2 →
  Set_ (Set_ i s1 k1 v1) s2 k2 v2 = Set_ (Set_ i s2 k2 v2) s1 k1 v1.
Proof.
  intros H. rewrite !Set_put. by apply put_comm.
Qed.

(** X6. [Unset] undoes [Set]: on a document in which every section has a
    key, setting a key that [Get] does not find and unsetting it gives the
    document back, the section made for it included. *)
Theorem Unset_after_Set (i : Ini) (s k v s' k' : gostring) :
  nonempty_sections i →
  (Get i s k).2 = false →
  ToLower s' = ToLower s →
  ToLower k' = ToLower k →
  Unset (Set_ i s k v) s' k' = i.
Proof.
  intros Hne Hget Hs Hk. apply map_eq. intros n.
  assert (Hk0 : default ∅ (i !! ToLower s) !! ToLower k = None).
  { unfold Get in Hget. destruct (i !! ToLower s) as [m|]; [|done].
    simpl. by destruct (m !! ToLower k). }
  destruct (decide (n = ToLower s)) as [->|Hn].
  - rewrite <- Hs at 1. rewrite Unset_lookup, Hs, Hk, Set_lookup.
    rewrite delete_insert_eq, delete_id by done.
    destruct (i !! ToLower s) as [m|] eqn:E; simpl.
    + destruct (decide (m = ∅)) as [->|_]; [|done]. by apply Hne in E.
    + by destruct (decide _).
  - rewrite Unset_lookup_ne by congruence. by rewrite Set_lookup_ne.
Qed.

(** X7. [Unset] twice is [Unset] once. *)
Theorem Unset_idempotent (i : Ini) (s k s' k' : gostring) :
  ToLower s' = ToLower s →
  ToLower k' = ToLower k →
  Unset (Unset i s k) s' k' = Unset i s k.
Proof.
  intros Hs Hk. apply map_eq. intros n.
  destruct (decide (n = ToLower s)) as [->|Hn].
  - rewrite <- Hs at 1. rewrite Unset_lookup, Hs, Hk, Unset_lookup.
    destruct (i !! ToLower s) as [m|]; [|done].
    destruct (decide (delete (ToLower k) m = ∅)) as [He|He]; [done|].
    rewrite delete_delete_eq. by destruct (decide _).
  - rewrite Unset_lookup_ne by congruence. done.
Qed.

(** X8. [GetDefault] tells a stored value from a missing one: after
    [Set(s, k, v)] it returns [v], the empty string included, and the
    default only when [Get] finds nothing. *)
Theorem GetDefault_stored (i : Ini) (s k v s' k' d : gostring) :
  (ToLower s' = ToLower s → ToLower k' = ToLower k →
   GetDefault (Set_ i s k v) s' k' d = v)
  ∧ ((Get i s k).2 = false → GetDefault i s k d = d)
  ∧ ((Get i s k).2 = true → GetDefault i s k d = (Get i s k).1).
Proof.
  split; [|split].
  - intros Hs Hk. unfold GetDefault, Get.
    by rewrite Hs, Hk, Set_lookup, lookup_insert_eq.
  - unfold GetDefault. destruct (Get i s k) as [r ok]. simpl. by intros ->.
  - unfold GetDefault. destruct (Get i s k) as [r ok]. simpl. by intros ->.
Qed.


(** ** Sections, Keys and HasSection *)

Lemma appendNames_fst {V : Type} (order : list (gostring * V)) :
  appendNames order = order.*1.
Proof.
  unfold appendNames.
  assert (H : ∀ acc, fold_left (fun names (nv : gostring * V) => names ++ [nv.1]) order acc
                     = acc ++ order.*1); [|apply H].
  induction order as [|nv order IH]; intros acc; simpl.
  - by rewrite app_nil_r.
  - rewrite IH, <- app_assoc. reflexivity.
Qed.

Lemma ranges_names {V : Type} (m : gmap gostring V) (order : list (gostring * V)) :
  ranges m order →
  NoDup (appendNames order)
  ∧ length (appendNames order) = size m
  ∧ ∀ n, n ∈ appendNames order ↔ is_Some (m !! n).
Proof.
  intros Hr. rewrite appendNames_fst. unfold ranges in Hr. split; [|split].
  - rewrite Hr. apply NoDup_fst_map_to_list.
  - by rewrite length_fmap, Hr, length_map_to_list.
  - intros n. rewrite Hr, list_elem_of_fmap. split.
    + intros ([n' v] & -> & Hin). apply elem_of_map_to_list in Hin. by exists v.
    + intros [v Hv]. exists (n, v). split; [done|]. by apply elem_of_map_to_list.
Qed.

(** X9. Whatever order its loop takes, [Sections] returns every section
    name of the document once: as many names as the document has sections,
    none twice, and [HasSection] is true exactly for the strings whose
    lower-cased form is among them. *)
Theorem Sections_names (i : Ini) (names : list gostring) :
  Sections i names →
  NoDup names
  ∧ length names = size i
  ∧ (∀ n, n ∈ names ↔ is_Some (i !! n))
  ∧ (∀ s, HasSection i s = true ↔ ToLower s ∈ names)
  ∧ names ≡ₚ Sections_run i.
Proof.
  intros (order & Hr & ->).
  destruct (ranges_names i order Hr) as (Hnd & Hlen & Hin).
  assert (Hp : appendNames order ≡ₚ Sections_run i).
  { unfold Sections_run. rewrite !appendNames_fst. unfold ranges in Hr. by rewrite Hr. }
  split; [done|]. split; [done|]. split; [done|]. split; [|done].
  intros s. unfold HasSection. rewrite bool_decide_eq_true. symmetry. apply Hin.
Qed.

(** X10. [Keys] returns nil exactly for a section that is not in the
    document, under any spelling of its name.  Otherwise it returns every
    key of the section once, whatever order its loop takes: [Get] finds a
    key exactly when its lower-cased form is in the result. *)
Theorem Keys_names (i : Ini) (s : gostring) (keys : option (list gostring)) :
  Keys i s keys →
  (keys = None ↔ HasSection i s = false)
  ∧ (∀ s', ToLower s' = ToLower s → Keys i s' keys)
  ∧ ∀ l, keys = Some l →
      NoDup l
      ∧ (∀ m, i !! ToLower s = Some m → length l = size m)
      ∧ ∀ k, ToLower k ∈ l ↔ (Get i s k).2 = true.
Proof.
  unfold Keys, HasSection, Get. intros H. split; [|split].
  - destruct (i !! ToLower s) as [m|] eqn:E.
    + destruct H as (order & _ & ->). split; [done|].
      intros Hb. apply bool_decide_eq_false in Hb. destruct Hb. by exists m.
    + split; [|done]. intros _. apply bool_decide_eq_false. by intros [? ?].
  - intros s' Hs. by rewrite Hs.
  - intros l ->. destruct (i !! ToLower s) as [m|] eqn:E; [|done].
    destruct H as (order & Hr & [= ->]).
    destruct (ranges_names m order Hr) as (Hnd & Hlen & Hin).
    split; [done|]. split; [by intros ? [= <-]|].
    intros k. rewrite Hin. destruct (m !! ToLower k); simpl.
    + split; [done|]. by eexists.
    + split; [by intros [? ?]|done].
Qed.

(** ** Stored names are lower-cased *)

Lemma lowered_root : lowered root.
Proof. by exists root. Qed.

Lemma alter_insert_lowered (d : Ini) (n k v : gostring) :
  loweredNames d → lowered k → loweredNames (alter (insert k v) n d).
Proof.
  intros Hd Hk n' m. destruct (decide (n' = n)) as [->|Hn].
  - rewrite lookup_alter_eq. destruct (d !! n) as [m0|] eqn:E; simpl; [|done].
    intros [= <-]. destruct (Hd n m0 E) as [Hn Hm]. split; [done|].
    intros k' v'. destruct (decide (k' = k)) as [->|Hk']; [done|].
    rewrite lookup_insert_ne by done. apply Hm.
  - rewrite lookup_alter_ne by done. apply Hd.
Qed.

Lemma insert_empty_lowered (d : Ini) (n : gostring) :
  loweredNames d → lowered n → loweredNames (<[n := ∅]> d).
Proof.
  intros Hd Hn n' m. destruct (decide (n' = n)) as [->|Hne].
  - rewrite lookup_insert_eq. intros [= <-]. split; [done|]. intros k v. by rewrite lookup_empty.
  - rewrite lookup_insert_ne by done. apply Hd.
Qed.

Lemma Set_lowered (i : Ini) (s k v : gostring) :
  loweredNames i → loweredNames (Set_ i s k v).
Proof.
  intros Hi. unfold Set_. apply alter_insert_lowered; [|by exists k].
  destruct (i !! ToLower s); [done|]. apply insert_empty_lowered; [done|by exists s].
Qed.

Lemma Unset_lowered (i : Ini) (s k : gostring) :
  loweredNames i → loweredNames (Unset i s k).
Proof.
  intros Hi n m. destruct (decide (n = ToLower s)) as [->|Hn].
  - rewrite Unset_lookup. destruct (i !! ToLower s) as [m0|] eqn:E; [|done].
    destruct (decide _); [done|]. intros [= <-]. split; [by exists s|].
    intros k' v' Hk'. apply lookup_delete_Some in Hk' as [_ Hk'].
    by apply (proj2 (Hi _ _ E) k' v').
  - rewrite Unset_lookup_ne by done. apply Hi.
Qed.

Lemma assign_lowered (st : parser) (k v : gostring) :
  loweredNames (doc st) → lowered (section st) → lowered k →
  loweredNames (doc (assign st k v)).
Proof.
  intros Hd Hs Hk. unfold assign.
  destruct (sectionMap st) as [sm|]; simpl.
  - by apply alter_insert_lowered.
  - destruct (doc st !! section st); simpl.
    + by apply alter_insert_lowered.
    + apply alter_insert_lowered; [|done]. by apply insert_empty_lowered.
Qed.

Lemma assign_section (st : parser) (k v : gostring) :
  section (assign st k v) = section st.
Proof.
  unfold assign. destruct (sectionMap st); [done|].
  by destruct (doc st !! section st).
Qed.

Lemma readLine_lowered (st : parser) (line : gostring) :
  loweredNames (doc st) → lowered (section st) →
  loweredNames (doc (readLine st line).1) ∧ lowered (section (readLine st line).1).
Proof.
  intros Hd Hs. unfold readLine.
  repeat match goal with
         | |- context [if ?b then _ else _] => destruct b
         end; cbn [fst]; try done.
  - split; [done|]. by eexists.
  - rewrite assign_section. split; [|done].
    apply (assign_lowered (advance st line)); [done|done|by eexists].
Qed.

Lemma readLines_lowered (lines : list gostring) (st : parser) :
  loweredNames (doc st) → lowered (section st) →
  loweredNames (doc (readLines st lines).1).
Proof.
  revert st. induction lines as [|line rest IH]; intros st Hd Hs; simpl; [done|].
  destruct (readLine_lowered st line Hd Hs) as [H1 H2].
  destruct (readLine st line) as [st' [e|]]; simpl in *; auto.
Qed.

Lemma built_loweredNames (i : Ini) : built i → loweredNames i.
Proof.
  induction 1 as [|i s k v _ IH|i s k _ IH|i source _ IH].
  - intros n m. unfold New. by rewrite lookup_empty.
  - by apply Set_lowered.
  - by apply Unset_lowered.
  - rewrite ReadFrom_doc. apply readLines_lowered; [done|apply lowered_root].
Qed.

(** X11. Every section name and every key of a document built from [New]
    by [Set], [Unset] and [ReadFrom] is the lower-cased form of some
    string, so that [Get] finds every entry under some spelling: no name is
    stored as it was spelled, and none is out of reach. *)
Theorem built_lowered (i : Ini) :
  built i →
  loweredNames i
  ∧ ∀ n m k v, i !! n = Some m → m !! k = Some v →
      ∃ s' k', n = ToLower s' ∧ k = ToLower k' ∧ Get i s' k' = (v, true).
Proof.
  intros Hb. pose proof (built_loweredNames i Hb) as Hlow. split; [done|].
  intros n m k v Hn Hk. destruct (Hlow n m Hn) as [[s' ->] Hkeys].
  destruct (Hkeys k v Hk) as [k' ->]. exists s', k'.
  split; [done|]. split; [done|]. unfold Get. by rewrite Hn, Hk.
Qed.

(** X12. In a document built from [New] by [Set], [Unset] and [ReadFrom],
    [HasSection] is true exactly for the sections in which [Get] finds a
    key, and [Keys] returns at least one key for them. *)
Theorem HasSection_has_key (i : Ini) (s : gostring) :
  built i →
  (HasSection i s = true ↔ ∃ k v, Get i s k = (v, true))
  ∧ ∀ l, Keys i s (Some l) → l ≠ [].
Proof.
  intros Hb. pose proof (built_sections i Hb) as Hne.
  pose proof (built_loweredNames i Hb) as Hlow.
  unfold HasSection, Get, Keys. rewrite bool_decide_eq_true. split.
  - split.
    + intros [m Hm]. rewrite Hm.
      destruct (map_choose m (Hne _ _ Hm)) as (k0 & v & Hk0).
      destruct (proj2 (Hlow _ _ Hm) k0 v Hk0) as [k ->].
      exists k, v. by rewrite Hk0.
    + intros (k & v & H). destruct (i !! ToLower s) as [m|]; [by eexists|done].
  - intros l. destruct (i !! ToLower s) as [m|] eqn:E; [|done].
    intros (order & Hr & [= ->]) Hnil.
    destruct (ranges_names m order Hr) as (_ & Hlen & _).
    rewrite Hnil in Hlen. simpl in Hlen. symmetry in Hlen.
    apply map_size_empty_iff in Hlen. by apply (Hne _ _ E).
Qed.

(** ** What ReadFrom keeps *)

Lemma alter_insert_keeps (d : Ini) (sm k v n : gostring) (m : Section_) :
  d !! n = Some m →
  ∃ m', alter (insert k v) sm d !! n = Some m' ∧ dom m ⊆ dom m'.
Proof.
  intros Hn. destruct (decide (n = sm)) as [->|Hne].
  - rewrite lookup_alter_eq, Hn. simpl. eexists. split; [done|].
    rewrite dom_insert. set_solver.
  - rewrite lookup_alter_ne by done. by exists m.
Qed.

Lemma assign_keeps (st : parser) (k v n : gostring) (m : Section_) :
  doc st !! n = Some m →
  ∃ m', doc (assign st k v) !! n = Some m' ∧ dom m ⊆ dom m'.
Proof.
  intros Hn. unfold assign. destruct (sectionMap st) as [sm|]; simpl.
  - by apply alter_insert_keeps.
  - destruct (doc st !! section st) as [m0|] eqn:E; simpl.
    + by apply alter_insert_keeps.
    + apply alter_insert_keeps. rewrite lookup_insert_ne; [done|]. congruence.
Qed.

Lemma readLines_keeps (lines : list gostring) (st : parser) (n : gostring) (m : Section_) :
  doc st !! n = Some m →
  ∃ m', doc (readLines st lines).1 !! n = Some m' ∧ dom m ⊆ dom m'.
Proof.
  revert st m. induction lines as [|line rest IH]; intros st m Hn; simpl.
  - by exists m.
  - assert (∃ m1, doc (readLine st line).1 !! n = Some m1 ∧ dom m ⊆ dom m1)
      as (m1 & H1 & Hd1).
    { destruct (readLine_doc st line) as [-> | (st' & k & v & Hd & _ & _ & ->)].
      - by exists m.
      - simpl. apply assign_keeps. by rewrite Hd. }
    destruct (readLine st line) as [st' [e|]]; simpl in *.
    + by exists m1.
    + destruct (IH st' m1 H1) as (m' & H' & Hd'). exists m'. split; [done|]. set_solver.
Qed.

(** X13. [ReadFrom] and [Load] merge: whatever the input, and whether
    they return an error or not, every section of the document is still
    there afterwards, with every key it had. *)
Theorem ReadFrom_keeps (i : Ini) (source n : gostring) (m : Section_) :
  i !! n = Some m →
  (∃ m', (ReadFrom i source).1.1 !! n = Some m' ∧ dom m ⊆ dom m')
  ∧ (∃ m', (Load i source).1 !! n = Some m' ∧ dom m ⊆ dom m').
Proof.
  intros Hn.
  assert (H : ∃ m', (ReadFrom i source).1.1 !! n = Some m' ∧ dom m ⊆ dom m').
  { rewrite ReadFrom_doc. by apply readLines_keeps. }
  split; [done|]. unfold Load. by destruct (ReadFrom i source) as [[d c] e].
Qed.

(** ** Names ReadFrom stores *)

Lemma alter_insert_named (d : Ini) (n k v : gostring) :
  namedEntries d → k ≠ [] → namedEntries (alter (insert k v) n d).
Proof.
  intros Hd Hk n' m. destruct (decide (n' = n)) as [->|Hn].
  - rewrite lookup_alter_eq. destruct (d !! n) as [m0|] eqn:E; simpl; [|done].
    intros [= <-]. destruct (Hd n m0 E) as [Hn Hm]. split; [done|].
    intros k' v'. destruct (decide (k' = k)) as [->|Hk']; [done|].
    rewrite lookup_insert_ne by done. apply Hm.
  - rewrite lookup_alter_ne by done. apply Hd.
Qed.

Lemma assign_named (st : parser) (k v : gostring) :
  namedEntries (doc st) → section st ≠ [] → k ≠ [] →
  namedEntries (doc (assign st k v)).
Proof.
  intros Hd Hs Hk. unfold assign.
  destruct (sectionMap st) as [sm|]; simpl.
  - by apply alter_insert_named.
  - destruct (doc st !! section st); simpl.
    + by apply alter_insert_named.
    + apply alter_insert_named; [|done]. intros n m.
      destruct (decide (n = section st)) as [->|Hne].
      * rewrite lookup_insert_eq. intros [= <-]. split; [done|].
        intros k' v'. by rewrite lookup_empty.
      * rewrite lookup_insert_ne by done. apply Hd.
Qed.

Lemma readLine_named (st : parser) (line : gostring) :
  namedEntries (doc st) → section st ≠ [] →
  namedEntries (doc (readLine st line).1) ∧ section (readLine st line).1 ≠ [].
Proof.
  intros Hd Hs. unfold readLine.
  repeat match goal with
         | |- context [if ?b then _ else _] => destruct b eqn:?
         end; cbn [fst]; try done.
  - split; [done|]. simpl. by eapply bool_decide_eq_false_1.
  - rewrite assign_section. split; [|done].
    apply (assign_named (advance st line)); [done|done|by eapply bool_decide_eq_false_1].
Qed.

Lemma readLines_named (lines : list gostring) (st : parser) :
  namedEntries (doc st) → section st ≠ [] →
  namedEntries (doc (readLines st lines).1).
Proof.
  revert st. induction lines as [|line rest IH]; intros st Hd Hs; simpl; [done|].
  destruct (readLine_named st line Hd Hs) as [H1 H2].
  destruct (readLine st line) as [st' [e|]]; simpl in *; auto.
Qed.

(** X14. [ReadFrom] stores no empty name: when no section name and no key
    of the document is empty before the call, none is afterwards, whatever
    the input and whether the call returns an error or not.  So it is for
    what it reads into a new document. *)
Theorem ReadFrom_named (i : Ini) (source : gostring) :
  (namedEntries i → namedEntries (ReadFrom i source).1.1)
  ∧ namedEntries (ReadFrom New source).1.1.
Proof.
  assert (H : ∀ d, namedEntries d → namedEntries (ReadFrom d source).1.1).
  { intros d Hd. rewrite ReadFrom_doc. by apply readLines_named. }
  split; [apply H|]. apply H. intros n m. unfold New. by rewrite lookup_empty.
Qed.

(** ** Comments and blank lines *)

Lemma readLine_skipped (st : parser) (line : gostring) :
  skipped line = true → readLine st line = (advance st line, None).
Proof.
  unfold skipped, readLine. intros H.
  destruct (len (go_strings.TrimSpace line) =? 0); [done|].
  simpl in H. by rewrite H.
Qed.

Lemma readLine_loop (st st' : parser) (line : gostring) :
  loopState st = loopState st' →
  loopState (readLine st line).1 = loopState (readLine st' line).1
  ∧ errorKind <$> (readLine st line).2 = errorKind <$> (readLine st' line).2.
Proof.
  destruct st as [d s sm ln br], st' as [d' s' sm' ln' br'].
  unfold loopState. simpl. intros [= <- <- <-].
  unfold readLine.
  repeat match goal with
         | |- context [if ?b then _ else _] => destruct b
         end; try done.
  unfold assign, advance. simpl. split; [|done].
  destruct sm; [done|]. by destruct (d !! s).
Qed.

Lemma readLines_skip (lines : list gostring) (st st' : parser) :
  loopState st = loopState st' →
  loopState (readLines st lines).1
  = loopState (readLines st' (List.filter (fun l => negb (skipped l)) lines)).1
  ∧ errorKind <$> (readLines st lines).2
    = errorKind <$> (readLines st' (List.filter (fun l => negb (skipped l)) lines)).2.
Proof.
  revert st st'. induction lines as [|l lines IH]; intros st st' Hst; simpl; [done|].
  destruct (skipped l) eqn:Hsk; simpl.
  - rewrite readLine_skipped by done. apply IH. by rewrite <- Hst.
  - destruct (readLine_loop st st' l Hst) as [H1 H2].
    destruct (readLine st l) as [st1 [e|]], (readLine st' l) as [st1' [e'|]];
      simpl in *; try done.
    by apply IH.
Qed.

(** X15. Blank lines and comment lines count for nothing but the line
    numbers: the document [ReadFrom] leaves, and the kind of error it
    returns if any, are those it leaves and returns for the input without
    these lines.  An input of such lines only leaves the document as it is
    and returns no error. *)
Theorem ReadFrom_skips (i : Ini) (ls : list gostring) :
  Forall plainLine ls →
  (ReadFrom i (joinLines ls)).1.1
  = (ReadFrom i (joinLines (List.filter (fun l => negb (skipped l)) ls))).1.1
  ∧ errorKind <$> (ReadFrom i (joinLines ls)).2
    = errorKind <$> (ReadFrom i (joinLines (List.filter (fun l => negb (skipped l)) ls))).2
  ∧ (Forall (fun l => skipped l = true) ls →
     (ReadFrom i (joinLines ls)).1.1 = i ∧ (ReadFrom i (joinLines ls)).2 = None).
Proof.
  intros Hls.
  assert (Hfs : Forall plainLine (List.filter (fun l => negb (skipped l)) ls)).
  { apply Forall_forall. intros l Hl. apply list_elem_of_In, filter_In in Hl as [Hl _].
    rewrite Forall_forall in Hls. by apply Hls, list_elem_of_In. }
  assert (H : (ReadFrom i (joinLines ls)).1.1
              = (ReadFrom i (joinLines (List.filter (fun l => negb (skipped l)) ls))).1.1
              ∧ errorKind <$> (ReadFrom i (joinLines ls)).2
                = errorKind <$> (ReadFrom i (joinLines
                                   (List.filter (fun l => negb (skipped l)) ls))).2).
  { rewrite (ReadFrom_lines i _ _ (Scan_plain _ Hls)).
    rewrite (ReadFrom_lines i _ _ (Scan_plain _ Hfs)).
    destruct (readLines_skip ls (start i) (start i) eq_refl) as [H1 H2].
    destruct (readLines (start i) ls) as [st e].
    destruct (readLines (start i) (List.filter _ ls)) as [st' e'].
    simpl in *. split; [|done]. unfold loopState in H1. congruence. }
  destruct H as [H1 H2]. split; [done|]. split; [done|].
  intros Hall.
  assert (Hnil : List.filter (fun l => negb (skipped l)) ls = []).
  { clear -Hall. induction Hall as [|l ls Hl _ IH]; [done|]. simpl. by rewrite Hl. }
  rewrite Hnil in H1, H2. change (joinLines []) with (@nil ascii) in H1, H2.
  split; [done|]. change (ReadFrom i []) with (i, 0, @None error) in H2.
  simpl in H2. by destruct ((ReadFrom i (joinLines ls)).2).
Qed.

(** ** The byte count *)

Lemma int64_small (z : Z) : - 2 ^ 63 <= z < 2 ^ 63 → int64 z = z.
Proof.
  intros H. unfold int64.
  rewrite Z.mod_small by lia. lia.
Qed.

Lemma readLine_bytesRead (st : parser) (line : gostring) :
  bytesRead (readLine st line).1 = int64 (bytesRead st + int64 (len line + 1)).
Proof.
  unfold readLine.
  repeat match goal with
         | |- context [if ?b then _ else _] => destruct b
         end; try done.
  unfold assign. cbn [fst]. destruct (sectionMap (advance st line)); [done|].
  by destruct (doc (advance st line) !! section (advance st line)).
Qed.

Lemma len_joinLines_cons (l : gostring) (ls : list gostring) :
  len (joinLines (l :: ls)) = len l + 1 + len (joinLines ls).
Proof.
  rewrite joinLines_cons. unfold len. rewrite length_app. simpl length. lia.
Qed.

Lemma len_nonneg (s : gostring) : 0 <= len s.
Proof. unfold len. lia. Qed.

Lemma readLines_bytes (lines : list gostring) (st st' : parser) (e : option error) :
  0 <= bytesRead st →
  bytesRead st + len (joinLines lines) < 2 ^ 63 →
  readLines st lines = (st', e) →
  match e with
  | None => bytesRead st' = bytesRead st + len (joinLines lines)
  | Some err =>
    ∃ j, (j < length lines)%nat
         ∧ errorLine err = Some (lineNum st + Z.of_nat (S j))
         ∧ bytesRead st' = bytesRead st + len (joinLines (take (S j) lines))
  end.
Proof.
  revert st st' e. induction lines as [|l lines IH]; intros st st' e H0 Hlt.
  - intros [= <- <-]. unfold len. simpl. lia.
  - rewrite len_joinLines_cons in Hlt.
    pose proof (len_nonneg l) as Hl. pose proof (len_nonneg (joinLines lines)) as Hls.
    pose proof (readLine_bytesRead st l) as Hb.
    rewrite (int64_small (len l + 1)), int64_small in Hb by lia.
    pose proof (readLine_lineNum st l) as Hn.
    cbn [readLines]. destruct (readLine st l) as [st1 [err|]] eqn:E; simpl in Hb, Hn.
    + intros [= <- <-]. exists 0%nat. split; [simpl; lia|]. split.
      * rewrite (readLine_errorLine _ _ _ _ E). f_equal; lia.
      * change (take 1 (l :: lines)) with (l :: take 0 lines).
        rewrite take_0, len_joinLines_cons, Hb. unfold joinLines, len. simpl. lia.
    + intros H. apply IH in H; [|lia|lia]. destruct e as [err|].
      * destruct H as (j & Hj & He & Hbj). exists (S j). split; [simpl; lia|].
        split; [rewrite He; f_equal; lia|].
        change (take (S (S j)) (l :: lines)) with (l :: take (S j) lines).
        rewrite Hbj, Hb, len_joinLines_cons. lia.
      * rewrite len_joinLines_cons. lia.
Qed.

(** X16. On an input whose lines all end with a line feed, none with a
    carriage return before it, the count [ReadFrom] returns is the length of
    the input when it returns no error, and the length of the lines up to
    the failing one, that line included, when it returns an error. *)
Theorem ReadFrom_count (i : Ini) (ls : list gostring) :
  Forall plainLine ls →
  len (joinLines ls) < 2 ^ 63 →
  match (ReadFrom i (joinLines ls)).2 with
  | None => (ReadFrom i (joinLines ls)).1.2 = len (joinLines ls)
  | Some e =>
    ∃ ln, errorLine e = Some ln ∧ 1 <= ln <= Z.of_nat (length ls)
          ∧ (ReadFrom i (joinLines ls)).1.2 = len (joinLines (take (Z.to_nat ln) ls))
  end.
Proof.
  intros Hls Hlen. rewrite (ReadFrom_lines i _ _ (Scan_plain _ Hls)).
  destruct (readLines (start i) ls) as [st e] eqn:E.
  apply readLines_bytes in E; simpl; [|lia|lia]. destruct e as [err|]; simpl in *.
  - destruct E as (j & Hj & He & Hb). exists (Z.of_nat (S j)).
    split; [by rewrite He|]. split; [lia|]. rewrite Nat2Z.id. lia.
  - lia.
Qed.

(** ** Line endings *)

Lemma dropCR_snoc (l : gostring) : go_bufio.dropCR (l ++ [CR]) = l.
Proof.
  unfold go_bufio.dropCR. rewrite reverse_app. simpl.
  by rewrite reverse_involutive.
Qed.

Lemma joinCRLF_lines (ls : list gostring) :
  joinCRLF ls = joinLines (map (fun l => l ++ [CR]) ls).
Proof.
  unfold joinCRLF, joinLines. induction ls as [|l ls IH]; [done|]. simpl.
  by rewrite IH, <- !app_assoc.
Qed.

Lemma Scan_CRLF (ls : list gostring) :
  Forall (fun l => (LF ∉ l) ∧ len l + 1 < maxTokenSize) ls →
  go_bufio.Scan maxTokenSize (joinCRLF ls) = (ls, None).
Proof.
  intros H. unfold go_bufio.Scan.
  rewrite joinCRLF_lines, <- (app_nil_r (joinLines _)), splitLines_join, app_nil_r.
  - induction H as [|l ls [_ Hlen] _ IH]; [done|]. simpl.
    unfold len in Hlen. rewrite length_app. simpl length.
    destruct (Z.of_nat (length l + 1) <? maxTokenSize) eqn:E;
      [|apply Z.ltb_ge in E; lia].
    by rewrite IH, dropCR_snoc.
  - apply Forall_fmap. eapply Forall_impl; [exact H|]. intros l [Hl _]. simpl.
    rewrite not_elem_of_app, not_elem_of_cons. split; [done|]. split; [done|].
    apply not_elem_of_nil.
Qed.

(** X17. Lines that end with a carriage return and a line feed are read as
    the same lines ending with a line feed: same document, same count, same
    error. *)
Theorem ReadFrom_CRLF (i : Ini) (ls : list gostring) :
  Forall (fun l => plainLine l ∧ len l + 1 < maxTokenSize) ls →
  ReadFrom i (joinCRLF ls) = ReadFrom i (joinLines ls).
Proof.
  intros H.
  rewrite (ReadFrom_lines i (joinCRLF ls) ls), (ReadFrom_lines i (joinLines ls) ls).
  - done.
  - apply Scan_plain. eapply Forall_impl; [exact H|]. by intros l [? _].
  - apply Scan_CRLF. eapply Forall_impl; [exact H|]. by intros l [[? _] ?].
Qed.

(** ** One more line *)

Lemma advance_aligned (st : parser) (line : gostring) :
  aligned st → aligned (advance st line).
Proof. done. Qed.

Lemma readLine_aligned (st : parser) (line : gostring) :
  aligned st → aligned (readLine st line).1.
Proof.
  intros Ha. unfold readLine.
  repeat match goal with
         | |- context [if ?b then _ else _] => destruct b
         end; cbn [fst]; try done.
  - by left.
  - by apply (assign_put (advance st line)).
Qed.

Lemma readLines_aligned (lines : list gostring) (st : parser) :
  aligned st → aligned (readLines st lines).1.
Proof.
  revert st. induction lines as [|l lines IH]; intros st Ha; simpl; [done|].
  pose proof (readLine_aligned st l Ha) as H1.
  destruct (readLine st l) as [st1 [e|]]; simpl in *; auto.
Qed.

Lemma readLine_section (st : parser) (line : gostring) :
  isHeader (go_strings.TrimSpace line) = false →
  section (readLine st line).1 = section st.
Proof.
  intros Hh. unfold readLine. rewrite Hh.
  repeat match goal with
         | |- context [if ?b then _ else _] => destruct b
         end; cbn [fst]; try done.
  by rewrite assign_section.
Qed.

Lemma readLines_section (lines : list gostring) (st : parser) :
  Forall (fun l => isHeader (go_strings.TrimSpace l) = false) lines →
  section (readLines st lines).1 = section st.
Proof.
  intros H. revert st. induction H as [|l lines Hl _ IH]; intros st; simpl; [done|].
  pose proof (readLine_section st l Hl) as H1.
  destruct (readLine st l) as [st1 [e|]]; simpl in *; [done|].
  by rewrite IH.
Qed.

Lemma readLines_app_inv (l1 l2 : list gostring) (st st' : parser) :
  readLines st (l1 ++ l2) = (st', None) →
  ∃ st1, readLines st l1 = (st1, None) ∧ readLines st1 l2 = (st', None).
Proof.
  revert st. induction l1 as [|l l1 IH]; intros st; simpl.
  - intros H. by exists st.
  - destruct (readLine st l) as [st0 [e|]]; [done|]. apply IH.
Qed.

Lemma readLine_header_section (st st' : parser) (h m : gostring) :
  go_strings.TrimSpace h = LBRACKET :: m ++ [RBRACKET] →
  readLine st h = (st', None) →
  section st' = ToLower (go_strings.TrimSpace m).
Proof.
  intros Htrim. unfold readLine. rewrite Htrim.
  assert (isHeader (LBRACKET :: m ++ [RBRACKET]) = true) as ->
    by (apply isHeader_shape; by exists m).
  rewrite slice_inside.
  destruct (len (LBRACKET :: m ++ [RBRACKET]) =? 0) eqn:E.
  { unfold len in E. simpl in E. unbool. lia. }
  change (isComment (LBRACKET :: m ++ [RBRACKET])) with false. cbn iota.
  destruct (bool_decide _); [done|]. by intros [= <-].
Qed.

(** X18. A key-value line added at the end of an input that is read
    without error stores one entry: the document is the one read from the
    input, with the value under the key in one section, made if it was not
    there and otherwise kept with its other keys.  The section is the one
    the last header line of the input names, and the root one when the
    input has no header line. *)
Theorem ReadFrom_appends (i d : Ini) (ls : list gostring) (line k rest : gostring) (n : Z) :
  Forall plainLine ls → plainLine line →
  ReadFrom i (joinLines ls) = (d, n, None) →
  go_strings.TrimSpace line = k ++ EQUALS :: rest →
  EQUALS ∉ k →
  isComment (k ++ EQUALS :: rest) = false →
  isHeader (k ++ EQUALS :: rest) = false →
  ToLower (go_strings.TrimSpace k) ≠ [] →
  ∃ sec n',
    ReadFrom i (joinLines (ls ++ [line]))
    = (put d sec (ToLower (go_strings.TrimSpace k))
           (unquote (go_strings.TrimSpace rest)), n', None)
    ∧ (Forall (fun l => isHeader (go_strings.TrimSpace l) = false) ls → sec = root)
    ∧ (∀ ls0 h m ls1,
         ls = ls0 ++ h :: ls1 →
         go_strings.TrimSpace h = LBRACKET :: m ++ [RBRACKET] →
         Forall (fun l => isHeader (go_strings.TrimSpace l) = false) ls1 →
         sec = ToLower (go_strings.TrimSpace m)).
Proof.
  intros Hls Hline Hread Htrim Hk Hc Hh Hkey.
  assert (Hall : Forall plainLine (ls ++ [line])).
  { apply Forall_app. split; [done|]. by apply Forall_cons. }
  rewrite (ReadFrom_lines i _ _ (Scan_plain _ Hls)) in Hread.
  rewrite (ReadFrom_lines i _ _ (Scan_plain _ Hall)).
  pose proof (readLines_aligned ls (start i) (or_introl eq_refl)) as Ha.
  pose proof (readLines_section ls (start i)) as Hsec.
  destruct (readLines (start i) ls) as [st e] eqn:E. simpl in *.
  injection Hread as <- <- ->.
  rewrite (readLines_app _ _ _ _ E). simpl.
  rewrite (readLine_keyValue st line k rest Htrim Hk Hc Hh).
  rewrite bool_decide_eq_false_2 by done.
  destruct (assign_put (advance st line) (ToLower (go_strings.TrimSpace k))
              (unquote (go_strings.TrimSpace rest)) Ha) as (Hd & _ & _).
  exists (section st), (bytesRead (assign (advance st line)
                                      (ToLower (go_strings.TrimSpace k))
                                      (unquote (go_strings.TrimSpace rest)))).
  split; [by rewrite Hd|]. split; [done|].
  intros ls0 h m ls1 -> Hm Hls1.
  apply readLines_app_inv in E as (st0 & _ & E). simpl in E.
  destruct (readLine st0 h) as [st1 [e|]] eqn:E1; [done|].
  pose proof (readLines_section ls1 st1 Hls1) as Hs1. rewrite E in Hs1. simpl in Hs1.
  rewrite Hs1. by apply (readLine_header_section st0 st1 h m).
Qed.

(** ** What WriteTo writes *)

Lemma entryLines_ranges (m : Section_) (kvs : list (gostring * gostring)) :
  ranges m kvs → map entryLine kvs ≡ₚ map entryLine (map_to_list m).
Proof. unfold ranges. intros H. by apply Permutation_map. Qed.

Lemma otherLines_ranges (n : gostring) (m : Section_) (kvs : list (gostring * gostring)) :
  ranges m kvs → otherLines (n, m, kvs) ≡ₚ otherLines (n, m, map_to_list m).
Proof.
  intros H. unfold otherLines.
  destruct (bool_decide (n = root) || (size m =? 0)%nat); [done|].
  apply Permutation_cons; [done|]. apply Permutation_app_tail.
  by apply entryLines_ranges.
Qed.

Lemma flat_map_fmap {A B C : Type} (f : B → list C) (g : A → B) (l : list A) :
  flat_map f (map g l) = flat_map (fun a => f (g a)) l.
Proof. induction l as [|a l IH]; [done|]. simpl. by rewrite IH. Qed.

Lemma emitted_run (i : Ini) (rootOrder : list (gostring * gostring))
    (visits : list (gostring * Section_ * list (gostring * gostring))) :
  (∀ s, i !! root = Some s → ranges s rootOrder) →
  ranges i (visits.*1) →
  Forall (fun v => ranges v.1.2 v.2) visits →
  emitted i rootOrder visits
  ≡ₚ emitted i (map_to_list (default ∅ (i !! root)))
       (map (fun ns => (ns, map_to_list ns.2)) (map_to_list i)).
Proof.
  intros Hroot Hvis Hkvs. unfold emitted. apply Permutation_app.
  - unfold rootLines. destruct (i !! root) as [s|]; [|done]. simpl.
    destruct (0 <? size s)%nat; [|done].
    apply Permutation_app_tail. by apply entryLines_ranges, Hroot.
  - transitivity (flat_map (fun ns => otherLines (ns, map_to_list ns.2)) visits.*1).
    + clear Hvis. induction Hkvs as [|[[n m] kvs] visits Hv _ IH]; [done|].
      simpl in *. apply Permutation_app; [|done]. by apply otherLines_ranges.
    + rewrite (flat_map_fmap otherLines). unfold ranges in Hvis. by rewrite Hvis.
Qed.

(** X19. The order of the map loops is all that [WriteTo] leaves open:
    two outputs for the same document are made of the same lines, in another
    order, so that they have the same length, and the count returned is the
    same. *)
Theorem WriteTo_orders (i : Ini) (out out' : gostring) (cnt cnt' : Z) :
  WriteTo i out cnt →
  WriteTo i out' cnt' →
  (∃ ls ls', out = joinLines ls ∧ out' = joinLines ls' ∧ ls ≡ₚ ls')
  ∧ out ≡ₚ out'
  ∧ len out = len out'
  ∧ cnt = cnt'.
Proof.
  intros (ro & vis & Hroot & Hvis & Hkvs & -> & ->)
         (ro' & vis' & Hroot' & Hvis' & Hkvs' & -> & ->).
  rewrite !content_lines.
  assert (Hp : emitted i ro vis ≡ₚ emitted i ro' vis').
  { rewrite (emitted_run i ro vis), (emitted_run i ro' vis'); done. }
  assert (Hj : joinLines (emitted i ro vis) ≡ₚ joinLines (emitted i ro' vis')).
  { unfold joinLines. by rewrite Hp. }
  assert (Hl : len (joinLines (emitted i ro vis)) = len (joinLines (emitted i ro' vis'))).
  { unfold len. by rewrite Hj. }
  split; [by eexists _, _|]. split; [done|]. split; [done|]. by rewrite Hl.
Qed.

Lemma emitted_inv (i : Ini) (rootOrder : list (gostring * gostring))
    (visits : list (gostring * Section_ * list (gostring * gostring))) (line : gostring) :
  (∀ s, i !! root = Some s → ranges s rootOrder) →
  ranges i (visits.*1) →
  Forall (fun v => ranges v.1.2 v.2) visits →
  line ∈ emitted i rootOrder visits →
  (line = [] ∧ ∃ n m, i !! n = Some m ∧ m ≠ ∅)
  ∨ (∃ n m, i !! n = Some m ∧ n ≠ root ∧ m ≠ ∅ ∧ line = headerLine n)
  ∨ (∃ n m k v, i !! n = Some m ∧ m !! k = Some v ∧ line = entryLine (k, v)).
Proof.
  intros Hroot Hvis Hkvs. unfold emitted. rewrite elem_of_app. intros [H|H].
  - unfold rootLines in H. destruct (i !! root) as [s|] eqn:Er; [|by apply elem_of_nil in H].
    destruct (0 <? size s)%nat eqn:Es; [|by apply elem_of_nil in H].
    apply elem_of_app in H as [H|H].
    + apply list_elem_of_fmap in H as ([k v] & -> & Hin).
      apply (ranges_lookup s rootOrder k v (Hroot s eq_refl)) in Hin.
      right. right. by exists root, s, k, v.
    + apply list_elem_of_singleton in H as ->. left. split; [done|].
      exists root, s. split; [done|]. intros ->. by rewrite map_size_empty in Es.
  - apply list_elem_of_In, in_flat_map in H as ([[n m] kvs] & Hv & H).
    apply list_elem_of_In in Hv, H.
    pose proof (visits_lookup i visits n m kvs Hvis Hv) as Hn.
    rewrite Forall_forall in Hkvs. specialize (Hkvs _ Hv). simpl in Hkvs.
    unfold otherLines in H.
    destruct (bool_decide (n = root)) eqn:Eb; [by apply elem_of_nil in H|].
    destruct (size m =? 0)%nat eqn:Es; [by apply elem_of_nil in H|]. simpl in H.
    apply bool_decide_eq_false in Eb. apply Nat.eqb_neq in Es.
    assert (m ≠ ∅) as Hm by (intros ->; by rewrite map_size_empty in Es).
    apply elem_of_cons in H as [->|H]; [right; left; by exists n, m|].
    apply elem_of_app in H as [H|H].
    + apply list_elem_of_fmap in H as ([k v] & -> & Hin).
      apply (ranges_lookup m kvs k v Hkvs) in Hin.
      right. right. by exists n, m, k, v.
    + apply list_elem_of_singleton in H as ->. left. split; [done|]. by exists n, m.
Qed.

(** X20. When no section name and no key holds a line feed, the lines of
    what [WriteTo] writes are the header ['[' name ']'] of every section
    but the root one that has a key, the line [key=value], the value as
    written, of every entry, and blank lines: a value never runs over
    several lines, whatever it holds. *)
Theorem WriteTo_lines (i : Ini) (out : gostring) (cnt : Z) :
  WriteTo i out cnt →
  (∀ n m, i !! n = Some m → (LF ∉ n) ∧ ∀ k v, m !! k = Some v → LF ∉ k) →
  ∀ line,
    line ∈ go_bufio.splitLines out
    ↔ (line = [] ∧ ∃ n m, i !! n = Some m ∧ m ≠ ∅)
      ∨ (∃ n m, i !! n = Some m ∧ n ≠ root ∧ m ≠ ∅ ∧ line = headerLine n)
      ∨ (∃ n m k v, i !! n = Some m ∧ m !! k = Some v ∧ line = entryLine (k, v)).
Proof.
  intros (ro & vis & Hroot & Hvis & Hkvs & -> & _) Hnames line.
  rewrite content_lines.
  assert (Hlf : Forall (fun l => LF ∉ l) (emitted i ro vis)).
  { apply Forall_forall. intros l Hl.
    destruct (emitted_inv i ro vis l Hroot Hvis Hkvs Hl)
      as [[-> _]|[(n & m & Hn & _ & _ & ->)|(n & m & k & v & Hn & Hk & ->)]].
    - apply not_elem_of_nil.
    - unfold headerLine. rewrite not_elem_of_cons, not_elem_of_app, not_elem_of_cons.
      split; [done|]. split; [by apply (Hnames n m Hn)|]. split; [done|apply not_elem_of_nil].
    - unfold entryLine. simpl. rewrite not_elem_of_app, not_elem_of_cons.
      split; [by apply (proj2 (Hnames n m Hn) k v)|]. split; [done|].
      apply writtenValue_noEOL. }
  rewrite <- (app_nil_r (joinLines _)), (splitLines_join _ [] Hlf), app_nil_r.
  split; [by apply emitted_inv|].
  intros [[-> (n & m & Hn & Hm)]|[(n & m & Hn & Hr & Hm & ->)|(n & m & k & v & Hn & Hk & ->)]].
  - unfold emitted. apply elem_of_app. destruct (decide (n = root)) as [->|Hr].
    + left. unfold rootLines. rewrite Hn.
      destruct (0 <? size m)%nat eqn:Es.
      * apply elem_of_app. right. by apply list_elem_of_singleton.
      * apply Nat.ltb_ge in Es. destruct Hm. apply map_size_empty_iff. lia.
    + right. apply (ranges_lookup i _ n m Hvis) in Hn.
      apply list_elem_of_fmap in Hn as ([[n' m'] kvs] & [= <- <-] & Hin).
      apply list_elem_of_In, in_flat_map. exists (n, m, kvs).
      split; [by apply list_elem_of_In|]. apply list_elem_of_In. unfold otherLines.
      rewrite bool_decide_eq_false_2 by done.
      destruct (size m =? 0)%nat eqn:Es.
      * apply Nat.eqb_eq, map_size_empty_iff in Es. done.
      * simpl. apply elem_of_cons. right. apply elem_of_app. right.
        by apply list_elem_of_singleton.
  - by apply (emitted_header i ro vis n m).
  - by apply (emitted_entry i ro vis n m k v).
Qed.

(** ** Escaping and decoding *)

(** X21. Decoding undoes the escaping of [writeSection], for every value:
    the text it writes between double quotes is read back as the value with
    its runes encoded again, that is the value itself when it is valid
    UTF-8. *)
Theorem unquote_escaped (v : gostring) :
  unquote (DQUOTE :: flat_map escapeRune (range v) ++ [DQUOTE]) = WriteRunes (range v)
  ∧ (lossless v = true →
     unquote (DQUOTE :: flat_map escapeRune (range v) ++ [DQUOTE]) = v).
Proof.
  assert (H : unquote (DQUOTE :: flat_map escapeRune (range v) ++ [DQUOTE])
              = WriteRunes (range v)).
  { rewrite unquote_quoted by (by left).
    pose proof (range_valid v) as Hval. rewrite escaped_runes.
    destruct (go_strings.ContainsRune _ BACKSLASH) eqn:Eb.
    - rewrite <- (app_nil_r (WriteRunes (flat_map escapedRunes (range v)))).
      rewrite range_WriteRunes by (by apply escapedRunes_valid).
      rewrite app_nil_r. change (byte_val DQUOTE) with 0x22.
      by rewrite specUnescape_escaped.
    - apply ContainsRune_false in Eb. rewrite escapedRunes_plain; [done|].
      intros Hb. apply Eb. by apply WriteRunes_backslash. }
  split; [done|]. intros Hv. apply bool_decide_eq_true in Hv. by rewrite H.
Qed.

(** ** Reading what was written, into any document *)

Lemma fold_insert_union (kvs : list (gostring * gostring)) (m0 : Section_) :
  NoDup kvs.*1 →
  fold_left (fun m kv => <[kv.1 := kv.2]> m) kvs m0 = list_to_map kvs ∪ m0.
Proof.
  revert m0. induction kvs as [|[k v] kvs IH]; intros m0 Hnd; simpl.
  - by rewrite (left_id_L ∅ (∪)).
  - simpl in Hnd. apply NoDup_cons in Hnd as [Hk Hnd].
    rewrite IH by done. rewrite <- insert_union_l.
    symmetry. apply insert_union_r. by apply not_elem_of_list_to_map_1.
Qed.

Lemma fold_insert_merge (m m0 : Section_) (kvs : list (gostring * gostring)) :
  ranges m kvs →
  fold_left (fun m kv => <[kv.1 := kv.2]> m) kvs m0 = m ∪ m0.
Proof.
  unfold ranges. intros H.
  assert (Hnd : NoDup kvs.*1) by (rewrite H; apply NoDup_fst_map_to_list).
  rewrite fold_insert_union by done. f_equal.
  rewrite <- (list_to_map_to_list m). by apply list_to_map_proper.
Qed.

Lemma mergeVisit_lookup (d : Ini) (n0 : gostring) (m0 : Section_)
    (kvs0 : list (gostring * gostring)) (n : gostring) :
  ranges m0 kvs0 →
  mergeVisit d (n0, m0, kvs0) !! n
  = if decide (n = n0 ∧ n0 ≠ root ∧ m0 ≠ ∅)
    then Some (m0 ∪ default ∅ (d !! n)) else d !! n.
Proof.
  intros Hr. simpl. destruct (bool_decide (n0 = root)) eqn:E; simpl.
  - apply bool_decide_eq_true in E. destruct (decide _) as [(_ & ? & _)|_]; done.
  - apply bool_decide_eq_false in E. destruct (size m0 =? 0)%nat eqn:Es.
    + apply Nat.eqb_eq, map_size_empty_iff in Es.
      destruct (decide _) as [(_ & _ & ?)|_]; done.
    + apply Nat.eqb_neq in Es.
      assert (m0 ≠ ∅) as Hm by (intros ->; by rewrite map_size_empty in Es).
      destruct (decide (n = n0)) as [->|Hn].
      * rewrite decide_True by done.
        rewrite putAll_lookup by (by eapply ranges_nonempty).
        by rewrite (fold_insert_merge m0).
      * rewrite decide_False by (by intros [? _]). by apply putAll_lookup_ne.
Qed.

Lemma mergeVisits_lookup
    (visits : list (gostring * Section_ * list (gostring * gostring))) (d : Ini) :
  NoDup (visits.*1.*1) →
  Forall (fun v => ranges v.1.2 v.2) visits →
  (∀ n m kvs, (n, m, kvs) ∈ visits → n ≠ root → m ≠ ∅ →
              fold_left mergeVisit visits d !! n = Some (m ∪ default ∅ (d !! n)))
  ∧ (∀ n, (∀ m kvs, (n, m, kvs) ∈ visits → n = root ∨ m = ∅) →
          fold_left mergeVisit visits d !! n = d !! n).
Proof.
  intros Hnd H. revert d Hnd.
  induction H as [|[[n0 m0] kvs0] visits Hr0 _ IH]; intros d Hnd.
  { split; [by intros ? ? ? ?%elem_of_nil|done]. }
  simpl in Hr0. simpl in Hnd. apply NoDup_cons in Hnd as [Hn0 Hnd].
  destruct (IH (mergeVisit d (n0, m0, kvs0)) Hnd) as [IHa IHb].
  cbn [fold_left]. split.
  - intros n m kvs Hin Hnr Hm. apply elem_of_cons in Hin as [Heq|Hin].
    + injection Heq as -> -> ->. rewrite IHb.
      * rewrite mergeVisit_lookup by done. by rewrite decide_True.
      * intros m kvs Hin. destruct Hn0.
        apply list_elem_of_fmap. exists (n0, m). split; [done|].
        apply list_elem_of_fmap. by exists (n0, m, kvs).
    + rewrite (IHa n m kvs) by done. rewrite mergeVisit_lookup by done.
      rewrite decide_False; [done|]. intros (-> & _ & _). destruct Hn0.
      apply list_elem_of_fmap. exists (n0, m). split; [done|].
      apply list_elem_of_fmap. by exists (n0, m, kvs).
  - intros n Hn. rewrite IHb.
    + rewrite mergeVisit_lookup by done. rewrite decide_False; [done|].
      intros (-> & Hr & Hm).
      destruct (Hn m0 kvs0) as [?|?]; [apply elem_of_cons; by left|done|done].
    + intros m kvs Hin. apply (Hn m kvs). apply elem_of_cons. by right.
Qed.

(** X22. [ReadFrom] merges what [WriteTo] wrote.  For a document [j]
    that round-trips, reading any output of [WriteTo] for it into any
    document [i] returns no error and leaves [j] merged into [i]: the
    sections of both, each with the keys of both, and the values of [j]
    where both have the key.  Reading the output of a document into the
    document itself changes nothing. *)
Theorem ReadFrom_merges (i j : Ini) (out : gostring) (cnt : Z) :
  roundTrips j →
  WriteTo j out cnt →
  ∃ n, ReadFrom i out = (merge j i, n, None)
       ∧ (i = j → ReadFrom i out = (j, n, None)).
Proof.
  intros Hrt (rootOrder & visits & Hroot & Hvis & Hkvs & -> & _).
  pose proof Hrt as [Hne Hok]. rewrite Forall_forall in Hkvs.
  rewrite content_lines.
  assert (Hplain : Forall plainLine (emitted j rootOrder visits)).
  { unfold emitted. apply Forall_app. split.
    - unfold rootLines. destruct (j !! root) as [mr|] eqn:Er; [|constructor].
      destruct (0 <? size mr)%nat; [|constructor].
      apply Forall_app. split.
      + by apply (entries_ok j root mr rootOrder Hrt Er (Hroot mr eq_refl)).
      + constructor; [apply plainLine_nil|constructor].
    - apply Forall_flat_map, Forall_forall. intros [[n m] kvs] Hin. simpl.
      destruct (bool_decide (n = root) || (size m =? 0)%nat); [constructor|].
      pose proof (visits_lookup j visits n m kvs Hvis Hin) as Hn.
      destruct (Hok n m Hn) as ((_ & HLF & _) & Hlen & _).
      constructor; [by apply plainLine_header|].
      apply Forall_app. split.
      + by apply (entries_ok j n m kvs Hrt Hn (Hkvs _ Hin)).
      + constructor; [apply plainLine_nil|constructor]. }
  rewrite (ReadFrom_lines i _ _ (Scan_plain _ Hplain)).
  assert (∃ st1, readLines (start i) (rootLines j rootOrder) = (st1, None)
                 ∧ doc st1 !! root
                   = union_with (fun mj mi => Some (mj ∪ mi)) (j !! root) (i !! root)
                 ∧ ∀ n, n ≠ root → doc st1 !! n = i !! n) as (st1 & Hr1 & Hd1 & Hd1').
  { unfold rootLines. destruct (j !! root) as [mr|] eqn:Er.
    - assert (size mr ≠ 0%nat) as Hsz by (rewrite map_size_empty_iff; by eapply Hne).
      destruct (0 <? size mr)%nat eqn:E; [|unbool; lia].
      destruct (readLines_entries rootOrder (start i) (or_introl eq_refl))
        as (st1 & Hr & _ & Hd & _).
      { by apply (entries_ok j root mr rootOrder Hrt Er (Hroot mr eq_refl)). }
      exists (advance st1 []). split; [|split].
      + by rewrite (readLines_app _ _ _ _ Hr).
      + simpl. rewrite Hd. simpl.
        rewrite putAll_lookup
          by (eapply ranges_nonempty; [by apply (Hroot mr eq_refl)|by eapply Hne]).
        rewrite (fold_insert_merge mr) by (by apply (Hroot mr eq_refl)).
        destruct (i !! root) as [mi|]; simpl; [done|].
        by rewrite (right_id_L ∅ (∪)).
      + intros n Hn. simpl. rewrite Hd. simpl.
        by rewrite putAll_lookup_ne by done.
    - exists (start i). split; [done|]. split; [|done]. simpl.
      by destruct (i !! root). }
  destruct (readLines_visits visits st1) as (st2 & Hr2 & Hd2).
  { apply Forall_forall. intros [[n m] kvs] Hin. simpl.
    pose proof (visits_lookup j visits n m kvs Hvis Hin) as Hn.
    destruct (Hok n m Hn) as (Hname & _). split; [done|].
    by apply (entries_ok j n m kvs Hrt Hn (Hkvs _ Hin)). }
  unfold emitted. rewrite (readLines_app _ _ _ _ Hr1), Hr2.
  destruct (mergeVisits_lookup visits (doc st1)) as [Ha Hb].
  { by apply (visits_NoDup j). }
  { apply Forall_forall. intros [[n m] kvs] Hin. simpl. by apply (Hkvs _ Hin). }
  assert (Hdoc : doc st2 = merge j i).
  { rewrite Hd2. apply map_eq. intros n. unfold merge. rewrite lookup_union_with.
    destruct (decide (n = root)) as [->|Hnr].
    - rewrite Hb by (intros; by left). done.
    - destruct (j !! n) as [m|] eqn:En.
      + pose proof En as En'. apply (ranges_lookup j _ n m Hvis) in En'.
        apply list_elem_of_fmap in En' as ([[n' m'] kvs] & [= <- <-] & Hin).
        rewrite (Ha n m kvs Hin Hnr) by (by eapply Hne).
        rewrite Hd1' by done. destruct (i !! n) as [mi|]; simpl; [done|].
        by rewrite (right_id_L ∅ (∪)).
      + rewrite Hb.
        * rewrite Hd1' by done. by destruct (i !! n).
        * intros m kvs Hin. pose proof (visits_lookup j visits n m kvs Hvis Hin).
          congruence. }
  exists (bytesRead st2). rewrite Hdoc. split; [done|].
  intros ->. f_equal. f_equal. apply map_eq. intros n. unfold merge.
  rewrite lookup_union_with. destruct (j !! n) as [m|]; simpl; [|done].
  by rewrite (idemp_L (∪)).
Qed.

(** ** A line that does not fit the buffer *)

Lemma splitLines_long (long rest : gostring) :
  LF ∉ long → long ≠ [] →
  ∃ l tl, go_bufio.splitLines (long ++ rest) = l :: tl ∧ (length long ≤ length l)%nat.
Proof.
  induction long as [|c long IH]; [done|]. intros Hlf _.
  apply not_elem_of_cons in Hlf as [Hc Hlf]. simpl.
  destruct (Ascii.eqb_spec c LF) as [->|_]; [done|].
  destruct long as [|c' long].
  - simpl. destruct (go_bufio.splitLines rest) as [|l tl]; eexists _, _; split; try done; simpl; lia.
  - destruct (IH Hlf) as (l & tl & -> & Hlen); [done|].
    eexists _, _. split; [done|]. simpl in *. lia.
Qed.

Lemma deliver_long (ls tl : list gostring) (l : gostring) :
  Forall plainLine ls → maxTokenSize <= len l →
  go_bufio.deliver maxTokenSize (ls ++ l :: tl) = (ls, Some go_bufio.ErrTooLong).
Proof.
  intros H Hl. induction H as [|l0 ls (_ & Hcr & Hlen) _ IH]; simpl.
  - fold (len l). destruct (len l <? maxTokenSize) eqn:E; [|done].
    apply Z.ltb_lt in E. lia.
  - fold (len l0). destruct (len l0 <? maxTokenSize) eqn:E;
      [|apply Z.ltb_ge in E; lia].
    by rewrite IH, Hcr.
Qed.

(** X23. A line of [maxTokenSize] bytes or more stops the scanner.  The
    lines before it are read as if the input ended there: same document,
    same count; [ReadFrom] returns their format error if they have one,
    and otherwise the scanner's error, whatever follows the long line. *)
Theorem ReadFrom_line_too_long (i : Ini) (ls : list gostring) (long rest : gostring) :
  Forall plainLine ls →
  LF ∉ long →
  maxTokenSize <= len long →
  ReadFrom i (joinLines ls ++ long ++ rest)
  = ((ReadFrom i (joinLines ls)).1,
     Some (default (ScannerError go_bufio.ErrTooLong) (ReadFrom i (joinLines ls)).2)).
Proof.
  intros Hls Hlf Hlen.
  assert (long ≠ []) as Hne.
  { intros ->. unfold len, maxTokenSize in Hlen. simpl in Hlen. lia. }
  destruct (splitLines_long long rest Hlf Hne) as (l & tl & Hsplit & Hl).
  rewrite (ReadFrom_lines i _ _ (Scan_plain _ Hls)).
  unfold ReadFrom, go_bufio.Scan.
  rewrite splitLines_join, Hsplit
    by (eapply Forall_impl; [exact Hls|]; by intros ? [? _]).
  rewrite deliver_long by (done || unfold len in *; lia).
  by destruct (readLines (start i) ls) as [st [e|]].
Qed.

(** ** White space around a line *)

Lemma TrimLeft_space (c : ascii) (s : gostring) :
  asciiSpace c = true →
  go_strings.TrimLeftFunc (c :: s) go_unicode.IsSpace
  = go_strings.TrimLeftFunc s go_unicode.IsSpace.
Proof.
  unfold asciiSpace. intros H. unbool.
  unfold go_strings.TrimLeftFunc. cbn [go_strings.TrimLeft_from].
  rewrite decode_ascii by done. by rewrite H0.
Qed.

Lemma TrimRight_space (c : ascii) (s : gostring) :
  asciiSpace c = true →
  go_strings.TrimRightFunc (s ++ [c]) go_unicode.IsSpace
  = go_strings.TrimRightFunc s go_unicode.IsSpace.
Proof.
  unfold asciiSpace. intros H. unbool.
  unfold go_strings.TrimRightFunc. rewrite length_app. simpl length.
  replace (length s + 1)%nat with (S (length s)) by lia.
  cbn [go_strings.TrimRight_loop]. rewrite decodeLast_last_ascii by done.
  rewrite H0. rewrite length_app. simpl length.
  replace (length s + 1 - 1)%nat with (length s) by lia.
  by rewrite take_app_length.
Qed.

Lemma TrimLeft_from_snoc (c : ascii) (s : gostring) (skip : nat) :
  asciiSpace c = true → (skip ≤ length s)%nat →
  go_strings.TrimLeft_from go_unicode.IsSpace skip (s ++ [c])
  = match go_strings.TrimLeft_from go_unicode.IsSpace skip s with
    | [] => []
    | s' => s' ++ [c]
    end.
Proof.
  intros Hc. pose proof Hc as Hc'. unfold asciiSpace in Hc'. unbool.
  revert skip. induction s as [|a t IH]; intros skip Hskip.
  - simpl in Hskip. replace skip with 0%nat by lia. simpl.
    rewrite decode_ascii by done. by rewrite H0.
  - destruct skip as [|k]; cbn [app go_strings.TrimLeft_from].
    + change (a :: t ++ [c]) with ((a :: t) ++ c :: []).
      rewrite decode_app_ascii by done.
      destruct (DecodeRuneInString (a :: t)) as [r size] eqn:D.
      destruct (go_unicode.IsSpace r); [|done].
      apply IH. apply decode_size in D as [[? _]|(_ & ? & Hsz)]; [done|]. simpl in Hsz. lia.
    + apply IH. simpl in Hskip. lia.
Qed.

Lemma TrimSpace_space_l (c : ascii) (s : gostring) :
  asciiSpace c = true → go_strings.TrimSpace (c :: s) = go_strings.TrimSpace s.
Proof. intros H. unfold go_strings.TrimSpace. by rewrite TrimLeft_space. Qed.

Lemma TrimSpace_space_r (c : ascii) (s : gostring) :
  asciiSpace c = true → go_strings.TrimSpace (s ++ [c]) = go_strings.TrimSpace s.
Proof.
  intros H. unfold go_strings.TrimSpace, go_strings.TrimLeftFunc.
  rewrite TrimLeft_from_snoc by (done || lia).
  destruct (go_strings.TrimLeft_from go_unicode.IsSpace 0 s) as [|a t]; [done|].
  by apply TrimRight_space.
Qed.

Lemma TrimSpace_padded (l l' : gostring) :
  padded l l' → go_strings.TrimSpace l' = go_strings.TrimSpace l.
Proof.
  intros (a & b & Ha & Hb & ->).
  induction a as [|c a IH]; simpl.
  - clear Ha. induction b as [|c b IH] using rev_ind; [by rewrite app_nil_r|].
    rewrite forallb_app in Hb. simpl in Hb. unbool.
    rewrite app_assoc, TrimSpace_space_r by done. by apply IH.
  - simpl in Ha. unbool. rewrite TrimSpace_space_l by done. by apply IH.
Qed.

Lemma readLine_trim (st : parser) (l l' : gostring) :
  go_strings.TrimSpace l' = go_strings.TrimSpace l →
  loopState (readLine st l').1 = loopState (readLine st l).1
  ∧ lineNum (readLine st l').1 = lineNum (readLine st l).1
  ∧ (readLine st l').2 = (readLine st l).2.
Proof.
  intros H. unfold readLine. rewrite H.
  repeat match goal with
         | |- context [if ?b then _ else _] => destruct b
         end; try done.
  unfold assign, advance, loopState. simpl.
  destruct (sectionMap st); [done|]. by destruct (doc st !! section st).
Qed.

Lemma readLines_trim (ls ls' : list gostring) (st st' : parser) :
  Forall2 (fun l l' => go_strings.TrimSpace l' = go_strings.TrimSpace l) ls ls' →
  loopState st' = loopState st → lineNum st' = lineNum st →
  doc (readLines st' ls').1 = doc (readLines st ls).1
  ∧ (readLines st' ls').2 = (readLines st ls).2.
Proof.
  intros H. revert st st'. induction H as [|l l' ls ls' Hl _ IH]; intros st st' Hst Hn.
  - simpl. unfold loopState in Hst. split; [congruence|done].
  - simpl.
    destruct (readLine_trim st l l' Hl) as (H1 & H2 & H3).
    destruct (readLine_loop st' st l' Hst) as [H4 _].
    assert (Hline : ∀ a b, loopState a = loopState b → lineNum a = lineNum b →
                      (readLine a l').2 = (readLine b l').2
                      ∧ lineNum (readLine a l').1 = lineNum (readLine b l').1).
    { intros [d s sm ln br] [d' s' sm' ln' br']. unfold loopState. simpl.
      intros [= <- <- <-] <-. rewrite !readLine_lineNum. split; [|done].
      unfold readLine.
      repeat match goal with
             | |- context [if ?b then _ else _] => destruct b
             end; done. }
    destruct (Hline st' st Hst Hn) as [H5 H6].
    destruct (readLine st' l') as [st1' e1'], (readLine st l') as [st1x e1x],
      (readLine st l) as [st1 e1]. simpl in *. subst.
    destruct e1 as [e|].
    + simpl. unfold loopState in *. split; [congruence|done].
    + apply IH; congruence.
Qed.

(** X24. ASCII white space at the start and at the end of a line counts
    for nothing but the byte count: an input whose lines are those of
    another between spaces or tabs leaves the same document and returns
    the same error, with the same line number. *)
Theorem ReadFrom_padded (i : Ini) (ls ls' : list gostring) :
  Forall plainLine ls → Forall plainLine ls' →
  Forall2 padded ls ls' →
  (ReadFrom i (joinLines ls')).1.1 = (ReadFrom i (joinLines ls)).1.1
  ∧ (ReadFrom i (joinLines ls')).2 = (ReadFrom i (joinLines ls)).2.
Proof.
  intros Hls Hls' Hpad.
  rewrite (ReadFrom_lines i _ _ (Scan_plain _ Hls)).
  rewrite (ReadFrom_lines i _ _ (Scan_plain _ Hls')).
  destruct (readLines_trim ls ls' (start i) (start i)) as [H1 H2]; [|done|done|].
  { eapply Forall2_impl; [exact Hpad|]. intros l l'. apply TrimSpace_padded. }
  destruct (readLines (start i) ls) as [st e], (readLines (start i) ls') as [st' e'].
  simpl in *. by subst.
Qed.

End Package.

(** * The claims on concrete documents *)

(** The names and values below use letters of Latin-1 at most, for which
    [latin1Lower] is Unicode's table. *)

Lemma latin1Lower_nonneg (r : Z) : 0 <= r → 0 <= latin1Lower r.
Proof.
  intros Hr. unfold latin1Lower.
  destruct ((192 <=? r) && (r <=? 222) && negb (r =? 215)); lia.
Qed.

(** What [WriteTo] writes for a document with one root entry. *)
Lemma WriteTo_run_single (k v : gostring) :
  WriteTo_run {[root := {[k := v]}]} = writeEntry k v ++ [LF].
Proof.
  unfold WriteTo_run, content. rewrite lookup_singleton_eq. simpl.
  rewrite !map_to_list_singleton, map_size_singleton. simpl.
  by rewrite !app_nil_r.
Qed.

Lemma WriteTo_single (k v out : gostring) (cnt : Z) :
  WriteTo {[root := {[k := v]}]} out cnt → out = writeEntry k v ++ [LF].
Proof.
  intros (rootOrder & visits & Hroot & Hvis & _ & -> & _).
  specialize (Hroot _ (lookup_singleton_eq _ _)). unfold ranges in Hroot, Hvis.
  rewrite map_to_list_singleton in Hroot. rewrite map_to_list_singleton in Hvis.
  apply Permutation_singleton_r in Hroot as ->.
  apply Permutation_singleton_r in Hvis.
  destruct visits as [|[[n m] kvs] [|? ?]]; try discriminate.
  injection Hvis as -> ->.
  unfold content. rewrite lookup_singleton_eq, map_size_singleton. simpl.
  by rewrite !app_nil_r.
Qed.

(** A bare value that fills the scanner's buffer stops the scanner. *)
Lemma ReadFrom_too_long (lowerCase : Z → Z) (k v : gostring) :
  go_strings.ContainsAny v quoteChars = false →
  LF ∉ k →
  maxTokenSize <= len (k ++ EQUALS :: v) →
  ReadFrom lowerCase New (WriteTo_run {[root := {[k := v]}]})
  = (New, 0, Some (ScannerError go_bufio.ErrTooLong)).
Proof.
  intros Hv Hk Hlen. rewrite WriteTo_run_single.
  unfold writeEntry. rewrite Hv, app_nil_l.
  assert (Hl : LF ∉ k ++ EQUALS :: v).
  { rewrite not_elem_of_app, not_elem_of_cons. split; [done|]. split; [done|].
    apply (ContainsAny_false v quoteChars LF Hv).
    unfold quoteChars. rewrite !elem_of_cons. auto. }
  replace (k ++ [EQUALS] ++ v ++ [LF]) with ((k ++ EQUALS :: v) ++ [LF])
    by (by rewrite <- !app_assoc).
  rewrite <- app_assoc. simpl app.
  unfold ReadFrom, go_bufio.Scan. rewrite splitLines_line by done.
  cbn [go_bufio.deliver]. fold (len (k ++ EQUALS :: v)).
  destruct (len (k ++ EQUALS :: v) <? maxTokenSize) eqn:E; [|reflexivity].
  apply Z.ltb_lt in E. lia.
Qed.

Lemma ContainsAny_repeat (n : nat) :
  go_strings.ContainsAny (repeat "a"%char n) quoteChars = false.
Proof. induction n as [|n IH]; [reflexivity|]. exact IH. Qed.

Lemma sampleDocument_lookup (n : gostring) (m : Section_) :
  sampleDocument !! n = Some m →
  (n = root ∧ m = {[go "x" := go "1"]})
  ∨ (n = go "sec" ∧ m = {[go "k" := go "a = " ++ [DQUOTE; BACKSLASH; LF; TAB]]}).
Proof.
  unfold sampleDocument. rewrite lookup_insert_Some, lookup_singleton_Some.
  intros [[<- <-]|[_ [<- <-]]]; auto.
Qed.

Ltac evaluated :=
  repeat split; try reflexivity; try discriminate;
  apply (bool_decide_unpack _); vm_compute; exact I.

Lemma sampleDocument_roundTrips : roundTrips latin1Lower sampleDocument.
Proof.
  split.
  - intros n m Hn.
    destruct (sampleDocument_lookup n m Hn) as [[_ ->]|[_ ->]]; apply insert_non_empty.
  - intros n m Hn.
    destruct (sampleDocument_lookup n m Hn) as [[-> ->]|[-> ->]].
    + split; [evaluated|]. split; [reflexivity|].
      intros k v [<- <-]%lookup_singleton_Some. evaluated.
    + split; [evaluated|]. split; [reflexivity|].
      intros k v [<- <-]%lookup_singleton_Some. evaluated.
Qed.

(** C8 on a document: [Set("Sec", "Key", "v")], then [Get("SEC", "kEY")]. *)
Lemma Get_after_Set_witness :
  ToLower latin1Lower (go "SEC") = ToLower latin1Lower (go "Sec")
  ∧ ToLower latin1Lower (go "kEY") = ToLower latin1Lower (go "Key")
  ∧ Get latin1Lower (Set_ latin1Lower New (go "Sec") (go "Key") (go "v"))
        (go "SEC") (go "kEY") = (go "v", true).
Proof.
  split; [reflexivity|]. split; [reflexivity|].
  apply (Get_after_Set latin1Lower New (go "Sec") (go "Key") (go "v")
           (go "SEC") (go "kEY")); reflexivity.
Defined.

(** C10 on a document built by [Set]: a key that section ["a"] does not
    have. *)
Lemma Unset_absent_witness :
  built latin1Lower (Set_ latin1Lower New (go "a") (go "k") (go "v"))
  ∧ Set_ latin1Lower New (go "a") (go "k") (go "v") !! ToLower latin1Lower (go "A")
    = Some {[go "k" := go "v"]}
  ∧ Unset latin1Lower (Set_ latin1Lower New (go "a") (go "k") (go "v")) (go "A") (go "x")
    = Set_ latin1Lower New (go "a") (go "k") (go "v").
Proof.
  assert (Hb : built latin1Lower (Set_ latin1Lower New (go "a") (go "k") (go "v")))
    by apply built_Set, built_New.
  assert (Hl : Set_ latin1Lower New (go "a") (go "k") (go "v")
               !! ToLower latin1Lower (go "A") = Some {[go "k" := go "v"]})
    by (vm_compute; reflexivity).
  split; [exact Hb|]. split; [exact Hl|].
  apply (Unset_absent latin1Lower _ (go "A") (go "x") Hb).
  right. exists {[go "k" := go "v"]}. split; [exact Hl|reflexivity].
Defined.

(** C4 on a document built by [Set] and [Unset]. *)
Lemma built_nonempty_witness :
  built latin1Lower
    (Unset latin1Lower (Set_ latin1Lower New (go "S") (go "K") (go "v"))
           (go "s") (go "x"))
  ∧ nonempty_sections
      (Unset latin1Lower (Set_ latin1Lower New (go "S") (go "K") (go "v"))
             (go "s") (go "x")).
Proof.
  assert (H : built latin1Lower
                (Unset latin1Lower (Set_ latin1Lower New (go "S") (go "K") (go "v"))
                       (go "s") (go "x")))
    by apply built_Unset, built_Set, built_New.
  split; [exact H|]. exact (proj1 (built_nonempty latin1Lower _ H)).
Defined.

(** C5 on an input whose second line has no ['=']. *)
Lemma merge_on_error_witness :
  ReadFrom latin1Lower New (go "a=1" ++ [LF] ++ go "b" ++ [LF] ++ go "c=3")
  = ({[root := {[go "a" := go "1"]}]}, 6, Some (MissingDelimiter 2))
  ∧ ∃ before rest n',
      go "a=1" ++ [LF] ++ go "b" ++ [LF] ++ go "c=3" = before ++ rest
      ∧ ReadFrom latin1Lower New before = ({[root := {[go "a" := go "1"]}]}, n', None)
      ∧ ∀ ln, errorLine (MissingDelimiter 2) = Some ln →
              Z.of_nat (length (go_bufio.splitLines before)) = ln - 1.
Proof.
  assert (H : ReadFrom latin1Lower New (go "a=1" ++ [LF] ++ go "b" ++ [LF] ++ go "c=3")
              = ({[root := {[go "a" := go "1"]}]}, 6, Some (MissingDelimiter 2)))
    by (vm_compute; reflexivity).
  split; [exact H|]. exact (proj1 (merge_on_error latin1Lower _ _ _ _ _ H)).
Defined.

(** C7 on the line ["  Key = a=b "]. *)
Lemma split_at_first_equals_witness :
  go_strings.TrimSpace (go "  Key = a=b ") = go "Key " ++ EQUALS :: go " a=b"
  ∧ readLine latin1Lower (start New) (go "  Key = a=b ")
    = (assign (advance (start New) (go "  Key = a=b ")) (go "key") (go "a=b"), None).
Proof.
  split; [reflexivity|].
  refine (proj1 (split_at_first_equals latin1Lower (start New) (go "  Key = a=b ")
                   (go "Key ") (go " a=b") _ _ _ _ _)).
  - reflexivity.
  - apply (bool_decide_unpack _). vm_compute. exact I.
  - reflexivity.
  - reflexivity.
  - vm_compute. discriminate.
Defined.

(** C6 on an input whose third line is an empty header. *)
Lemma format_errors_witness :
  (∀ r, 0 <= r → 0 <= latin1Lower r)
  ∧ (ReadFrom latin1Lower New (go "; c" ++ [LF; LF] ++ go "[ ]")).2
    = Some (EmptySectionName 3).
Proof.
  split; [exact latin1Lower_nonneg|].
  rewrite (proj1 (format_errors latin1Lower New (go "; c" ++ [LF; LF] ++ go "[ ]")
                    latin1Lower_nonneg)).
  reflexivity.
Defined.

(** C2 as stated fails: a value that is one backslash holds a character
    the specification lists, and is written bare. *)
Lemma quoting_rule_backslash :
  BACKSLASH ∈ [BACKSLASH]
  ∧ go_strings.ContainsAny [BACKSLASH] specQuoteChars = true
  ∧ specWrittenValue [BACKSLASH] = [DQUOTE; BACKSLASH; BACKSLASH; DQUOTE]
  ∧ go_strings.ContainsAny [BACKSLASH] quoteChars = false
  ∧ writeEntry (go "k") [BACKSLASH] = go "k=\" ++ [LF]
  ∧ writeSection [(go "k", [BACKSLASH])] = go "k=\" ++ [LF].
Proof.
  split; [by apply elem_of_cons; left|]. repeat split; reflexivity.
Qed.

(** What [WriteTo] writes for a document with one entry, in a section that
    is not the root one. *)
Lemma WriteTo_single_section (n k v out : gostring) (cnt : Z) :
  n ≠ root →
  WriteTo {[n := {[k := v]}]} out cnt →
  out = [LBRACKET] ++ n ++ [RBRACKET; LF] ++ writeEntry k v ++ [LF].
Proof.
  intros Hn (rootOrder & visits & _ & Hvis & Hkvs & -> & _).
  unfold ranges in Hvis. rewrite map_to_list_singleton in Hvis.
  apply Permutation_singleton_r in Hvis.
  destruct visits as [|[[n' m] kvs] [|? ?]]; try discriminate.
  injection Hvis as -> ->.
  apply Forall_cons in Hkvs as [Hkvs _]. unfold ranges in Hkvs. simpl in Hkvs.
  rewrite map_to_list_singleton in Hkvs. apply Permutation_singleton_r in Hkvs as ->.
  unfold content. rewrite lookup_singleton_ne by done. simpl.
  rewrite bool_decide_eq_false_2 by done. rewrite map_size_singleton. simpl.
  by rewrite !app_nil_r.
Qed.

Lemma writeEntry_empty_key (v : gostring) :
  go_strings.ContainsAny v quoteChars = false →
  writeEntry [] v ++ [LF] = EQUALS :: v ++ [LF; LF].
Proof.
  intros H. unfold writeEntry. rewrite H. simpl. by rewrite <- app_assoc.
Qed.

(** C9 as stated fails, on two documents made by one [Set] with an empty
    key.  In a section whose name holds a line feed, the header is written
    on two lines, and [ReadFrom] returns the missing delimiter of the first
    one, at line 1, not the empty key name of the third.  With a value as
    long as the scanner's buffer, the line that starts with ['='] does not
    fit, and [ReadFrom] returns the scanner's error. *)
Lemma empty_names_other_errors :
  newlineSectionDocument
  = Set_ latin1Lower New (go "a" ++ [LF] ++ go "b") [] (go "v")
  ∧ Get latin1Lower newlineSectionDocument (go "a" ++ [LF] ++ go "b") [] = (go "v", true)
  ∧ (∀ out cnt, WriteTo newlineSectionDocument out cnt →
       out = go "[a" ++ [LF] ++ go "b]" ++ [LF] ++ go "=v" ++ [LF; LF])
  ∧ WriteTo_run newlineSectionDocument
    = go "[a" ++ [LF] ++ go "b]" ++ [LF] ++ go "=v" ++ [LF; LF]
  ∧ (ReadFrom latin1Lower New (WriteTo_run newlineSectionDocument)).2
    = Some (MissingDelimiter 1)
  ∧ longEmptyKeyDocument
    = Set_ latin1Lower New root [] (repeat "a"%char (Z.to_nat maxTokenSize))
  ∧ (∀ out cnt, WriteTo longEmptyKeyDocument out cnt →
       out = EQUALS :: repeat "a"%char (Z.to_nat maxTokenSize) ++ [LF; LF])
  ∧ (ReadFrom latin1Lower New (WriteTo_run longEmptyKeyDocument)).2
    = Some (ScannerError go_bufio.ErrTooLong).
Proof.
  split; [vm_compute; reflexivity|]. split; [vm_compute; reflexivity|].
  split; [intros out cnt H; by apply WriteTo_single_section in H|].
  split; [vm_compute; reflexivity|]. split; [vm_compute; reflexivity|].
  split; [|split].
  - unfold longEmptyKeyDocument, Set_.
    replace (ToLower latin1Lower root) with root by reflexivity.
    change (ToLower latin1Lower []) with (@nil ascii).
    unfold New. rewrite lookup_empty, alter_insert_eq. reflexivity.
  - intros out cnt H. apply WriteTo_single in H as ->.
    apply writeEntry_empty_key, ContainsAny_repeat.
  - unfold longEmptyKeyDocument. rewrite ReadFrom_too_long; [done| | |].
    + apply ContainsAny_repeat.
    + apply not_elem_of_nil.
    + unfold len. rewrite length_app, length_cons, repeat_length.
      unfold maxTokenSize. lia.
Qed.

(** C1, amended, on [sampleDocument]. *)
Lemma round_trip_witness :
  roundTrips latin1Lower sampleDocument
  ∧ WriteTo sampleDocument (WriteTo_run sampleDocument)
      (int64 (len (WriteTo_run sampleDocument)))
  ∧ WriteTo_run sampleDocument
    = go "x=1" ++ [LF; LF] ++ go "[sec]" ++ [LF]
        ++ go "k=" ++ [DQUOTE] ++ go "a = \" ++ [DQUOTE] ++ go "\\\n\t" ++ [DQUOTE; LF; LF]
  ∧ ∃ n, ReadFrom latin1Lower New (WriteTo_run sampleDocument)
         = (sampleDocument, n, None).
Proof.
  split; [exact sampleDocument_roundTrips|].
  split; [exact (WriteTo_run_spec sampleDocument)|].
  split; [reflexivity|].
  exact (round_trip latin1Lower sampleDocument _ _ sampleDocument_roundTrips
           (WriteTo_run_spec sampleDocument)).
Defined.

(** C1 as stated fails, on three documents made by one [Set] under the
    key ["k"] of the root section.  A value that is one vertical tab is
    written bare, and [TrimSpace] removes it from the line read: the value
    read is empty.  A byte that is not UTF-8, in a value written in quotes,
    is written as U+FFFD, and read as such.  A value as long as the
    scanner's buffer is written on a line the scanner refuses: [ReadFrom]
    returns the scanner's error. *)
Lemma round_trip_fails :
  vtDocument = Set_ latin1Lower New root (go "k") [VT]
  ∧ nameOK latin1Lower root ∧ keyOK latin1Lower (go "k")
  ∧ (∀ out cnt, WriteTo vtDocument out cnt → out = go "k=" ++ [VT; LF; LF])
  ∧ WriteTo_run vtDocument = go "k=" ++ [VT; LF; LF]
  ∧ ReadFrom latin1Lower New (go "k=" ++ [VT; LF; LF])
    = ({[root := {[go "k" := []]}]}, 5, None)
  ∧ Get latin1Lower vtDocument root (go "k") = ([VT], true)
  ∧ Get latin1Lower (ReadFrom latin1Lower New (go "k=" ++ [VT; LF; LF])).1.1
        root (go "k")
    = ([], true)
  ∧ rawDocument = Set_ latin1Lower New root (go "k") [byte_of 0xFF; SP]
  ∧ WriteTo_run rawDocument
    = go "k=" ++ [DQUOTE; byte_of 0xEF; byte_of 0xBF; byte_of 0xBD; SP; DQUOTE; LF; LF]
  ∧ ReadFrom latin1Lower New (WriteTo_run rawDocument)
    = ({[root := {[go "k" := [byte_of 0xEF; byte_of 0xBF; byte_of 0xBD; SP]]}]},
       10, None)
  ∧ longDocument
    = Set_ latin1Lower New root (go "k") (repeat "a"%char (Z.to_nat maxTokenSize))
  ∧ ReadFrom latin1Lower New (WriteTo_run longDocument)
    = (New, 0, Some (ScannerError go_bufio.ErrTooLong)).
Proof.
  split; [vm_compute; reflexivity|].
  split; [evaluated|]. split; [evaluated|].
  split; [intros out cnt H; by apply WriteTo_single in H|].
  do 4 (split; [vm_compute; reflexivity|]).
  split; [vm_compute; reflexivity|].
  do 2 (split; [vm_compute; reflexivity|]).
  split.
  - unfold longDocument, Set_.
    replace (ToLower latin1Lower root) with root by reflexivity.
    replace (ToLower latin1Lower (go "k")) with (go "k") by reflexivity.
    unfold New. rewrite lookup_empty, alter_insert_eq. reflexivity.
  - apply ReadFrom_too_long.
    + apply ContainsAny_repeat.
    + apply (bool_decide_unpack _). vm_compute. exact I.
    + unfold len. rewrite length_app, length_cons, repeat_length.
      unfold maxTokenSize. lia.
Qed.

(** * The further properties on concrete documents *)

Ltac plain_lines :=
  repeat (apply Forall_cons; split; [evaluated|]); apply Forall_nil_2.

Lemma sampleLines_plain : Forall plainLine sampleLines.
Proof. unfold sampleLines. plain_lines. Qed.

Lemma sampleDocument_built : built latin1Lower sampleDocument.
Proof.
  assert (sampleDocument
          = Set_ latin1Lower
              (Set_ latin1Lower New (go "SEC") (go "K")
                    (go "a = " ++ [DQUOTE; BACKSLASH; LF; TAB]))
              (go "root") (go "X") (go "1")) as ->
    by (vm_compute; reflexivity).
  apply built_Set, built_Set, built_New.
Qed.

(** X1 on [sampleDocument]. *)
Lemma Set_frame_witness :
  Get latin1Lower (Set_ latin1Lower sampleDocument (go "Sec") (go "other") (go "v"))
      (go "SEC") (go "K")
  = Get latin1Lower sampleDocument (go "SEC") (go "K").
Proof.
  apply (Set_frame latin1Lower). right. vm_compute. discriminate.
Defined.

(** X2 on [sampleDocument]. *)
Lemma Get_after_Unset_witness :
  Get latin1Lower (Unset latin1Lower sampleDocument (go "Sec") (go "K")) (go "SEC") (go "k")
  = ([], false)
  ∧ GetDefault latin1Lower (Unset latin1Lower sampleDocument (go "Sec") (go "K"))
      (go "SEC") (go "k") (go "d")
    = go "d".
Proof.
  apply (Get_after_Unset latin1Lower); reflexivity.
Defined.

(** X3 on [sampleDocument]. *)
Lemma Unset_frame_witness :
  Get latin1Lower (Unset latin1Lower sampleDocument (go "Sec") (go "K")) (go "root") (go "x")
  = Get latin1Lower sampleDocument (go "root") (go "x").
Proof.
  apply (Unset_frame latin1Lower). left. vm_compute. discriminate.
Defined.

(** X4 on [sampleDocument]. *)
Lemma Set_overwrites_witness :
  Set_ latin1Lower (Set_ latin1Lower sampleDocument (go "Sec") (go "K") (go "1"))
       (go "SEC") (go "k") (go "2")
  = Set_ latin1Lower sampleDocument (go "Sec") (go "K") (go "2").
Proof.
  apply (Set_overwrites latin1Lower); reflexivity.
Defined.

(** X5 on [sampleDocument]. *)
Lemma Set_commutes_witness :
  Set_ latin1Lower (Set_ latin1Lower sampleDocument (go "Sec") (go "a") (go "1"))
       (go "Sec") (go "b") (go "2")
  = Set_ latin1Lower (Set_ latin1Lower sampleDocument (go "Sec") (go "b") (go "2"))
         (go "Sec") (go "a") (go "1").
Proof.
  apply (Set_commutes latin1Lower). right. vm_compute. discriminate.
Defined.

(** X6 on [sampleDocument]: a key in a section that is not there. *)
Lemma Unset_after_Set_witness :
  nonempty_sections sampleDocument
  ∧ Unset latin1Lower (Set_ latin1Lower sampleDocument (go "New") (go "Key") (go "v"))
          (go "NEW") (go "KEY")
    = sampleDocument.
Proof.
  assert (H : nonempty_sections sampleDocument)
    by apply (built_sections latin1Lower), sampleDocument_built.
  split; [exact H|].
  apply (Unset_after_Set latin1Lower); [exact H|reflexivity..].
Defined.

(** X7 on [sampleDocument]. *)
Lemma Unset_idempotent_witness :
  Unset latin1Lower (Unset latin1Lower sampleDocument (go "Sec") (go "K")) (go "SEC") (go "k")
  = Unset latin1Lower sampleDocument (go "Sec") (go "K").
Proof.
  apply (Unset_idempotent latin1Lower); reflexivity.
Defined.

(** X9 on [sampleDocument]. *)
Lemma Sections_names_witness :
  Sections sampleDocument (Sections_run sampleDocument)
  ∧ length (Sections_run sampleDocument) = 2%nat
  ∧ NoDup (Sections_run sampleDocument).
Proof.
  assert (H : Sections sampleDocument (Sections_run sampleDocument)).
  { exists (map_to_list sampleDocument). split; [|done]. unfold ranges. reflexivity. }
  split; [exact H|].
  destruct (Sections_names latin1Lower sampleDocument _ H) as (Hnd & Hlen & _).
  split; [|exact Hnd]. rewrite Hlen. reflexivity.
Defined.

(** X10 on [sampleDocument]. *)
Lemma Keys_names_witness :
  Keys latin1Lower sampleDocument (go "SEC") (Keys_run latin1Lower sampleDocument (go "SEC"))
  ∧ Keys_run latin1Lower sampleDocument (go "SEC") = Some [go "k"]
  ∧ (Keys_run latin1Lower sampleDocument (go "SEC") = None
     ↔ HasSection latin1Lower sampleDocument (go "SEC") = false).
Proof.
  assert (H : Keys latin1Lower sampleDocument (go "SEC")
                (Keys_run latin1Lower sampleDocument (go "SEC"))).
  { unfold Keys, Keys_run.
    destruct (sampleDocument !! ToLower latin1Lower (go "SEC")) as [m|]; [|done].
    exists (map_to_list m). split; [|done]. unfold ranges. reflexivity. }
  split; [exact H|]. split; [vm_compute; reflexivity|].
  exact (proj1 (Keys_names latin1Lower sampleDocument (go "SEC") _ H)).
Defined.

(** X11 on [sampleDocument]. *)
Lemma built_lowered_witness :
  built latin1Lower sampleDocument ∧ loweredNames latin1Lower sampleDocument.
Proof.
  split; [exact sampleDocument_built|].
  exact (proj1 (built_lowered latin1Lower sampleDocument sampleDocument_built)).
Defined.

(** X12 on [sampleDocument]. *)
Lemma HasSection_has_key_witness :
  HasSection latin1Lower sampleDocument (go "SEC") = true
  ↔ ∃ k v, Get latin1Lower sampleDocument (go "SEC") k = (v, true).
Proof.
  exact (proj1 (HasSection_has_key latin1Lower sampleDocument (go "SEC")
                  sampleDocument_built)).
Defined.

(** X13 on [sampleDocument] and an input with an error on its second line. *)
Lemma ReadFrom_keeps_witness :
  sampleDocument !! go "sec"
  = Some {[go "k" := go "a = " ++ [DQUOTE; BACKSLASH; LF; TAB]]}
  ∧ ∃ m', (ReadFrom latin1Lower sampleDocument (go "[sec]" ++ [LF] ++ go "oops")).1.1
            !! go "sec" = Some m'
          ∧ dom ({[go "k" := go "a = " ++ [DQUOTE; BACKSLASH; LF; TAB]]} : Section_)
            ⊆ dom m'.
Proof.
  assert (H : sampleDocument !! go "sec"
              = Some {[go "k" := go "a = " ++ [DQUOTE; BACKSLASH; LF; TAB]]})
    by reflexivity.
  split; [exact H|].
  exact (proj1 (ReadFrom_keeps latin1Lower sampleDocument
                  (go "[sec]" ++ [LF] ++ go "oops") _ _ H)).
Defined.

(** X15 on [sampleLines]. *)
Lemma ReadFrom_skips_witness :
  List.filter (fun l => negb (skipped l)) sampleLines
  = [go "a=1"; go "[Sec]"; go "k = v w"]
  ∧ (ReadFrom latin1Lower New (joinLines sampleLines)).1.1
    = (ReadFrom latin1Lower New
         (joinLines (List.filter (fun l => negb (skipped l)) sampleLines))).1.1.
Proof.
  split; [reflexivity|].
  exact (proj1 (ReadFrom_skips latin1Lower New sampleLines sampleLines_plain)).
Defined.

(** X16 on [sampleLines]. *)
Lemma ReadFrom_count_witness :
  len (joinLines sampleLines) = 22
  ∧ (ReadFrom latin1Lower New (joinLines sampleLines)).2 = None
  ∧ (ReadFrom latin1Lower New (joinLines sampleLines)).1.2 = 22.
Proof.
  split; [reflexivity|].
  assert (H : (ReadFrom latin1Lower New (joinLines sampleLines)).2 = None)
    by (vm_compute; reflexivity).
  split; [exact H|].
  pose proof (ReadFrom_count latin1Lower New sampleLines sampleLines_plain eq_refl) as Hc.
  rewrite H in Hc. exact Hc.
Defined.

(** X17 on [sampleLines]. *)
Lemma ReadFrom_CRLF_witness :
  ReadFrom latin1Lower New (joinCRLF sampleLines)
  = ReadFrom latin1Lower New (joinLines sampleLines).
Proof.
  apply (ReadFrom_CRLF latin1Lower). unfold sampleLines.
  repeat (apply Forall_cons; split; [evaluated|]). apply Forall_nil_2.
Defined.

(** X18 on [sampleLines] and the line ["K2 = 'x'"]. *)
Lemma ReadFrom_appends_witness :
  ∃ sec n',
    ReadFrom latin1Lower New (joinLines (sampleLines ++ [go "K2 = 'x'"]))
    = (put (ReadFrom latin1Lower New (joinLines sampleLines)).1.1 sec (go "k2") (go "x"),
       n', None)
    ∧ sec = go "sec".
Proof.
  destruct (ReadFrom_appends latin1Lower New
              (ReadFrom latin1Lower New (joinLines sampleLines)).1.1
              sampleLines (go "K2 = 'x'") (go "K2 ") (go " 'x'")
              (ReadFrom latin1Lower New (joinLines sampleLines)).1.2)
    as (sec & n' & H1 & _ & H3).
  - exact sampleLines_plain.
  - evaluated.
  - vm_compute. reflexivity.
  - reflexivity.
  - apply (bool_decide_unpack _). vm_compute. exact I.
  - reflexivity.
  - reflexivity.
  - vm_compute. discriminate.
  - exists sec, n'. split; [exact H1|].
    apply (H3 [go "; c"; go "a=1"] (go "[Sec]") (go "Sec") [go "k = v w"]).
    + reflexivity.
    + reflexivity.
    + apply Forall_cons. split; [reflexivity|apply Forall_nil_2].
Defined.

Lemma twoSections_WriteTo (n1 n2 v1 v2 : gostring) :
  [(n1, ({[go "k" := v1]} : Section_)); (n2, {[go "k" := v2]})] ≡ₚ map_to_list twoSections →
  WriteTo twoSections
    (content twoSections []
       [(n1, {[go "k" := v1]}, [(go "k", v1)]); (n2, {[go "k" := v2]}, [(go "k", v2)])])
    (int64 (len (content twoSections []
       [(n1, {[go "k" := v1]}, [(go "k", v1)]); (n2, {[go "k" := v2]}, [(go "k", v2)])]))).
Proof.
  intros Hp. eexists [], _. split; [|split; [|split; [|split]]]; try reflexivity.
  - intros s Hs. vm_compute in Hs. discriminate.
  - exact Hp.
  - apply Forall_cons. split; [|apply Forall_cons; split; [|apply Forall_nil_2]];
      unfold ranges; simpl; by rewrite map_to_list_singleton.
Qed.

Lemma twoSections_list :
  map_to_list twoSections
  ≡ₚ [(go "a", ({[go "k" := go "1"]} : Section_)); (go "b", {[go "k" := go "2"]})].
Proof.
  unfold twoSections. rewrite map_to_list_insert by reflexivity.
  by rewrite map_to_list_singleton.
Qed.

(** X19 on [twoSections], written in its two orders. *)
Lemma WriteTo_orders_witness :
  WriteTo twoSections (go "[a]" ++ [LF] ++ go "k=1" ++ [LF; LF]
                       ++ go "[b]" ++ [LF] ++ go "k=2" ++ [LF; LF]) 18
  ∧ WriteTo twoSections (go "[b]" ++ [LF] ++ go "k=2" ++ [LF; LF]
                         ++ go "[a]" ++ [LF] ++ go "k=1" ++ [LF; LF]) 18
  ∧ go "[a]" ++ [LF] ++ go "k=1" ++ [LF; LF] ++ go "[b]" ++ [LF] ++ go "k=2" ++ [LF; LF]
    ≡ₚ go "[b]" ++ [LF] ++ go "k=2" ++ [LF; LF] ++ go "[a]" ++ [LF] ++ go "k=1" ++ [LF; LF].
Proof.
  assert (H1 : WriteTo twoSections
                 (go "[a]" ++ [LF] ++ go "k=1" ++ [LF; LF]
                  ++ go "[b]" ++ [LF] ++ go "k=2" ++ [LF; LF]) 18).
  { apply (twoSections_WriteTo (go "a") (go "b") (go "1") (go "2")).
    by rewrite twoSections_list. }
  assert (H2 : WriteTo twoSections
                 (go "[b]" ++ [LF] ++ go "k=2" ++ [LF; LF]
                  ++ go "[a]" ++ [LF] ++ go "k=1" ++ [LF; LF]) 18).
  { apply (twoSections_WriteTo (go "b") (go "a") (go "2") (go "1")).
    rewrite twoSections_list. apply perm_swap. }
  split; [exact H1|]. split; [exact H2|].
  exact (proj1 (proj2 (WriteTo_orders twoSections _ _ _ _ H1 H2))).
Defined.

(** X20 on [sampleDocument]. *)
Lemma WriteTo_lines_witness :
  go "[sec]" ∈ go_bufio.splitLines (WriteTo_run sampleDocument).
Proof.
  apply (WriteTo_lines latin1Lower sampleDocument _ _ (WriteTo_run_spec sampleDocument)).
  - intros n m Hn.
    destruct (sampleDocument_lookup n m Hn) as [[-> ->]|[-> ->]];
      (split; [apply (bool_decide_unpack _); vm_compute; exact I|]);
      intros k v [<- <-]%lookup_singleton_Some;
      apply (bool_decide_unpack _); vm_compute; exact I.
  - right. left. exists (go "sec"), {[go "k" := go "a = " ++ [DQUOTE; BACKSLASH; LF; TAB]]}.
    split; [reflexivity|]. split; [discriminate|]. split; [apply insert_non_empty|reflexivity].
Defined.

(** X22: [sampleDocument] read into a document that has another key in
    section ["sec"]. *)
Lemma ReadFrom_merges_witness :
  ∃ n, ReadFrom latin1Lower {[go "sec" := {[go "old" := go "1"]}]}
         (WriteTo_run sampleDocument)
       = (merge sampleDocument {[go "sec" := {[go "old" := go "1"]}]}, n, None).
Proof.
  destruct (ReadFrom_merges latin1Lower {[go "sec" := {[go "old" := go "1"]}]}
              sampleDocument _ _ sampleDocument_roundTrips
              (WriteTo_run_spec sampleDocument)) as (n & H & _).
  exists n. exact H.
Defined.

Lemma repeat_noLF (n : nat) : LF ∉ repeat "a"%char n.
Proof.
  intros H. apply list_elem_of_In, repeat_spec in H. discriminate.
Qed.

(** X23 on [sampleLines] followed by a line of [maxTokenSize] bytes. *)
Lemma ReadFrom_line_too_long_witness :
  ReadFrom latin1Lower New
    (joinLines sampleLines ++ repeat "a"%char (Z.to_nat maxTokenSize) ++ [])
  = ((ReadFrom latin1Lower New (joinLines sampleLines)).1,
     Some (default (ScannerError go_bufio.ErrTooLong)
             (ReadFrom latin1Lower New (joinLines sampleLines)).2)).
Proof.
  apply (ReadFrom_line_too_long latin1Lower).
  - exact sampleLines_plain.
  - apply repeat_noLF.
  - unfold len. rewrite repeat_length. unfold maxTokenSize. lia.
Defined.

(** X24 on [sampleLines], indented. *)
Lemma ReadFrom_padded_witness :
  (ReadFrom latin1Lower New
     (joinLines [go "  ; c"; go "a=1  "; TAB :: go "[Sec] "; go " k = v w"])).1.1
  = (ReadFrom latin1Lower New (joinLines sampleLines)).1.1.
Proof.
  refine (proj1 (ReadFrom_padded latin1Lower New sampleLines
                   [go "  ; c"; go "a=1  "; TAB :: go "[Sec] "; go " k = v w"]
                   sampleLines_plain _ _)).
  - plain_lines.
  - unfold sampleLines.
    constructor; [by exists (go "  "), []|].
    constructor; [by exists [], (go "  ")|].
    constructor; [by exists [TAB], (go " ")|].
    constructor; [by exists (go " "), []|].
    constructor.
Defined.
